(** * The change-request engine of AI-Architecture-Hub

    A shallow embedding of the update engine of
    [packages/api/src/code-generator.ts] ([applyChangeRequestToSpec],
    [validateSpec], [validateCircularRelations], [sanitizePath],
    [generateImpactSummary]) and of the types of [packages/core] it
    works on, followed by the properties the specification states about
    them.  Further on come the rest of the update engine
    ([collectImpactedFiles], [computeChangePreview]), four functions of
    the validation engine ([validateEntities], [validateEndpoints],
    [checkMissingCRUDEndpoints], [generateCRUDOperations]) and
    [applyChangeRequest] of the server, with properties of their own.

    Modelling conventions.
    - JavaScript objects that the engine updates in place (requirements,
      entities, endpoints) live in an object store and are named by
      references, so that two references to one object see each other's
      updates.  The working spec and its three arrays are created by the
      call and never shared, and nested arrays and plain values are never
      updated in place: all of these are ordinary Rocq values.
    - The three arrays of a spec and the operations of a request may be
      [undefined] on an untyped input: such a property is [None], and the
      engine's reaction (a [TypeError]) is the [Throw] outcome.  Every
      other property is as its TypeScript type says.
    - An operation is as its type says: it carries its payload or its
      patch, and an entity its [fields] and [relations].  JSON that lacks
      them makes the source raise a [TypeError] where it reads them
      ([operation.entity.name], [operation.patch.name],
      [entity.fields.forEach]).  The model does not describe such input: a
      reference that names no object stands for nothing the source can
      read, and what is said of the result of a call is said of references
      that name an object ([wf_spec], [payload_in]).
    - A patch is JSON data: a property it carries has a value.
    - Strings are Rocq strings, one character per code unit.
    - The database of the server is a state that is not looked into; the
      queries sent to it are the functions of an interface ([Database]).
    - The properties [id], [name] and [type] occur in several interfaces;
      a record field carries a prefix for its interface ([ent_id],
      [ep_id], [ctype], ...). *)

From Stdlib Require Import Ascii String List Arith Lia.
From stdpp Require Import base option list strings gmap sets.

Local Open Scope string_scope.
Local Open Scope list_scope.
Local Open Scope nat_scope.
Set Warnings "-register-all,-clear-no-such-hyp".

(** ** Outcomes of a call *)

Inductive exn := TypeError.

(** [OutOfFuel] is the outcome of a bounded recursion whose bound was too
    small; [validateCircularRelations_returns] shows it never occurs. *)
Inductive result (A : Type) :=
| Ok (a : A)
| Throw (e : exn)
| OutOfFuel.

Arguments Ok {A} a.
Arguments Throw {A} e.
Arguments OutOfFuel {A}.

#[global] Instance result_bind : MBind result := λ A B k m,
  match m with
  | Ok a => k a
  | Throw e => Throw e
  | OutOfFuel => OutOfFuel
  end.

(** ** Data model ([packages/core]) *)

Record Requirement := { req_id : string; req_description : string }.

Record Field := { fld_name : string; fld_type : string }.

Inductive RelationType := one_to_one | one_to_many | many_to_one | many_to_many.

Record Relation := { target : string; rel_type : RelationType }.

Record Entity := {
  ent_id : string;
  ent_name : string;
  fields : list Field;
  relations : list Relation
}.

Inductive Method := GET | POST | PUT | PATCH | DELETE.

(** Values of type [any]: JSON trees the engine copies and never reads.
    Numbers are kept as their literal text. *)
Inductive json :=
| JNull
| JBool (b : bool)
| JNum (literal : string)
| JStr (s : string)
| JArr (items : list json)
| JObj (props : list (string * json)).

Record Endpoint := {
  ep_id : string;
  method : Method;
  path : string;
  schema : json
}.

Inductive FolderStructure :=
| Folder (entries : list (string * option FolderStructure)).

(** [Partial<T>]: a property that the patch does not carry is [None]. *)
Record RequirementPatch := {
  rp_id : option string;
  rp_description : option string
}.

Record EntityPatch := {
  np_id : option string;
  np_name : option string;
  np_fields : option (list Field);
  np_relations : option (list Relation)
}.

Record EndpointPatch := {
  dp_id : option string;
  dp_method : option Method;
  dp_path : option string;
  dp_schema : option json
}.

(** References into the object store. *)
Abbreviation ref := nat (only parsing).

(** A spec as an object graph: its three arrays hold references.  A
    missing array is [None].  [passengers] are the sections the engine
    copies through. *)
Record Spec := {
  requirements : option (list ref);
  entities : option (list ref);
  endpoints : option (list ref);
  folder_structure : FolderStructure;
  passengers : list (string * json)
}.

(** The payload of an add operation is the object the request holds, so
    it is a reference.  [unsupported] is an operation whose [type] is
    outside the closed set (untyped callers only). *)
Inductive ChangeOperation :=
| addRequirement (requirement : ref)
| updateRequirement (requirementId : string) (patch : RequirementPatch)
| removeRequirement (requirementId : string)
| addEntity (entity : ref)
| updateEntity (entityId : string) (patch : EntityPatch)
| removeEntity (entityId : string)
| addEndpoint (endpoint : ref)
| updateEndpoint (endpointId : string) (patch : EndpointPatch)
| removeEndpoint (endpointId : string)
| updateFolderStructure (folder : FolderStructure)
| unsupported (type : option string).

Record ChangeRequest := {
  summary : string;
  operations : option (list ChangeOperation)
}.

Inductive ConflictType := naming | missing_field | circular_relation | validation.

Inductive detail := DStr (s : string) | DMethod (m : Method) | DField (f : Field).

Record ChangeConflict := {
  ctype : ConflictType;
  message : string;
  details : option (list (string * detail))
}.

Record ChangeImpact := {
  description : string;
  affectedEntities : option (list string);
  affectedEndpoints : option (list string);
  affectedFiles : option (list string)
}.

#[global] Instance ConflictType_eq_dec : EqDecision ConflictType.
Proof. solve_decision. Defined.
#[global] Instance Method_eq_dec : EqDecision Method.
Proof. solve_decision. Defined.

#[global] Instance Requirement_inhabited : Inhabited Requirement :=
  populate {| req_id := ""; req_description := "" |}.
#[global] Instance Entity_inhabited : Inhabited Entity :=
  populate {| ent_id := ""; ent_name := ""; fields := []; relations := [] |}.
#[global] Instance Endpoint_inhabited : Inhabited Endpoint :=
  populate {| ep_id := ""; method := GET; path := ""; schema := JNull |}.

(** ** The object store *)

(** One array of objects per kind; a reference is an index.  An index
    past the end names no object; [wf_refs] rules such references out. *)
Record Store := {
  reqs : list Requirement;
  ents : list Entity;
  eps : list Endpoint
}.

Definition wf_refs {A} (h : list A) (l : list ref) : Prop :=
  Forall (λ r, r < length h) l.

Definition wf_opt {A} (h : list A) (o : option (list ref)) : Prop :=
  match o with Some l => wf_refs h l | None => True end.

Definition wf_spec (h : Store) (s : Spec) : Prop :=
  wf_opt (reqs h) (requirements s) ∧
  wf_opt (ents h) (entities s) ∧
  wf_opt (eps h) (endpoints s).

(** The objects an array of references denotes. *)
Definition deref {A} `{Inhabited A} (h : list A) (l : list ref) : list A :=
  map (λ r, h !!! r) l.

(** ** Strings *)

Definition method_string (m : Method) : string :=
  match m with
  | GET => "GET" | POST => "POST" | PUT => "PUT"
  | PATCH => "PATCH" | DELETE => "DELETE"
  end.

(** [String.prototype.includes]. *)
Fixpoint includes (hay needle : string) : bool :=
  String.prefix needle hay ||
  match hay with
  | EmptyString => false
  | String _ rest => includes rest needle
  end.

(** A string is falsy exactly when it is empty. *)
Definition truthy (s : string) : bool := negb (bool_decide (s = "")).

Definition truthy_opt (o : option string) : bool :=
  match o with Some s => truthy s | None => false end.

Definition is_word_char (c : ascii) : bool :=
  let n := nat_of_ascii c in
  (((48 <=? n) && (n <=? 57)) || ((65 <=? n) && (n <=? 90)) ||
   ((97 <=? n) && (n <=? 122)) || (n =? 95))%nat.

Definition underscore : ascii := "_"%char.

Fixpoint drop_underscores (l : list ascii) : list ascii :=
  match l with
  | c :: rest => if bool_decide (c = underscore) then drop_underscores rest else l
  | [] => []
  end.

(** [path.replace(/\//g,'_').replace(/[^a-zA-Z0-9_]/g,'_')
        .replace(/^_+/,'').replace(/_+$/,'') || 'root'] *)
Definition sanitizePath (path : string) : string :=
  let s1 := map (λ c, if bool_decide (c = "/"%char) then underscore else c)
                (list_ascii_of_string path) in
  let s2 := map (λ c, if is_word_char c then c else underscore) s1 in
  let s3 := drop_underscores s2 in
  let s4 := rev (drop_underscores (rev s3)) in
  let out := string_of_list_ascii s4 in
  if truthy out then out else "root".

(** ** The validator *)

(** The two [Set]s and the conflict array of [validateCircularRelations]. *)
Record dfs := {
  visited : gset string;
  stack : gset string;
  found : list ChangeConflict
}.

Definition circular_conflict (entity : Entity) : ChangeConflict :=
  {| ctype := circular_relation;
     message := "Circular relation detected involving " +:+ ent_name entity;
     details := Some [("entityId", DStr (ent_id entity));
                      ("entityName", DStr (ent_name entity))] |}.

(** [entities.find(item => item.name === t || item.id === t)] *)
Definition find_target (entities : list Entity) (t : string) : option Entity :=
  List.find (λ item, bool_decide (ent_name item = t) || bool_decide (ent_id item = t))
            entities.

(** The [for] loop of [visit] over [entity.relations]; [true] is its
    early [return true], [false] means the loop ran to its end. *)
Fixpoint visit_relations (visit : Entity → dfs → option (bool * dfs))
    (entities : list Entity) (rels : list Relation) (st : dfs)
    : option (bool * dfs) :=
  match rels with
  | [] => Some (false, st)
  | relation :: rest =>
      match find_target entities (target relation) with
      | Some targetEntity =>
          match visit targetEntity st with
          | Some (true, st') => Some (true, st')
          | Some (false, st') => visit_relations visit entities rest st'
          | None => None
          end
      | None => visit_relations visit entities rest st
      end
  end.

(** The closure [visit]; [None] when the recursion bound is used up. *)
Fixpoint visit (fuel : nat) (entities : list Entity) (entity : Entity) (st : dfs)
    : option (bool * dfs) :=
  match fuel with
  | 0 => None
  | S fuel' =>
      if decide (ent_id entity ∈ stack st) then
        Some (true, {| visited := visited st; stack := stack st;
                       found := found st ++ [circular_conflict entity] |})
      else if decide (ent_id entity ∈ visited st) then Some (false, st)
      else
        let st1 := {| visited := visited st ∪ {[ent_id entity]};
                      stack := stack st ∪ {[ent_id entity]};
                      found := found st |} in
        match visit_relations (visit fuel' entities) entities (relations entity) st1 with
        | Some (false, st2) =>
            Some (false, {| visited := visited st2;
                            stack := stack st2 ∖ {[ent_id entity]};
                            found := found st2 |})
        | other => other
        end
  end.

(** The final [entities.forEach] of [validateCircularRelations]. *)
Fixpoint visit_all (fuel : nat) (entities todo : list Entity) (st : dfs) : option dfs :=
  match todo with
  | [] => Some st
  | entity :: rest =>
      if decide (ent_id entity ∈ visited st) then visit_all fuel entities rest st
      else
        match visit fuel entities entity st with
        | Some (_, st') => visit_all fuel entities rest st'
        | None => None
        end
  end.

Definition dfs_init : dfs := {| visited := ∅; stack := ∅; found := [] |}.

(** [validateCircularRelations] (lines 2257-2300).  [entityMap] of the
    source is filled and never read, so it is left out.  Every descent of
    [visit] marks an unvisited id, so its depth is at most the number of
    entities plus one. *)
Definition validateCircularRelations (entities : list Entity)
    : result (list ChangeConflict) :=
  match visit_all (S (length entities)) entities entities dfs_init with
  | Some st => Ok (found st)
  | None => OutOfFuel
  end.

Definition duplicate_entity_conflict (entity : Entity) : ChangeConflict :=
  {| ctype := naming;
     message := "Duplicate entity name detected: " +:+ ent_name entity;
     details := Some [("entityName", DStr (ent_name entity))] |}.

Definition invalid_field_conflict (entity : Entity) (field : Field) : ChangeConflict :=
  {| ctype := missing_field;
     message := "Entity " +:+ ent_name entity +:+ " has an invalid field definition";
     details := Some [("entityName", DStr (ent_name entity)); ("field", DField field)] |}.

(** [entity.fields.forEach(...)] *)
Definition field_conflicts (entity : Entity) : list ChangeConflict :=
  flat_map (λ field,
      if negb (truthy (fld_name field)) || negb (truthy (fld_type field))
      then [invalid_field_conflict entity field] else [])
    (fields entity).

(** The first loop of [validateSpec]; [seen] is [entityNames]. *)
Fixpoint check_entities (seen : gset string) (es : list Entity) : list ChangeConflict :=
  match es with
  | [] => []
  | entity :: rest =>
      if decide (ent_name entity ∈ seen) then
        duplicate_entity_conflict entity :: field_conflicts entity
          ++ check_entities seen rest
      else
        field_conflicts entity ++ check_entities (seen ∪ {[ent_name entity]}) rest
  end.

Definition signature (endpoint : Endpoint) : string :=
  method_string (method endpoint) +:+ ":" +:+ path endpoint.

Definition duplicate_endpoint_conflict (endpoint : Endpoint) : ChangeConflict :=
  {| ctype := naming;
     message := "Duplicate endpoint detected: " +:+ method_string (method endpoint)
                +:+ " " +:+ path endpoint;
     details := Some [("method", DMethod (method endpoint));
                      ("path", DStr (path endpoint))] |}.

(** The second loop of [validateSpec]; [seen] is [endpointSignatures]. *)
Fixpoint check_endpoints (seen : gset string) (ps : list Endpoint) : list ChangeConflict :=
  match ps with
  | [] => []
  | endpoint :: rest =>
      if decide (signature endpoint ∈ seen) then
        duplicate_endpoint_conflict endpoint :: check_endpoints seen rest
      else check_endpoints (seen ∪ {[signature endpoint]}) rest
  end.

(** [validateSpec] (lines 2212-2255).  [for (... of spec.entities)] and
    [for (... of spec.endpoints)] throw on a missing array. *)
Definition validateSpec (h : Store) (spec : Spec) : result (list ChangeConflict) :=
  match entities spec with
  | None => Throw TypeError
  | Some es =>
      let entity_conflicts := check_entities ∅ (deref (ents h) es) in
      match endpoints spec with
      | None => Throw TypeError
      | Some ps =>
          let endpoint_conflicts := check_endpoints ∅ (deref (eps h) ps) in
          circular ← validateCircularRelations (deref (ents h) es);
          Ok (entity_conflicts ++ endpoint_conflicts ++ circular)
      end
  end.

(** ** The change applier *)

(** What [applyChangeRequestToSpec] returns, together with the object
    store the references of [spec] point into.  The same record is the
    state of its loop: [spec] is [workingSpec]. *)
Record ApplyResult := {
  heap : Store;
  spec : Spec;
  conflicts : list ChangeConflict;
  impacts : list ChangeImpact
}.

Definition with_requirements (s : Spec) (l : option (list ref)) : Spec :=
  {| requirements := l; entities := entities s; endpoints := endpoints s;
     folder_structure := folder_structure s; passengers := passengers s |}.

Definition with_entities (s : Spec) (l : option (list ref)) : Spec :=
  {| requirements := requirements s; entities := l; endpoints := endpoints s;
     folder_structure := folder_structure s; passengers := passengers s |}.

Definition with_endpoints (s : Spec) (l : option (list ref)) : Spec :=
  {| requirements := requirements s; entities := entities s; endpoints := l;
     folder_structure := folder_structure s; passengers := passengers s |}.

Definition with_folder (s : Spec) (f : FolderStructure) : Spec :=
  {| requirements := requirements s; entities := entities s;
     endpoints := endpoints s; folder_structure := f;
     passengers := passengers s |}.

Definition with_reqs (h : Store) (l : list Requirement) : Store :=
  {| reqs := l; ents := ents h; eps := eps h |}.

Definition with_ents (h : Store) (l : list Entity) : Store :=
  {| reqs := reqs h; ents := l; eps := eps h |}.

Definition with_eps (h : Store) (l : list Endpoint) : Store :=
  {| reqs := reqs h; ents := ents h; eps := l |}.

(** Every case of the [switch] ends by pushing one conflict or one
    impact. *)
Inductive outcome :=
| Conflict (c : ChangeConflict)
| Impact (i : ChangeImpact).

(** [Object.assign(target, patch)] *)
Definition assign_requirement (r : Requirement) (p : RequirementPatch) : Requirement :=
  {| req_id := default (req_id r) (rp_id p);
     req_description := default (req_description r) (rp_description p) |}.

Definition assign_entity (e : Entity) (p : EntityPatch) : Entity :=
  {| ent_id := default (ent_id e) (np_id p);
     ent_name := default (ent_name e) (np_name p);
     fields := default (fields e) (np_fields p);
     relations := default (relations e) (np_relations p) |}.

Definition assign_endpoint (e : Endpoint) (p : EndpointPatch) : Endpoint :=
  {| ep_id := default (ep_id e) (dp_id p);
     method := default (method e) (dp_method p);
     path := default (path e) (dp_path p);
     schema := default (schema e) (dp_schema p) |}.

(** [JSON.parse(JSON.stringify(currentSpec))]: every object of the three
    arrays is copied to a new object; values are JSON data and survive
    the round trip; a missing array stays missing. *)
Definition copy_array {A} `{Inhabited A} (h : list A) (o : option (list ref))
    : list A * option (list ref) :=
  match o with
  | None => (h, None)
  | Some l => (h ++ deref h l, Some (seq (length h) (length l)))
  end.

Definition deep_copy (h : Store) (s : Spec) : Store * Spec :=
  let '(rs, r) := copy_array (reqs h) (requirements s) in
  let '(ns, n) := copy_array (ents h) (entities s) in
  let '(ps, p) := copy_array (eps h) (endpoints s) in
  ({| reqs := rs; ents := ns; eps := ps |},
   {| requirements := r; entities := n; endpoints := p;
      folder_structure := folder_structure s; passengers := passengers s |}).

Definition requirements_file : option (list string) := Some ["docs/requirements.md"].

Definition endpoint_label (e : Endpoint) : string :=
  method_string (method e) +:+ " " +:+ path e.

(** One iteration of the loop of [applyChangeRequestToSpec]: the
    [switch] on [operation.type] (code-generator.ts, lines 2011-2204).
    The result is the store and the working spec after the iteration and
    what it pushed. *)
Definition applyOperation (h : Store) (workingSpec : Spec)
    (operation : ChangeOperation) : result (Store * Spec * outcome) :=
  match operation with
  | addRequirement r =>
      rs ← from_option Ok (Throw TypeError) (requirements workingSpec);
      let requirement := reqs h !!! r in
      if existsb (λ x, bool_decide (req_id (reqs h !!! x) = req_id requirement)) rs then
        Ok (h, workingSpec, Conflict
          {| ctype := naming;
             message := "Requirement with id " +:+ req_id requirement +:+ " already exists";
             details := Some [("requirementId", DStr (req_id requirement))] |})
      else
        Ok (h, with_requirements workingSpec (Some (rs ++ [r])), Impact
          {| description := "Requirement added"; affectedEntities := None;
             affectedEndpoints := None; affectedFiles := requirements_file |})
  | updateRequirement requirementId patch =>
      rs ← from_option Ok (Throw TypeError) (requirements workingSpec);
      match List.find (λ x, bool_decide (req_id (reqs h !!! x) = requirementId)) rs with
      | None =>
          Ok (h, workingSpec, Conflict
            {| ctype := missing_field;
               message := "Requirement " +:+ requirementId +:+ " not found";
               details := Some [("requirementId", DStr requirementId)] |})
      | Some x =>
          Ok (with_reqs h (<[x := assign_requirement (reqs h !!! x) patch]> (reqs h)),
              workingSpec, Impact
            {| description := "Requirement updated"; affectedEntities := None;
               affectedEndpoints := None; affectedFiles := requirements_file |})
      end
  | removeRequirement requirementId =>
      rs ← from_option Ok (Throw TypeError) (requirements workingSpec);
      let initialLength := length rs in
      let kept := List.filter
        (λ x, negb (bool_decide (req_id (reqs h !!! x) = requirementId))) rs in
      if initialLength =? length kept then
        Ok (h, with_requirements workingSpec (Some kept), Conflict
          {| ctype := missing_field;
             message := "Requirement " +:+ requirementId +:+ " not found for removal";
             details := Some [("requirementId", DStr requirementId)] |})
      else
        Ok (h, with_requirements workingSpec (Some kept), Impact
          {| description := "Requirement removed"; affectedEntities := None;
             affectedEndpoints := None; affectedFiles := requirements_file |})
  | addEntity r =>
      es ← from_option Ok (Throw TypeError) (entities workingSpec);
      let entity := ents h !!! r in
      if existsb (λ x, bool_decide (ent_name (ents h !!! x) = ent_name entity)) es then
        Ok (h, workingSpec, Conflict
          {| ctype := naming;
             message := "Entity with name " +:+ ent_name entity +:+ " already exists";
             details := Some [("entityName", DStr (ent_name entity))] |})
      else
        Ok (h, with_entities workingSpec (Some (es ++ [r])), Impact
          {| description := "Entity " +:+ ent_name entity +:+ " added";
             affectedEntities := Some [ent_name entity];
             affectedEndpoints := None;
             affectedFiles := Some ["prisma/schema.prisma";
               "src/entities/" +:+ ent_name entity +:+ ".ts"] |})
  | updateEntity entityId patch =>
      es ← from_option Ok (Throw TypeError) (entities workingSpec);
      match List.find (λ x, bool_decide (ent_id (ents h !!! x) = entityId)) es with
      | None =>
          Ok (h, workingSpec, Conflict
            {| ctype := missing_field;
               message := "Entity " +:+ entityId +:+ " not found";
               details := Some [("entityId", DStr entityId)] |})
      | Some x =>
          if truthy_opt (np_name patch) &&
             existsb (λ o, negb (bool_decide (ent_id (ents h !!! o) = entityId)) &&
                           bool_decide (Some (ent_name (ents h !!! o)) = np_name patch)) es
          then
            Ok (h, workingSpec, Conflict
              {| ctype := naming;
                 message := "Entity name " +:+ default "" (np_name patch)
                            +:+ " already in use";
                 details := Some [("entityId", DStr entityId);
                                  ("newName", DStr (default "" (np_name patch)))] |})
          else
            let entity := assign_entity (ents h !!! x) patch in
            Ok (with_ents h (<[x := entity]> (ents h)), workingSpec, Impact
              {| description := "Entity " +:+ ent_name entity +:+ " updated";
                 affectedEntities := Some [ent_name entity];
                 affectedEndpoints := None;
                 affectedFiles := Some ["prisma/schema.prisma";
                   "src/entities/" +:+ ent_name entity +:+ ".ts"] |})
      end
  | removeEntity entityId =>
      es ← from_option Ok (Throw TypeError) (entities workingSpec);
      match List.find (λ x, bool_decide (ent_id (ents h !!! x) = entityId)) es with
      | None =>
          Ok (h, workingSpec, Conflict
            {| ctype := missing_field;
               message := "Entity " +:+ entityId +:+ " not found for removal";
               details := Some [("entityId", DStr entityId)] |})
      | Some x =>
          let entity := ents h !!! x in
          let kept := List.filter
            (λ o, negb (bool_decide (ent_id (ents h !!! o) = entityId))) es in
          Ok (h, with_entities workingSpec (Some kept), Impact
            {| description := "Entity " +:+ ent_name entity +:+ " removed";
               affectedEntities := Some [ent_name entity];
               affectedEndpoints := None;
               affectedFiles := Some ["prisma/schema.prisma"] |})
      end
  | addEndpoint r =>
      ps ← from_option Ok (Throw TypeError) (endpoints workingSpec);
      let endpoint := eps h !!! r in
      if existsb (λ x, bool_decide (path (eps h !!! x) = path endpoint) &&
                       bool_decide (method (eps h !!! x) = method endpoint)) ps then
        Ok (h, workingSpec, Conflict
          {| ctype := naming;
             message := "Endpoint " +:+ endpoint_label endpoint +:+ " already exists";
             details := Some [("method", DMethod (method endpoint));
                              ("path", DStr (path endpoint))] |})
      else
        Ok (h, with_endpoints workingSpec (Some (ps ++ [r])), Impact
          {| description := "Endpoint " +:+ endpoint_label endpoint +:+ " added";
             affectedEntities := None;
             affectedEndpoints := Some [endpoint_label endpoint];
             affectedFiles := Some ["openapi.json";
               "src/routes/" +:+ sanitizePath (path endpoint) +:+ ".ts"] |})
  | updateEndpoint endpointId patch =>
      ps ← from_option Ok (Throw TypeError) (endpoints workingSpec);
      match List.find (λ x, bool_decide (ep_id (eps h !!! x) = endpointId)) ps with
      | None =>
          Ok (h, workingSpec, Conflict
            {| ctype := missing_field;
               message := "Endpoint " +:+ endpointId +:+ " not found";
               details := Some [("endpointId", DStr endpointId)] |})
      | Some x =>
          let newPath := default (path (eps h !!! x)) (dp_path patch) in
          let newMethod := default (method (eps h !!! x)) (dp_method patch) in
          if (truthy_opt (dp_path patch) || bool_decide (is_Some (dp_method patch))) &&
             existsb (λ o, negb (bool_decide (ep_id (eps h !!! o) = endpointId)) &&
                           bool_decide (path (eps h !!! o) = newPath) &&
                           bool_decide (method (eps h !!! o) = newMethod)) ps
          then
            Ok (h, workingSpec, Conflict
              {| ctype := naming;
                 message := "Endpoint " +:+ method_string newMethod +:+ " " +:+ newPath
                            +:+ " already exists";
                 details := Some [("endpointId", DStr endpointId);
                                  ("path", DStr newPath);
                                  ("method", DMethod newMethod)] |})
          else
            let endpoint := assign_endpoint (eps h !!! x) patch in
            Ok (with_eps h (<[x := endpoint]> (eps h)), workingSpec, Impact
              {| description := "Endpoint " +:+ endpoint_label endpoint +:+ " updated";
                 affectedEntities := None;
                 affectedEndpoints := Some [endpoint_label endpoint];
                 affectedFiles := Some ["openapi.json";
                   "src/routes/" +:+ sanitizePath (path endpoint) +:+ ".ts"] |})
      end
  | removeEndpoint endpointId =>
      ps ← from_option Ok (Throw TypeError) (endpoints workingSpec);
      match List.find (λ x, bool_decide (ep_id (eps h !!! x) = endpointId)) ps with
      | None =>
          Ok (h, workingSpec, Conflict
            {| ctype := missing_field;
               message := "Endpoint " +:+ endpointId +:+ " not found for removal";
               details := Some [("endpointId", DStr endpointId)] |})
      | Some x =>
          let endpoint := eps h !!! x in
          let kept := List.filter
            (λ o, negb (bool_decide (ep_id (eps h !!! o) = endpointId))) ps in
          Ok (h, with_endpoints workingSpec (Some kept), Impact
            {| description := "Endpoint " +:+ endpoint_label endpoint +:+ " removed";
               affectedEntities := None;
               affectedEndpoints := Some [endpoint_label endpoint];
               affectedFiles := Some ["openapi.json"] |})
      end
  | updateFolderStructure folder =>
      Ok (h, with_folder workingSpec folder, Impact
        {| description := "Folder structure updated"; affectedEntities := None;
           affectedEndpoints := None; affectedFiles := Some ["scaffolding"] |})
  | unsupported type =>
      Ok (h, workingSpec, Conflict
        {| ctype := validation;
           message := "Unsupported operation " +:+ default "unknown" type;
           details := None |})
  end.

(** The state of the loop after one iteration. *)
Definition record (σ : ApplyResult) (r : Store * Spec * outcome) : ApplyResult :=
  match r with
  | (h, s, Conflict c) =>
      {| heap := h; spec := s; conflicts := conflicts σ ++ [c];
         impacts := impacts σ |}
  | (h, s, Impact i) =>
      {| heap := h; spec := s; conflicts := conflicts σ;
         impacts := impacts σ ++ [i] |}
  end.

(** [for (const operation of changeRequest.operations)] *)
Fixpoint applyOperations (σ : ApplyResult) (ops : list ChangeOperation)
    : result ApplyResult :=
  match ops with
  | [] => Ok σ
  | operation :: rest =>
      r ← applyOperation (heap σ) (spec σ) operation;
      applyOperations (record σ r) rest
  end.

(** [applyChangeRequestToSpec] (lines 2005-2210): copy, run the
    operations in array order, then append the validator's findings. *)
Definition applyChangeRequestToSpec (h : Store) (currentSpec : Spec)
    (changeRequest : ChangeRequest) : result ApplyResult :=
  let '(h1, workingSpec) := deep_copy h currentSpec in
  ops ← from_option Ok (Throw TypeError) (operations changeRequest);
  σ ← applyOperations
        {| heap := h1; spec := workingSpec; conflicts := []; impacts := [] |} ops;
  checks ← validateSpec (heap σ) (spec σ);
  Ok {| heap := heap σ; spec := spec σ; conflicts := conflicts σ ++ checks;
        impacts := impacts σ |}.

(** ** The impact summary *)

(** The part of [ChangePreview] the summary reads; [diff] is produced by
    an external library and is left out. *)
Record ChangePreview := {
  currentSpec : Spec;
  proposedSpec : Spec;
  preview_conflicts : list ChangeConflict;
  preview_impacts : list ChangeImpact
}.

Record ImpactSummary := {
  totalChanges : nat;
  modifiedEntities : nat;
  modifiedEndpoints : nat;
  modifiedFiles : nat;
  newEntities : list string;
  newEndpoints : list string;
  removedEntities : list string;
  removedEndpoints : list string;
  hasConflicts : bool;
  conflictCount : nat
}.

(** The seven locals of [generateImpactSummary]. *)
Record tally := {
  t_entities : gset string;
  t_endpoints : gset string;
  t_files : gset string;
  t_newEntities : list string;
  t_newEndpoints : list string;
  t_removedEntities : list string;
  t_removedEndpoints : list string
}.

(** [(names ?? []).forEach((x) => set.add(x))] *)
Definition add_all (names : option (list string)) (set : gset string) : gset string :=
  foldl (λ acc x, acc ∪ {[x]}) set (default [] names).

(** [if (names) array.push(...names)] *)
Definition push_all (names : option (list string)) (array : list string) : list string :=
  match names with
  | Some ns => array ++ ns
  | None => array
  end.

Definition tally_impact (t : tally) (impact : ChangeImpact) : tally :=
  let added := includes (description impact) "added" in
  let removed := includes (description impact) "removed" in
  {| t_entities := add_all (affectedEntities impact) (t_entities t);
     t_endpoints := add_all (affectedEndpoints impact) (t_endpoints t);
     t_files := add_all (affectedFiles impact) (t_files t);
     t_newEntities :=
       if added then push_all (affectedEntities impact) (t_newEntities t)
       else t_newEntities t;
     t_newEndpoints :=
       if added then push_all (affectedEndpoints impact) (t_newEndpoints t)
       else t_newEndpoints t;
     t_removedEntities :=
       if removed then push_all (affectedEntities impact) (t_removedEntities t)
       else t_removedEntities t;
     t_removedEndpoints :=
       if removed then push_all (affectedEndpoints impact) (t_removedEndpoints t)
       else t_removedEndpoints t |}.

Definition tally_init : tally :=
  {| t_entities := ∅; t_endpoints := ∅; t_files := ∅; t_newEntities := [];
     t_newEndpoints := []; t_removedEntities := []; t_removedEndpoints := [] |}.

(** [generateImpactSummary] (lines 2331-2367). *)
Definition generateImpactSummary (preview : ChangePreview) : ImpactSummary :=
  let t := foldl tally_impact tally_init (preview_impacts preview) in
  {| totalChanges := length (preview_impacts preview);
     modifiedEntities := size (t_entities t);
     modifiedEndpoints := size (t_endpoints t);
     modifiedFiles := size (t_files t);
     newEntities := t_newEntities t;
     newEndpoints := t_newEndpoints t;
     removedEntities := t_removedEntities t;
     removedEndpoints := t_removedEndpoints t;
     hasConflicts := 0 <? length (preview_conflicts preview);
     conflictCount := length (preview_conflicts preview) |}.

(** The names an optional array contributes. *)
Definition names_of (o : option (list string)) : list string := default [] o.

(** ** Vocabulary of the properties *)

(** Short forms for values. *)
Definition entity (i n : string) (targets : list string) : Entity :=
  {| ent_id := i; ent_name := n; fields := [];
     relations := map (λ t, {| target := t; rel_type := many_to_one |}) targets |}.

Definition rename_to (n : string) : EntityPatch :=
  {| np_id := None; np_name := Some n; np_fields := None; np_relations := None |}.

Definition endpoint_of (i : string) (m : Method) (p : string) : Endpoint :=
  {| ep_id := i; method := m; path := p; schema := JNull |}.

Definition path_patch (p : string) : EndpointPatch :=
  {| dp_id := None; dp_method := None; dp_path := Some p; dp_schema := None |}.

Definition method_patch (m : Method) : EndpointPatch :=
  {| dp_id := None; dp_method := Some m; dp_path := None; dp_schema := None |}.

Definition ids (entities : list Entity) : gset string :=
  list_to_set (map ent_id entities).

(** The ids no call of [visit] has marked yet. *)
Definition unvisited (entities : list Entity) (st : dfs) : nat :=
  size (ids entities ∖ visited st).

(** The operations of a request that report no conflict, each judged in
    the state the loop has reached when it runs. *)
Fixpoint surviving (h : Store) (s : Spec) (ops : list ChangeOperation)
    : list ChangeOperation :=
  match ops with
  | [] => []
  | op :: rest =>
      match applyOperation h s op with
      | Ok (h', s', Conflict _) => surviving h' s' rest
      | Ok (h', s', Impact _) => op :: surviving h' s' rest
      | _ => []
      end
  end.

(** What a call of [visit] adds to the conflicts: one circular-relation
    conflict when it returns [true], nothing when it returns [false]. *)
Definition found_after (b : bool) (st st' : dfs) : Prop :=
  if b then ∃ x, found st' = found st ++ [circular_conflict x]
  else found st' = found st.


(** The payload of an addition is an object of the store. *)
Definition payload_in (h : Store) (op : ChangeOperation) : Prop :=
  match op with
  | addRequirement r => r < length (reqs h)
  | addEntity r => r < length (ents h)
  | addEndpoint r => r < length (eps h)
  | _ => True
  end.



(** [e] has a relation that [find_target] resolves. *)
Definition has_edge_out (entities : list Entity) (e : Entity) : Prop :=
  ∃ r, r ∈ relations e ∧ is_Some (find_target entities (target r)).

(** The relation graph of the specification: [X] has an edge to [Y] for
    every relation of [X] whose target is the id or the name of [Y]. *)
Definition points_to (X Y : Entity) : Prop :=
  ∃ r, r ∈ relations X ∧ (target r = ent_id Y ∨ target r = ent_name Y).

(** The value of a spec: what a deep comparison of the object sees. *)
Record SpecValue := {
  requirements_of : option (list Requirement);
  entities_of : option (list Entity);
  endpoints_of : option (list Endpoint);
  folder_of : FolderStructure;
  passengers_of : list (string * json)
}.

Definition view {A} `{Inhabited A} (h : list A) (o : option (list ref))
    : option (list A) :=
  deref h <$> o.

Definition snapshot (h : Store) (s : Spec) : SpecValue :=
  {| requirements_of := view (reqs h) (requirements s);
     entities_of := view (ents h) (entities s);
     endpoints_of := view (eps h) (endpoints s);
     folder_of := folder_structure s;
     passengers_of := passengers s |}.

Definition refs_of (o : option (list ref)) : list ref := default [] o.

(** The working spec holds no object of the current spec. *)
Definition apart (cur w : Spec) : Prop :=
  (∀ r, r ∈ refs_of (requirements w) → r ∉ refs_of (requirements cur)) ∧
  (∀ r, r ∈ refs_of (entities w) → r ∉ refs_of (entities cur)) ∧
  (∀ r, r ∈ refs_of (endpoints w) → r ∉ refs_of (endpoints cur)).

(** The objects of the current spec are the same in both stores. *)
Definition same_objects (cur : Spec) (h h' : Store) : Prop :=
  (∀ r, r ∈ refs_of (requirements cur) → reqs h' !!! r = reqs h !!! r) ∧
  (∀ r, r ∈ refs_of (entities cur) → ents h' !!! r = ents h !!! r) ∧
  (∀ r, r ∈ refs_of (endpoints cur) → eps h' !!! r = eps h !!! r).

(** The payload of an add operation is not an object of the current spec. *)
Definition shares_no_object (cur : Spec) (op : ChangeOperation) : Prop :=
  match op with
  | addRequirement r => r ∉ refs_of (requirements cur)
  | addEntity r => r ∉ refs_of (entities cur)
  | addEndpoint r => r ∉ refs_of (endpoints cur)
  | _ => True
  end.

(** Two entities the cycle check cannot tell apart, names aside. *)
Definition alike (e e' : Entity) : Prop :=
  ent_id e' = ent_id e ∧ relations e' = relations e.

Definition same_marks (st st' : dfs) : Prop :=
  visited st = visited st' ∧ stack st = stack st'.

(** [e] after [Object.assign(e, {name: n})]. *)
Definition renamed (e : Entity) (n : string) : Entity :=
  assign_entity e (rename_to n).

(** ** Example inputs *)

Definition empty_store : Store := {| reqs := []; ents := []; eps := [] |}.

(** A spec object without an [entities] property. *)
Definition spec_without_entities : Spec :=
  {| requirements := Some []; entities := None; endpoints := Some [];
     folder_structure := Folder []; passengers := [] |}.


(** A chain A→B→C in which A and C carry the same id. *)
Definition chain_A : Entity := entity "1" "A" ["B"].

Definition chain_B : Entity := entity "2" "B" ["C"].

Definition chain_C : Entity := entity "1" "C" [].

Definition chain_store : Store :=
  {| reqs := []; ents := [chain_A; chain_B; chain_C]; eps := [] |}.

Definition chain_spec : Spec :=
  {| requirements := Some []; entities := Some [0; 1; 2]; endpoints := Some [];
     folder_structure := Folder []; passengers := [] |}.

(** An entity the request and the current spec both hold. *)
Definition shared_store : Store :=
  {| reqs := []; ents := [entity "e1" "A" []]; eps := [] |}.

Definition shared_spec : Spec :=
  {| requirements := Some []; entities := Some [0]; endpoints := Some [];
     folder_structure := Folder []; passengers := [] |}.

(** The request removes the entity, adds the very object the current
    spec holds, and renames it. *)
Definition shared_request : ChangeRequest :=
  {| summary := "re-add and rename";
     operations := Some [removeEntity "e1"; addEntity 0;
                         updateEntity "e1" (rename_to "B")] |}.

Definition endpoints_spec : Spec :=
  {| requirements := Some []; entities := Some []; endpoints := Some [0; 1];
     folder_structure := Folder []; passengers := [] |}.

(** Endpoint [b] is moved onto the empty path that [a] already has. *)
Definition empty_path_store : Store :=
  {| reqs := []; ents := [];
     eps := [endpoint_of "a" GET ""; endpoint_of "b" GET "/x"] |}.

Definition empty_path_request : ChangeRequest :=
  {| summary := "move b"; operations := Some [updateEndpoint "b" (path_patch "")] |}.

(** Two endpoints carry the id [a]; the first is moved onto the second. *)
Definition shared_id_store : Store :=
  {| reqs := []; ents := [];
     eps := [endpoint_of "a" GET "/x"; endpoint_of "a" GET "/y"] |}.

Definition shared_id_request : ChangeRequest :=
  {| summary := "move a"; operations := Some [updateEndpoint "a" (path_patch "/y")] |}.

Definition two_names_store : Store :=
  {| reqs := []; ents := [entity "1" "" []; entity "2" "B" []]; eps := [] |}.

Definition self_target_store : Store :=
  {| reqs := []; ents := [entity "1" "A" [""]]; eps := [] |}.

Definition two_ids_store : Store :=
  {| reqs := []; ents := [entity "1" "F" []; entity "1" "E" []]; eps := [] |}.

(** The second entity has the first one's name as its id and targets it. *)
Definition name_as_id_store : Store :=
  {| reqs := []; ents := [entity "1" "N" []; entity "N" "F" ["N"]]; eps := [] |}.

Definition two_entities_spec : Spec :=
  {| requirements := Some []; entities := Some [0; 1]; endpoints := Some [];
     folder_structure := Folder []; passengers := [] |}.

Definition unname (i : string) : ChangeRequest :=
  {| summary := "unname"; operations := Some [updateEntity i (rename_to "")] |}.

Definition user_store : Store :=
  {| reqs := [];
     ents := [entity "u1" "User" []; entity "u2" "User" []; entity "o1" "Order" []];
     eps := [endpoint_of "p1" GET "/users"; endpoint_of "p2" POST "/users"] |}.

Definition user_spec : Spec :=
  {| requirements := Some []; entities := Some [0]; endpoints := Some [0; 1];
     folder_structure := Folder []; passengers := [] |}.

(** A second "User" (rejected), then an "Order" (accepted). *)
Definition two_adds : ChangeRequest :=
  {| summary := "two entities"; operations := Some [addEntity 1; addEntity 2] |}.

Definition one_add : ChangeRequest :=
  {| summary := "second user"; operations := Some [addEntity 1] |}.

Definition add_and_update : ChangeRequest :=
  {| summary := "order, then rename";
     operations := Some [addEntity 2; updateEntity "o1" (rename_to "Purchase")] |}.

Definition rename_user : ChangeRequest :=
  {| summary := "rename"; operations := Some [updateEntity "u1" (rename_to "Member")] |}.

(** A→B→C→A, the last relation by id; and A→B→C. *)
Definition cycle_store : Store :=
  {| reqs := [];
     ents := [entity "a" "A" ["B"]; entity "b" "B" ["C"]; entity "c" "C" ["a"]];
     eps := [] |}.

Definition open_chain_store : Store :=
  {| reqs := [];
     ents := [entity "a" "A" ["B"]; entity "b" "B" ["C"]; entity "c" "C" []];
     eps := [] |}.

Definition foo_added : ChangeImpact :=
  {| description := "Entity Foo added"; affectedEntities := Some ["Foo"];
     affectedEndpoints := None; affectedFiles := Some ["prisma/schema.prisma"] |}.

Definition foo_removed : ChangeImpact :=
  {| description := "Entity Foo removed"; affectedEntities := Some ["Foo"];
     affectedEndpoints := None; affectedFiles := Some ["prisma/schema.prisma"] |}.

Definition foo_preview : ChangePreview :=
  {| currentSpec := user_spec; proposedSpec := user_spec; preview_conflicts := [];
     preview_impacts := [foo_added; foo_removed] |}.

(** ** The rest of the update engine *)

(** [set.add(x)] on a [Set] kept in insertion order. *)
Definition set_add (set : list string) (x : string) : list string :=
  if decide (x ∈ set) then set else set ++ [x].

(** [collectImpactedFiles] (lines 2310-2316): [Array.from] of the [Set]
    of all affected files lists them in the order of their first
    insertion. *)
Definition collectImpactedFiles (preview : ChangePreview) : list string :=
  foldl (λ files impact, foldl set_add files (names_of (affectedFiles impact)))
        [] (preview_impacts preview).

(** [computeChangePreview] (lines 1992-2003).  The [diff] is left out, as
    in [ChangePreview]; the store after the call comes with the preview. *)
Definition computeChangePreview (h : Store) (currentSpec : Spec)
    (changeRequest : ChangeRequest) : result (Store * ChangePreview) :=
  res ← applyChangeRequestToSpec h currentSpec changeRequest;
  Ok (heap res,
      {| currentSpec := currentSpec; proposedSpec := spec res;
         preview_conflicts := conflicts res; preview_impacts := impacts res |}).

(** ** The validation engine *)

(** [String.prototype.toLowerCase] on a string of 8-bit code units: the
    letters A-Z and the capital letters of Latin-1 move up by 32. *)
Definition lower_unit (c : ascii) : ascii :=
  let n := nat_of_ascii c in
  if ((65 <=? n) && (n <=? 90)) ||
     ((192 <=? n) && (n <=? 222) && negb (n =? 215))
  then ascii_of_nat (n + 32) else c.

Definition toLowerCase (s : string) : string :=
  string_of_list_ascii (map lower_unit (list_ascii_of_string s)).

(** [Array.prototype.join] *)
Fixpoint join (sep : string) (l : list string) : string :=
  match l with
  | [] => ""
  | [x] => x
  | x :: rest => x +:+ sep +:+ join sep rest
  end.

Inductive WarningCategory := convention | best_practice | performance | security.

(** [ValidationWarning]; its [type] is always ['warning'] and is left
    out. *)
Record ValidationWarning := {
  w_category : WarningCategory;
  w_message : string;
  w_entityId : option string;
  w_endpointId : option string;
  w_suggestion : option string
}.

(** [spec.endpoints.some(e => ...)] *)
Definition some_endpoint (h : Store) (ps : list ref) (test : Endpoint → bool) : bool :=
  existsb (λ x, test (eps h !!! x)) ps.

(** [checkMissingCRUDEndpoints] of the validation engine (lines
    435-484).  An endpoint counts for an entity when its path contains
    ["/" + name + "s"] or ["/" + name], the name in lower case. *)
Definition checkMissingCRUDEndpoints (h : Store) (spec : Spec) : list ValidationWarning :=
  match entities spec, endpoints spec with
  | Some es, Some ps =>
      if length es =? 0 then [] else
      flat_map (λ x,
        let entity := ents h !!! x in
        if negb (truthy (ent_name entity)) then [] else
        let entityPath := "/" +:+ toLowerCase (ent_name entity) +:+ "s" in
        let entityPathSingular := "/" +:+ toLowerCase (ent_name entity) in
        let reaches_entity e :=
          includes (path e) entityPath || includes (path e) entityPathSingular in
        let hasCreate := some_endpoint h ps (λ e,
          truthy (path e) && bool_decide (method e = POST) && reaches_entity e) in
        let hasRead := some_endpoint h ps (λ e,
          truthy (path e) && bool_decide (method e = GET) && reaches_entity e) in
        let hasUpdate := some_endpoint h ps (λ e,
          truthy (path e) &&
          (bool_decide (method e = PUT) || bool_decide (method e = PATCH)) &&
          reaches_entity e) in
        let hasDelete := some_endpoint h ps (λ e,
          truthy (path e) && bool_decide (method e = DELETE) && reaches_entity e) in
        let missingOperations :=
          (if hasCreate then [] else ["CREATE"]) ++
          (if hasRead then [] else ["READ"]) ++
          (if hasUpdate then [] else ["UPDATE"]) ++
          (if hasDelete then [] else ["DELETE"]) in
        if 0 <? length missingOperations then
          [{| w_category := best_practice;
              w_message := "Entity " +:+ ent_name entity
                +:+ " is missing CRUD endpoints: " +:+ join ", " missingOperations;
              w_entityId := Some (ent_id entity);
              w_endpointId := None;
              w_suggestion := Some ("Consider adding " +:+ join ", " missingOperations
                +:+ " endpoints for " +:+ ent_name entity) |}]
        else []) es
  | _, _ => []
  end.

Definition object_schema : json :=
  JObj [("type", JStr "object"); ("properties", JObj [])].

(** The endpoints [generateCRUDOperations] finds missing for an entity,
    in the order it pushes them.  The generated objects carry a
    [description] beyond the [Endpoint] interface; the engine never reads
    it and it is left out. *)
Definition crud_endpoints (h : Store) (entity : Entity) (ps : list ref) : list Endpoint :=
  let entityPath := "/" +:+ toLowerCase (ent_name entity) +:+ "s" in
  let entityPathWithId := entityPath +:+ "/:id" in
  let hasCreate := some_endpoint h ps (λ e,
    bool_decide (method e = POST) && includes (path e) entityPath) in
  let hasRead := some_endpoint h ps (λ e,
    bool_decide (method e = GET) && includes (path e) entityPath) in
  let hasUpdate := some_endpoint h ps (λ e,
    (bool_decide (method e = PUT) || bool_decide (method e = PATCH)) &&
    includes (path e) entityPathWithId) in
  let hasDelete := some_endpoint h ps (λ e,
    bool_decide (method e = DELETE) && includes (path e) entityPathWithId) in
  (if hasCreate then [] else
     [{| ep_id := "create-" +:+ ent_id entity; method := POST; path := entityPath;
         schema := JObj [("request", object_schema); ("response", object_schema)] |}]) ++
  (if hasRead then [] else
     [{| ep_id := "list-" +:+ ent_id entity; method := GET; path := entityPath;
         schema := JObj [("response", JObj [("type", JStr "array");
                                            ("items", JObj [])])] |}]) ++
  (if hasUpdate then [] else
     [{| ep_id := "update-" +:+ ent_id entity; method := PATCH;
         path := entityPathWithId;
         schema := JObj [("request", object_schema); ("response", object_schema)] |}]) ++
  (if hasDelete then [] else
     [{| ep_id := "delete-" +:+ ent_id entity; method := DELETE;
         path := entityPathWithId;
         schema := JObj [("response",
                     JObj [("type", JStr "object");
                           ("properties",
                            JObj [("success", JObj [("type", JStr "boolean")])])])] |}]).

(** [generateCRUDOperations] (lines 550-626): one [addEndpoint]
    operation for each missing endpoint; the new objects are allocated at
    the end of the store.  [spec.endpoints.some] throws on a missing
    array. *)
Definition generateCRUDOperations (h : Store) (entity : Entity) (spec : Spec)
    : result (Store * list ChangeOperation) :=
  ps ← from_option Ok (Throw TypeError) (endpoints spec);
  let new := crud_endpoints h entity ps in
  Ok (with_eps h (eps h ++ new), map addEndpoint (seq (length (eps h)) (length new))).

Inductive ErrorCategory :=
  cat_entity | cat_endpoint | cat_schema | cat_dependency | cat_naming.

Inductive Severity := critical | high | medium.

(** [ValidationError]; its [type] is always ['error'] and is left out. *)
Record ValidationError := {
  err_category : ErrorCategory;
  err_message : string;
  err_entityId : option string;
  err_endpointId : option string;
  err_field : option string;
  err_severity : Severity
}.

(** The white space that [String.prototype.trim] removes, among the
    8-bit code units. *)
Definition is_space (c : ascii) : bool :=
  let n := nat_of_ascii c in
  ((9 <=? n) && (n <=? 13)) || (n =? 32) || (n =? 160).

Fixpoint drop_spaces (l : list ascii) : list ascii :=
  match l with
  | c :: rest => if is_space c then drop_spaces rest else l
  | [] => []
  end.

Definition trim (s : string) : string :=
  string_of_list_ascii
    (rev (drop_spaces (rev (drop_spaces (list_ascii_of_string s))))).

Definition no_path_error (endpoint : Endpoint) : ValidationError :=
  {| err_category := cat_endpoint;
     err_message := "Endpoint " +:+ ep_id endpoint +:+ " has no path";
     err_entityId := None; err_endpointId := Some (ep_id endpoint);
     err_field := None; err_severity := critical |}.

Definition invalid_method_error (endpoint : Endpoint) : ValidationError :=
  {| err_category := cat_endpoint;
     err_message := "Endpoint " +:+ path endpoint +:+ " has invalid HTTP method: "
                    +:+ method_string (method endpoint);
     err_entityId := None; err_endpointId := Some (ep_id endpoint);
     err_field := None; err_severity := high |}.

Definition duplicate_endpoint_error (endpoint : Endpoint) : ValidationError :=
  {| err_category := cat_endpoint;
     err_message := "Duplicate endpoint: " +:+ endpoint_label endpoint;
     err_entityId := None; err_endpointId := None;
     err_field := None; err_severity := critical |}.

(** The loop of [validateEndpoints]; [seen] is [endpointKeys]. *)
Fixpoint endpoint_errors (seen : gset string) (ps : list Endpoint)
    : list ValidationError :=
  match ps with
  | [] => []
  | endpoint :: rest =>
      if negb (truthy (path endpoint)) then endpoint_errors seen rest else
      let no_path :=
        if negb (truthy (path endpoint)) || bool_decide (trim (path endpoint) = "")
        then [no_path_error endpoint] else [] in
      let invalid_method :=
        if negb (bool_decide (method_string (method endpoint)
                              ∈ ["GET"; "POST"; "PUT"; "PATCH"; "DELETE"]))
        then [invalid_method_error endpoint] else [] in
      let key := endpoint_label endpoint in
      if decide (key ∈ seen) then
        no_path ++ invalid_method ++ duplicate_endpoint_error endpoint
          :: endpoint_errors seen rest
      else
        no_path ++ invalid_method ++ endpoint_errors (seen ∪ {[key]}) rest
  end.

(** [validateEndpoints] of the validation engine (lines 192-242). *)
Definition validateEndpoints (h : Store) (spec : Spec) : list ValidationError :=
  match endpoints spec with
  | None => []
  | Some ps =>
      if length ps =? 0 then [] else endpoint_errors ∅ (deref (eps h) ps)
  end.

Definition duplicate_entity_error (entity : Entity) : ValidationError :=
  {| err_category := cat_entity;
     err_message := "Duplicate entity name: " +:+ ent_name entity;
     err_entityId := Some (ent_id entity); err_endpointId := None;
     err_field := None; err_severity := critical |}.

Definition no_name_error (entity : Entity) : ValidationError :=
  {| err_category := cat_entity;
     err_message := "Entity " +:+ ent_id entity +:+ " has no name";
     err_entityId := Some (ent_id entity); err_endpointId := None;
     err_field := None; err_severity := critical |}.

Definition no_fields_error (entity : Entity) : ValidationError :=
  {| err_category := cat_entity;
     err_message := "Entity " +:+ ent_name entity +:+ " has no fields defined";
     err_entityId := Some (ent_id entity); err_endpointId := None;
     err_field := None; err_severity := high |}.

Definition duplicate_field_error (entity : Entity) (field : Field) : ValidationError :=
  {| err_category := cat_entity;
     err_message := "Duplicate field name '" +:+ fld_name field +:+ "' in entity "
                    +:+ ent_name entity;
     err_entityId := Some (ent_id entity); err_endpointId := None;
     err_field := Some (fld_name field); err_severity := high |}.

Definition no_type_error (entity : Entity) (field : Field) : ValidationError :=
  {| err_category := cat_schema;
     err_message := "Field '" +:+ fld_name field +:+ "' in entity "
                    +:+ ent_name entity +:+ " has no type";
     err_entityId := Some (ent_id entity); err_endpointId := None;
     err_field := Some (fld_name field); err_severity := high |}.

Definition no_id_field_error (entity : Entity) : ValidationError :=
  {| err_category := cat_schema;
     err_message := "Entity " +:+ ent_name entity +:+ " is missing an 'id' field";
     err_entityId := Some (ent_id entity); err_endpointId := None;
     err_field := None; err_severity := medium |}.

(** The loop over [entity.fields]; [seen] is [fieldNames]. *)
Fixpoint field_errors (entity : Entity) (seen : gset string) (fs : list Field)
    : list ValidationError :=
  match fs with
  | [] => []
  | field :: rest =>
      (if decide (fld_name field ∈ seen) then [duplicate_field_error entity field]
       else []) ++
      (if negb (truthy (fld_type field)) || bool_decide (trim (fld_type field) = "")
       then [no_type_error entity field] else []) ++
      field_errors entity (seen ∪ {[fld_name field]}) rest
  end.

(** What [validateEntities] reports about one entity, the duplicate of
    its name apart. *)
Definition entity_errors (entity : Entity) : list ValidationError :=
  (if negb (truthy (ent_name entity)) || bool_decide (trim (ent_name entity) = "")
   then [no_name_error entity] else []) ++
  (if length (fields entity) =? 0 then [no_fields_error entity] else []) ++
  field_errors entity ∅ (fields entity) ++
  (if existsb (λ f, bool_decide (fld_name f = "id") ||
                    bool_decide (fld_name f = toLowerCase (ent_name entity) +:+ "Id"))
        (fields entity)
   then [] else [no_id_field_error entity]).

(** The loop of [validateEntities]; [seen] is [entityNames]. *)
Fixpoint entities_errors (seen : gset string) (es : list Entity)
    : list ValidationError :=
  match es with
  | [] => []
  | entity :: rest =>
      if negb (truthy (ent_name entity)) then entities_errors seen rest else
      (if decide (ent_name entity ∈ seen) then [duplicate_entity_error entity]
       else []) ++
      entity_errors entity ++
      entities_errors (seen ∪ {[ent_name entity]}) rest
  end.

(** [validateEntities] of the validation engine (lines 97-187). *)
Definition validateEntities (h : Store) (spec : Spec) : list ValidationError :=
  match entities spec with
  | None => []
  | Some es =>
      if length es =? 0 then [] else entities_errors ∅ (deref (ents h) es)
  end.

(** ** The server: applying a change request *)

(** The columns of a feature and of a version that the function reads or
    writes; the [diff] of a version is left out, as in [ChangePreview]. *)
Record Feature := {
  feat_id : string;
  feat_projectId : string;
  feat_status : string
}.

Record Version := {
  ver_number : nat;
  ver_spec : SpecValue;
  ver_projectId : string;
  ver_createdBy : string
}.

(** The database as the function sees it: the queries it sends, as
    functions on a database state [DB] that is not looked into.
    [feature_update] stands for [prisma.feature.update(...).catch(...)],
    whose failure is swallowed.  [getProjectWithAccess] reads a project
    row and may delete an expired lock. *)
Record Database (DB Row : Type) := {
  feature_findUnique : DB → string → option Feature;
  feature_update : DB → string → string → DB;
  project_update : DB → string → SpecValue → DB;
  version_findFirst : DB → string → option Version;
  version_create : DB → Version → DB;
  getProjectWithAccess : DB → string → string → DB * option Row
}.

Arguments feature_findUnique {DB Row} _ _ _.
Arguments feature_update {DB Row} _ _ _ _.
Arguments project_update {DB Row} _ _ _ _.
Arguments version_findFirst {DB Row} _ _ _.
Arguments version_create {DB Row} _ _ _.
Arguments getProjectWithAccess {DB Row} _ _ _ _.

(** The project the route has loaded: its id and its spec, an object
    graph in the store. *)
Record Project := {
  project_id : string;
  project_spec : Spec
}.

Record Options := {
  persist : bool;
  featureId : option string
}.

Inductive Status := status_ok | status_conflict.

Inductive Payload (Row : Type) :=
| PError (error : string)
| PConflicts (preview : ChangePreview) (found : list ChangeConflict)
| PProject (project : option Row) (preview : ChangePreview)
| PPreview (preview : ChangePreview).

Arguments PError {Row} error.
Arguments PConflicts {Row} preview found.
Arguments PProject {Row} project preview.
Arguments PPreview {Row} preview.

Record Response (Row : Type) := {
  status : Status;
  payload : Payload Row
}.

Arguments status {Row} _.
Arguments payload {Row} _.

(** [getNextVersionNumber] (lines 974-980): [(latest?.number ?? 0) + 1]. *)
Definition getNextVersionNumber {DB Row} (D : Database DB Row) (db : DB)
    (projectId : string) : nat :=
  match version_findFirst D db projectId with
  | Some latest => ver_number latest + 1
  | None => 0 + 1
  end.

(** [persistVersion] (lines 982-993). *)
Definition persistVersion {DB Row} (D : Database DB Row) (db : DB)
    (projectId : string) (spec : SpecValue) (userId : string) : DB :=
  let number := getNextVersionNumber D db projectId in
  version_create D db
    {| ver_number := number; ver_spec := spec; ver_projectId := projectId;
       ver_createdBy := userId |}.

(** The first test of [applyChangeRequest]: the feature named by the
    options must belong to the project and be approved or applied. *)
Definition feature_gate {DB Row} (D : Database DB Row) (db : DB) (project : Project)
    (options : Options) : option (Response Row) :=
  if truthy_opt (featureId options) then
    match feature_findUnique D db (default "" (featureId options)) with
    | None =>
        Some {| status := status_conflict;
                payload := PError "Feature not found for this project" |}
    | Some feature =>
        if negb (bool_decide (feat_projectId feature = project_id project)) then
          Some {| status := status_conflict;
                  payload := PError "Feature not found for this project" |}
        else if negb (bool_decide (feat_status feature ∈ ["APPROVED"; "APPLIED"])) then
          Some {| status := status_conflict;
                  payload := PError ("Feature status " +:+ feat_status feature
                                     +:+ " does not allow applying changes") |}
        else None
    end
  else None.

(** The writes of the [persist] branch, in their order. *)
Definition persist_changes {DB Row} (D : Database DB Row) (db : DB) (project : Project)
    (serializedSpec : SpecValue) (userId : string) (options : Options)
    : DB * option Row :=
  let db1 := project_update D db (project_id project) serializedSpec in
  let db2 := persistVersion D db1 (project_id project) serializedSpec userId in
  let db3 := if truthy_opt (featureId options)
             then feature_update D db2 (default "" (featureId options)) "APPLIED"
             else db2 in
  getProjectWithAccess D db3 (project_id project) userId.

(** [applyChangeRequest] (lines 1907-1966) on a database state and an
    object store. *)
Definition applyChangeRequest {DB Row} (D : Database DB Row) (db : DB) (h : Store)
    (project : Project) (changeRequest : ChangeRequest) (userId : string)
    (options : Options) : result (DB * Store * Response Row) :=
  match feature_gate D db project options with
  | Some refusal => Ok (db, h, refusal)
  | None =>
      r ← computeChangePreview h (project_spec project) changeRequest;
      let '(h', preview) := r in
      if 0 <? length (preview_conflicts preview) then
        Ok (db, h', {| status := status_conflict;
                       payload := PConflicts preview (preview_conflicts preview) |})
      else if persist options then
        let serializedSpec := snapshot h' (proposedSpec preview) in
        let '(db', refreshed) :=
          persist_changes D db project serializedSpec userId options in
        Ok (db', h', {| status := status_ok; payload := PProject refreshed preview |})
      else
        Ok (db, h', {| status := status_ok; payload := PPreview preview |})
  end.

(** ** Vocabulary of the further properties *)

(** A route file name: not empty, letters, digits and underscores only,
    no underscore at either end. *)
Definition route_name (l : list ascii) : Prop :=
  l ≠ [] ∧ Forall (λ c, is_word_char c = true) l ∧
  head l ≠ Some underscore ∧ last l ≠ Some underscore.

Definition start (h : Store) (cur : Spec) : ApplyResult :=
  {| heap := (deep_copy h cur).1; spec := (deep_copy h cur).2;
     conflicts := []; impacts := [] |}.

Definition finish (σ : ApplyResult) (checks : list ChangeConflict) : ApplyResult :=
  {| heap := heap σ; spec := spec σ; conflicts := conflicts σ ++ checks;
     impacts := impacts σ |}.

(** An update or a removal whose id no object of the spec carries. *)
Definition targets_nothing (h : Store) (s : Spec) (op : ChangeOperation) : Prop :=
  match op with
  | updateRequirement i _ | removeRequirement i =>
      ∃ rs, requirements s = Some rs ∧ ∀ x, x ∈ rs → req_id (reqs h !!! x) ≠ i
  | updateEntity i _ | removeEntity i =>
      ∃ es, entities s = Some es ∧ ∀ x, x ∈ es → ent_id (ents h !!! x) ≠ i
  | updateEndpoint i _ | removeEndpoint i =>
      ∃ ps, endpoints s = Some ps ∧ ∀ x, x ∈ ps → ep_id (eps h !!! x) ≠ i
  | _ => False
  end.

(** An addition whose key (the id of a requirement, the name of an
    entity, the method and path of an endpoint) an object of the spec
    carries already. *)
Definition key_taken (h : Store) (s : Spec) (op : ChangeOperation) : Prop :=
  match op with
  | addRequirement r =>
      ∃ rs x, requirements s = Some rs ∧ x ∈ rs ∧
              req_id (reqs h !!! x) = req_id (reqs h !!! r)
  | addEntity r =>
      ∃ es x, entities s = Some es ∧ x ∈ es ∧
              ent_name (ents h !!! x) = ent_name (ents h !!! r)
  | addEndpoint r =>
      ∃ ps x, endpoints s = Some ps ∧ x ∈ ps ∧
              path (eps h !!! x) = path (eps h !!! r) ∧
              method (eps h !!! x) = method (eps h !!! r)
  | _ => False
  end.

(** A spec value with other entities. *)
Definition with_entities_of (v : SpecValue) (l : list Entity) : SpecValue :=
  {| requirements_of := requirements_of v; entities_of := Some l;
     endpoints_of := endpoints_of v; folder_of := folder_of v;
     passengers_of := passengers_of v |}.

Definition other_id (X : string) (e : Entity) : bool :=
  negb (bool_decide (ent_id e = X)).

(** A field the validator accepts. *)
Definition valid_field (f : Field) : Prop := fld_name f ≠ "" ∧ fld_type f ≠ "".

(** The conflicts of one type. *)
Definition count (t : ConflictType) (cs : list ChangeConflict) : nat :=
  length (List.filter (λ c, bool_decide (ctype c = t)) cs).

(** The fields the validator rejects: those without a name or a type. *)
Definition invalid (f : Field) : bool :=
  negb (truthy (fld_name f)) || negb (truthy (fld_type f)).

Definition invalid_fields (es : list Entity) : list Field :=
  flat_map (λ e, List.filter invalid (fields e)) es.

(** An id whose visit is over: marked and off the stack. *)
Definition black (st : dfs) (i : string) : Prop := i ∈ visited st ∧ i ∉ stack st.

(** [rank] falls along every relation that [find_target] resolves: the
    resolved relations have no cycle. *)
Definition ranked (entities : list Entity) (rank : string → nat) : Prop :=
  ∀ e r t, e ∈ entities → r ∈ relations e →
    find_target entities (target r) = Some t →
    rank (ent_id t) < rank (ent_id e).

(** The entities whose visit is over are ranked, and their relations lead
    to such entities only. *)
Definition settled (entities : list Entity) (st : dfs) : Prop :=
  ∃ (rank : string → nat) (bound : nat),
    ∀ x, x ∈ entities → black st (ent_id x) →
      rank (ent_id x) < bound ∧
      ∀ r t, r ∈ relations x → find_target entities (target r) = Some t →
        black st (ent_id t) ∧ rank (ent_id t) < rank (ent_id x).

(** [e] reaches [t] along resolved relations, in one step or more. *)
Inductive reaches (entities : list Entity) : Entity → Entity → Prop :=
| reaches_step e r t :
    e ∈ entities → r ∈ relations e → find_target entities (target r) = Some t →
    reaches entities e t
| reaches_trans e t u :
    reaches entities e t → reaches entities t u → reaches entities e u.

(** What identifies an endpoint for the applier and the validator. *)
Definition key (e : Endpoint) : Method * string := (method e, path e).

Definition with_endpoints_of (v : SpecValue) (l : list Endpoint) : SpecValue :=
  {| requirements_of := requirements_of v; entities_of := entities_of v;
     endpoints_of := Some l; folder_of := folder_of v;
     passengers_of := passengers_of v |}.

(** The section of the spec an operation works on. *)
Definition on_requirements (op : ChangeOperation) : bool :=
  match op with
  | addRequirement _ | updateRequirement _ _ | removeRequirement _ => true
  | _ => false
  end.

Definition on_entities (op : ChangeOperation) : bool :=
  match op with
  | addEntity _ | updateEntity _ _ | removeEntity _ => true
  | _ => false
  end.

Definition on_endpoints (op : ChangeOperation) : bool :=
  match op with
  | addEndpoint _ | updateEndpoint _ _ | removeEndpoint _ => true
  | _ => false
  end.

(** The folder structure after the operations: the last one given. *)
Definition last_folder (f : FolderStructure) (ops : list ChangeOperation)
    : FolderStructure :=
  foldl (λ f op, match op with updateFolderStructure g => g | _ => f end) f ops.

(** The name of the patch is taken by another entity. *)
Definition name_taken (X : string) (patch : EntityPatch) (e : Entity) : Prop :=
  ent_id e ≠ X ∧ Some (ent_name e) = np_name patch.

(** The operations that add, and those that remove. *)
Definition is_addition (op : ChangeOperation) : bool :=
  match op with
  | addRequirement _ | addEntity _ | addEndpoint _ => true
  | _ => false
  end.

Definition is_removal (op : ChangeOperation) : bool :=
  match op with
  | removeRequirement _ | removeEntity _ | removeEndpoint _ => true
  | _ => false
  end.

(** The character [c] occurs in [w]. *)
Definition occurs (c : ascii) (w : string) : Prop := In c (list_ascii_of_string w).

(** The errors that report a duplicate: those that name no endpoint. *)
Definition duplicate_errors (errors : list ValidationError) : list ValidationError :=
  List.filter (λ e, bool_decide (err_endpointId e = None)) errors.

(** The errors that report a duplicate entity name. *)
Definition duplicate_name_errors (errors : list ValidationError)
    : list ValidationError :=
  List.filter (λ e, String.prefix "Duplicate entity name: " (err_message e)) errors.

(** The naming conflicts. *)
Definition naming_conflicts (cs : list ChangeConflict) : list ChangeConflict :=
  List.filter (λ c, bool_decide (ctype c = naming)) cs.

(** ** More example inputs *)

Definition remove_nobody : ChangeRequest :=
  {| summary := "remove nobody"; operations := Some [removeEntity "nobody"] |}.

Definition add_first_endpoint : ChangeRequest :=
  {| summary := "list users again"; operations := Some [addEndpoint 0] |}.

Definition add_order : ChangeRequest :=
  {| summary := "order"; operations := Some [addEntity 2] |}.

Definition remove_order : ChangeRequest :=
  {| summary := "no order"; operations := Some [removeEntity "o1"] |}.

Definition remove_user : ChangeRequest :=
  {| summary := "no user"; operations := Some [removeEntity "u1"] |}.

Definition remove_user_twice : ChangeRequest :=
  {| summary := "no user at all";
     operations := Some [removeEntity "u1"; removeEntity "u1"] |}.

Definition order_added : ChangeImpact :=
  {| description := "Entity Order added"; affectedEntities := Some ["Order"];
     affectedEndpoints := None;
     affectedFiles := Some ["prisma/schema.prisma"; "src/entities/Order.ts"] |}.

Definition order_preview : ChangePreview :=
  {| currentSpec := user_spec; proposedSpec := user_spec; preview_conflicts := [];
     preview_impacts := [order_added] |}.

(** A database that only keeps the log of its writes. *)
Definition write_log : Database (list string) unit :=
  {| feature_findUnique := λ _ id,
       Some {| feat_id := id; feat_projectId := "p"; feat_status := "DRAFT" |};
     feature_update := λ db _ _, db ++ ["feature.update"];
     project_update := λ db _ _, db ++ ["project.update"];
     version_findFirst := λ _ _, None;
     version_create := λ db _, db ++ ["version.create"];
     getProjectWithAccess := λ db _ _, (db, Some ()) |}.

Definition user_project : Project :=
  {| project_id := "p"; project_spec := user_spec |}.

Definition user_entity : Entity := entity "u1" "User" [].

(** The store and the request that [generateCRUDOperations] yields for
    the entity "User" of [user_spec], which can be listed and created. *)
Definition crud_store : Store :=
  with_eps user_store (eps user_store ++ crud_endpoints user_store user_entity [0; 1]).

Definition crud_request : ChangeRequest :=
  {| summary := "Add CRUD endpoints for User";
     operations := Some [addEndpoint 2; addEndpoint 3] |}.

Definition for_feature : Options := {| persist := true; featureId := Some "f1" |}.

Definition for_good : Options := {| persist := true; featureId := None |}.

Definition user_and_order : Spec := with_entities user_spec (Some [0; 2]).

Definition user_to_order : ChangeRequest :=
  {| summary := "rename"; operations := Some [updateEntity "u1" (rename_to "Order")] |}.

Definition pad_user : ChangeOperation := updateEntity "u1" (rename_to "Padded").

(** The first endpoint is listed twice. *)
Definition doubled_endpoint : Spec := with_endpoints user_spec (Some [0; 1; 0]).

(** Two entities are named "User". *)
Definition two_users : Spec := with_entities user_spec (Some [0; 1; 2]).

(** ** Tactics *)

(** Unfolds one call of [applyOperation] and splits on its tests. *)
Ltac step_cases :=
  unfold applyOperation, mbind, result_bind, from_option in *;
  repeat case_match; simplify_eq/=.

Ltac elem_cases H :=
  repeat (apply elem_of_cons in H as [H|H]; [subst|]); [..|by apply elem_of_nil in H].

(** * Properties *)

(** ** Strings *)

Lemma prefix_append (needle s : string) :
  String.prefix needle s = true ↔ ∃ post, s = needle +:+ post.
Proof.
  revert s. induction needle as [|a n IH]; intros s.
  - split; [by exists s|by destruct s].
  - destruct s as [|b s].
    + split; [discriminate|]. intros (post & E). discriminate E.
    + change (String.prefix (String a n) (String b s))
        with (if ascii_dec a b then String.prefix n s else false).
      destruct (ascii_dec a b) as [->|Hne].
      * rewrite IH. split; intros (post & E); exists post.
        -- by rewrite E.
        -- by injection E.
      * split; [discriminate|]. intros (post & E). injection E. congruence.
Qed.

(** [includes] is the substring test. *)
Lemma includes_spec (hay needle : string) :
  includes hay needle = true ↔ ∃ pre post, hay = pre +:+ needle +:+ post.
Proof.
  induction hay as [|c hay IH]; cbn [includes].
  - rewrite orb_false_r, prefix_append. split.
    + intros (post & E). by exists "", post.
    + intros (pre & post & E). destruct pre; [|discriminate]. by exists post.
  - rewrite orb_true_iff, IH, prefix_append. split.
    + intros [(post & E)|(pre & post & ->)].
      * by exists "", post.
      * by exists (String c pre), post.
    + intros (pre & post & E). destruct pre as [|a pre].
      * left. by exists post.
      * injection E as -> ->. right. by exists pre, post.
Qed.

(** ** The impact summary *)

Lemma add_all_union (names : option (list string)) (set : gset string) :
  add_all names set = set ∪ list_to_set (names_of names).
Proof.
  unfold add_all, names_of. generalize (default [] names) as l. intros l.
  revert set. induction l as [|x l IH]; intros set; simpl.
  - set_solver.
  - rewrite IH. set_solver.
Qed.

Section tally_sets.

(** One [Set] of the tally and the impact property that feeds it. *)
Variable set_of : tally → gset string.
Variable feeds : ChangeImpact → option (list string).
Hypothesis set_step : ∀ t i, set_of (tally_impact t i) = add_all (feeds i) (set_of t).

Lemma tally_set_fold (l : list ChangeImpact) (t : tally) :
  set_of (foldl tally_impact t l)
  = set_of t ∪ ⋃ (map (λ i, list_to_set (names_of (feeds i))) l).
Proof.
  revert t. induction l as [|i l IH]; intros t; simpl.
  - set_solver.
  - rewrite IH, set_step, add_all_union. set_solver.
Qed.

End tally_sets.

Section tally_arrays.

(** One name array of the tally, the impact property that feeds it and
    the word that selects its impacts. *)
Variable feeds : ChangeImpact → option (list string).
Variable array_of : tally → list string.
Variable word : string.
Hypothesis array_step : ∀ t i,
  array_of (tally_impact t i)
  = if includes (description i) word then push_all (feeds i) (array_of t)
    else array_of t.

Lemma tally_array_fold (l : list ChangeImpact) (t : tally) (i : ChangeImpact)
    (name : string) :
  i ∈ l → includes (description i) word = true → name ∈ names_of (feeds i) →
  name ∈ array_of (foldl tally_impact t l).
Proof.
  intros Hi Hw Hn.
  assert (Hmono : ∀ l t, name ∈ array_of t → name ∈ array_of (foldl tally_impact t l)).
  { clear -array_step. intros l'. induction l' as [|j l' IH]; intros t Ht; simpl; [done|].
    apply IH. rewrite array_step. destruct (includes _ _); [|done].
    unfold push_all. destruct (feeds j); [|done]. set_solver. }
  revert t. induction Hi as [i l|i j l Hi IH]; intros t; simpl.
  - apply Hmono. rewrite array_step, Hw. unfold push_all, names_of in *.
    destruct (feeds i); simpl in Hn; set_solver.
  - by apply IH.
Qed.

End tally_arrays.

(** C9. In the summary, the names carried by an impact whose description
    contains "added" are in [newEntities] / [newEndpoints], those of an
    impact whose description contains "removed" are in [removedEntities] /
    [removedEndpoints], and the three counts are the sizes of the unions of
    the affected entities, endpoints and files over all impacts. *)
Theorem impact_summary_classification (preview : ChangePreview) :
  let summary := generateImpactSummary preview in
  let l := preview_impacts preview in
  (∀ i name, i ∈ l → includes (description i) "added" = true →
     (name ∈ names_of (affectedEntities i) → name ∈ newEntities summary) ∧
     (name ∈ names_of (affectedEndpoints i) → name ∈ newEndpoints summary)) ∧
  (∀ i name, i ∈ l → includes (description i) "removed" = true →
     (name ∈ names_of (affectedEntities i) → name ∈ removedEntities summary) ∧
     (name ∈ names_of (affectedEndpoints i) → name ∈ removedEndpoints summary)) ∧
  modifiedEntities summary
    = size (⋃ (map (λ i, list_to_set (names_of (affectedEntities i))) l) : gset string) ∧
  modifiedEndpoints summary
    = size (⋃ (map (λ i, list_to_set (names_of (affectedEndpoints i))) l) : gset string) ∧
  modifiedFiles summary
    = size (⋃ (map (λ i, list_to_set (names_of (affectedFiles i))) l) : gset string).
Proof.
  cbn zeta. unfold generateImpactSummary; cbn [newEntities newEndpoints
    removedEntities removedEndpoints modifiedEntities modifiedEndpoints modifiedFiles].
  repeat split.
  - eapply (tally_array_fold affectedEntities t_newEntities "added");
      [intros t j; cbn; by destruct (includes _ "added") | eauto..].
  - eapply (tally_array_fold affectedEndpoints t_newEndpoints "added");
      [intros t j; cbn; by destruct (includes _ "added") | eauto..].
  - eapply (tally_array_fold affectedEntities t_removedEntities "removed");
      [intros t j; cbn; by destruct (includes _ "removed") | eauto..].
  - eapply (tally_array_fold affectedEndpoints t_removedEndpoints "removed");
      [intros t j; cbn; by destruct (includes _ "removed") | eauto..].
  - rewrite (tally_set_fold t_entities affectedEntities); [|done].
    f_equal. cbn. set_solver.
  - rewrite (tally_set_fold t_endpoints affectedEndpoints); [|done].
    f_equal. cbn. set_solver.
  - rewrite (tally_set_fold t_files affectedFiles); [|done].
    f_equal. cbn. set_solver.
Qed.

(** ** The depth-first search of the validator *)

Lemma size_list_to_set_le (l : list string) :
  size (list_to_set l : gset string) ≤ length l.
Proof.
  induction l as [|x l IH]; simpl.
  - done.
  - rewrite size_union_alt, size_singleton.
    assert (Hsub : list_to_set l ∖ {[x]} ⊆ (list_to_set l : gset string))
      by set_solver.
    apply subseteq_size in Hsub. simpl. lia.
Qed.

Lemma elem_of_ids (entities : list Entity) (e : Entity) :
  e ∈ entities → ent_id e ∈ ids entities.
Proof.
  intros He. unfold ids. rewrite elem_of_list_to_set, list_elem_of_fmap. eauto.
Qed.

Lemma unvisited_mono (entities : list Entity) (st st' : dfs) :
  visited st ⊆ visited st' → unvisited entities st' ≤ unvisited entities st.
Proof. intros Hsub. apply subseteq_size. set_solver. Qed.

Lemma unvisited_mark (entities : list Entity) (e : Entity) (st st1 : dfs) :
  e ∈ entities → ent_id e ∉ visited st →
  visited st1 = visited st ∪ {[ent_id e]} →
  unvisited entities st1 < unvisited entities st.
Proof.
  intros He Hnew Hv. unfold unvisited. rewrite Hv.
  apply subset_size. apply elem_of_ids in He. set_solver.
Qed.

Lemma find_target_Some (entities : list Entity) (t : string) (e : Entity) :
  find_target entities t = Some e →
  e ∈ entities ∧ (ent_name e = t ∨ ent_id e = t).
Proof.
  intros Hf. apply find_some in Hf as [Hin Hp]. split.
  - by apply list_elem_of_In.
  - apply orb_true_iff in Hp as [Hp|Hp]; apply bool_decide_eq_true in Hp; auto.
Qed.

Lemma find_target_matches (entities : list Entity) (t : string) (e : Entity) :
  e ∈ entities → ent_name e = t ∨ ent_id e = t →
  is_Some (find_target entities t).
Proof.
  intros Hin Hm. destruct (find_target entities t) eqn:Hf; [eauto|].
  apply list_elem_of_In in Hin.
  pose proof (find_none _ _ Hf _ Hin) as Hp. simpl in Hp.
  apply orb_false_iff in Hp as [H1 H2].
  apply bool_decide_eq_false in H1, H2. tauto.
Qed.

(** A call of [visit] with enough fuel returns, and marks are kept. *)
Lemma visit_returns (fuel : nat) (entities : list Entity) :
  ∀ (e : Entity) (st : dfs),
    e ∈ entities → unvisited entities st < fuel →
    ∃ b st', visit fuel entities e st = Some (b, st') ∧ visited st ⊆ visited st'.
Proof.
  induction fuel as [|fuel IH]; intros e st He Hfuel; [lia|].
  cbn [visit].
  destruct (decide (ent_id e ∈ stack st)); [by eexists _, _|].
  destruct (decide (ent_id e ∈ visited st)); [by eexists _, _|].
  set (st1 := {| visited := visited st ∪ {[ent_id e]};
                 stack := stack st ∪ {[ent_id e]}; found := found st |}).
  assert (Hst1 : unvisited entities st1 < fuel).
  { pose proof (unvisited_mark entities e st st1 He n0 eq_refl). lia. }
  assert (Hloop : ∀ rels st2, visited st1 ⊆ visited st2 →
            ∃ b st', visit_relations (visit fuel entities) entities rels st2
                     = Some (b, st') ∧ visited st2 ⊆ visited st').
  { induction rels as [|r rels IHr]; intros st2 Hsub; cbn [visit_relations].
    - by eexists _, _.
    - destruct (find_target entities (target r)) as [t|] eqn:Hf; [|by apply IHr].
      apply find_target_Some in Hf as [Ht _].
      destruct (IH t st2 Ht) as (b & st3 & -> & Hsub3).
      { pose proof (unvisited_mono entities st1 st2 Hsub). lia. }
      destruct b; [by eexists _, _|].
      destruct (IHr st3) as (b & st4 & -> & Hsub4); [set_solver|].
      eexists _, _. split; [done|set_solver]. }
  destruct (Hloop (relations e) st1) as (b & st2 & -> & Hsub); [done|].
  destruct b; eexists _, _; (split; [done|]); simpl in *; set_solver.
Qed.

Lemma visit_all_returns (fuel : nat) (entities todo : list Entity) (st : dfs) :
  todo ⊆ entities → unvisited entities st < fuel →
  is_Some (visit_all fuel entities todo st).
Proof.
  revert st. induction todo as [|e todo IH]; intros st Hsub Hfuel; cbn [visit_all].
  - done.
  - assert (He : e ∈ entities) by set_solver.
    assert (Hrest : todo ⊆ entities) by set_solver.
    destruct (decide (ent_id e ∈ visited st)); [by apply IH|].
    destruct (visit_returns fuel entities e st He Hfuel) as (b & st' & -> & Hv).
    apply IH; [done|]. pose proof (unvisited_mono entities st st' Hv). lia.
Qed.

(** The cycle check always returns: its recursion bound is never used up. *)
Lemma validateCircularRelations_returns (entities : list Entity) :
  ∃ cs, validateCircularRelations entities = Ok cs.
Proof.
  unfold validateCircularRelations.
  destruct (visit_all_returns (S (length entities)) entities entities dfs_init)
    as [st ->]; [done| |by eexists].
  unfold unvisited, ids. simpl.
  assert (H1 : size (list_to_set (map ent_id entities) ∖ (∅ : gset string))
               ≤ size (list_to_set (map ent_id entities) : gset string))
    by (apply subseteq_size; set_solver).
  pose proof (size_list_to_set_le (map ent_id entities)) as H2.
  rewrite length_map in H2. lia.
Qed.

(** ** One operation *)

Lemma filter_length_eq {A} (f : A → bool) (l : list A) :
  length (List.filter f l) = length l → List.filter f l = l.
Proof.
  induction l as [|x l IH]; simpl; [done|].
  destruct (f x); simpl; intros Hlen.
  - f_equal. apply IH. lia.
  - pose proof (List.filter_length_le f l). lia.
Qed.

Lemma with_requirements_same (s : Spec) (l : list ref) :
  requirements s = Some l → with_requirements s (Some l) = s.
Proof. destruct s; simpl; intros ->; done. Qed.

(** An operation that reports a conflict changes neither the store nor
    the working spec. *)
Lemma conflict_leaves_state (h h' : Store) (s s' : Spec) (op : ChangeOperation)
    (c : ChangeConflict) :
  applyOperation h s op = Ok (h', s', Conflict c) → h' = h ∧ s' = s.
Proof.
  intros Hstep. destruct op; step_cases; try done.
  split; [done|].
  match goal with H : (_ =? _) = true |- _ => apply Nat.eqb_eq in H; symmetry in H;
    apply filter_length_eq in H; rewrite H end.
  by apply with_requirements_same.
Qed.

Lemma applyOperations_surviving (ops : list ChangeOperation) :
  ∀ σ σf τ,
    applyOperations σ ops = Ok σf → heap τ = heap σ → spec τ = spec σ →
    ∃ τf skipped done,
      applyOperations τ (surviving (heap σ) (spec σ) ops) = Ok τf ∧
      heap τf = heap σf ∧ spec τf = spec σf ∧
      conflicts τf = conflicts τ ∧ conflicts σf = conflicts σ ++ skipped ∧
      impacts τf = impacts τ ++ done ∧ impacts σf = impacts σ ++ done ∧
      length skipped + length (surviving (heap σ) (spec σ) ops) = length ops.
Proof.
  induction ops as [|op ops IH]; intros σ σf τ Hrun Hh Hs; cbn [applyOperations surviving] in *.
  - simplify_eq. exists τ, [], []. by rewrite !app_nil_r.
  - unfold mbind, result_bind in Hrun.
    destruct (applyOperation (heap σ) (spec σ) op) as [[[h' s'] [c|i]]| |] eqn:Hstep;
      try done.
    + destruct (conflict_leaves_state _ _ _ _ _ _ Hstep) as [-> ->].
      destruct (IH _ _ τ Hrun) as (τf & sk & dn & H1 & H2 & H3 & H4 & H5 & H6 & H7 & H8);
        [done..|].
      simpl in *. exists τf, (c :: sk), dn. repeat split; try done.
      * by rewrite H5, <- app_assoc.
      * simpl. lia.
    + cbn [applyOperations]. rewrite Hh, Hs, Hstep. unfold mbind, result_bind.
      destruct (IH _ _ (record τ (h', s', Impact i)) Hrun)
        as (τf & sk & dn & H1 & H2 & H3 & H4 & H5 & H6 & H7 & H8); [done..|].
      simpl in *. exists τf, sk, (i :: dn). repeat split; try done.
      * by rewrite H6, <- app_assoc.
      * by rewrite H7, <- app_assoc.
      * simpl. lia.
Qed.

(** C1. An operation that reports a conflict changes nothing, and the
    loop goes on: the proposed spec (and the store behind it, and the
    impacts) is the one obtained by applying only the operations that
    reported no conflict; in that run no operation conflicts, and every
    operation of the request is either one of those or one conflict. *)
Theorem conflicting_operations_leave_no_trace :
  (∀ h s op h' s' c,
     applyOperation h s op = Ok (h', s', Conflict c) → h' = h ∧ s' = s) ∧
  (∀ h cur req ops res,
     operations req = Some ops →
     applyChangeRequestToSpec h cur req = Ok res →
     let kept := surviving (deep_copy h cur).1 (deep_copy h cur).2 ops in
     ∃ res' skipped,
       applyChangeRequestToSpec h cur
         {| summary := summary req; operations := Some kept |} = Ok res' ∧
       heap res' = heap res ∧ spec res' = spec res ∧
       impacts res' = impacts res ∧
       validateSpec (heap res) (spec res) = Ok (conflicts res') ∧
       conflicts res = skipped ++ conflicts res' ∧
       length skipped + length kept = length ops).
Proof.
  split; [intros; by eapply conflict_leaves_state|].
  intros h cur req ops res Hops Happly kept. subst kept.
  unfold applyChangeRequestToSpec in *. rewrite Hops in Happly.
  destruct (deep_copy h cur) as [h1 w] eqn:Hcopy. cbn [fst snd operations].
  unfold mbind, result_bind, from_option in *.
  destruct (applyOperations {| heap := h1; spec := w; conflicts := []; impacts := [] |} ops)
    as [σf| |] eqn:Hrun; try done.
  destruct (validateSpec (heap σf) (spec σf)) as [checks| |] eqn:Hval; try done.
  simplify_eq.
  destruct (applyOperations_surviving ops _ _
              {| heap := h1; spec := w; conflicts := []; impacts := [] |} Hrun)
    as (τf & sk & dn & H1 & H2 & H3 & H4 & H5 & H6 & H7 & H8); [done..|].
  simpl in *. rewrite H1, H2, H3, Hval.
  eexists _, sk. split; [done|]. simpl.
  rewrite H4, H5, H6, H7. simpl. done.
Qed.

(** ** What the validator reports *)

Lemma visit_found (fuel : nat) (entities : list Entity) :
  ∀ e st b st', visit fuel entities e st = Some (b, st') → found_after b st st'.
Proof.
  induction fuel as [|fuel IH]; intros e st b st' Hv; [done|].
  cbn [visit] in Hv.
  destruct (decide (ent_id e ∈ stack st)); [simplify_eq; by eexists|].
  destruct (decide (ent_id e ∈ visited st)); [by simplify_eq|].
  set (st1 := {| visited := visited st ∪ {[ent_id e]};
                 stack := stack st ∪ {[ent_id e]}; found := found st |}) in *.
  assert (Hloop : ∀ rels st2 b st3,
            visit_relations (visit fuel entities) entities rels st2 = Some (b, st3) →
            found_after b st2 st3).
  { induction rels as [|r rels IHr]; intros st2 b2 st3 Hl; cbn [visit_relations] in Hl.
    - by simplify_eq.
    - destruct (find_target entities (target r)) as [t|]; [|by eapply IHr].
      destruct (visit fuel entities t st2) as [[[] st4]|] eqn:Hvt; [| |done].
      + simplify_eq. by eapply (IH t st2 true).
      + apply IH in Hvt. apply IHr in Hl. simpl in Hvt.
        unfold found_after in *. by rewrite <- Hvt. }
  destruct (visit_relations _ _ _ st1) as [[[] st2]|] eqn:Hl; [| |done].
  - simplify_eq. by apply Hloop in Hl.
  - simplify_eq. by apply Hloop in Hl.
Qed.

Lemma visit_all_found (fuel : nat) (entities todo : list Entity) :
  ∀ st st', visit_all fuel entities todo st = Some st' →
    ∃ more, found st' = found st ++ more ∧
            Forall (λ c, ctype c = circular_relation) more.
Proof.
  induction todo as [|e todo IH]; intros st st' Hv; cbn [visit_all] in Hv.
  - simplify_eq. exists []. by rewrite app_nil_r.
  - destruct (decide (ent_id e ∈ visited st)); [by apply IH|].
    destruct (visit fuel entities e st) as [[b st1]|] eqn:Hvt; [|done].
    apply visit_found in Hvt. apply IH in Hv as (more & Hm & Hall).
    destruct b; simpl in Hvt.
    + destruct Hvt as [x Hx]. exists (circular_conflict x :: more).
      split; [by rewrite Hm, Hx, <- app_assoc|]. by constructor.
    + exists more. by rewrite Hm, Hvt.
Qed.

(** The cycle check reports circular-relation conflicts only. *)
Lemma validateCircularRelations_types (entities : list Entity) (cs : list ChangeConflict) :
  validateCircularRelations entities = Ok cs →
  Forall (λ c, ctype c = circular_relation) cs.
Proof.
  unfold validateCircularRelations.
  destruct (visit_all _ _ _ _) as [st|] eqn:Hv; [|done].
  intros [= <-]. by apply visit_all_found in Hv as (more & -> & Hall).
Qed.

Lemma check_entities_types (seen : gset string) (es : list Entity) :
  Forall (λ c, ctype c = naming ∨ ctype c = missing_field) (check_entities seen es).
Proof.
  revert seen. induction es as [|e es IH]; intros seen; cbn [check_entities]; [done|].
  assert (Hf : Forall (λ c, ctype c = naming ∨ ctype c = missing_field)
                 (field_conflicts e)).
  { unfold field_conflicts. induction (fields e) as [|f fs IHf]; simpl; [done|].
    destruct (_ || _); simpl; [constructor; [by right|done]|done]. }
  destruct (decide _).
  - constructor; [by left|]. apply Forall_app; auto.
  - apply Forall_app; auto.
Qed.

Lemma check_endpoints_types (seen : gset string) (ps : list Endpoint) :
  Forall (λ c, ctype c = naming) (check_endpoints seen ps).
Proof.
  revert seen. induction ps as [|p ps IH]; intros seen; cbn [check_endpoints]; [done|].
  destruct (decide _); [constructor|]; auto.
Qed.

(** The validator returns whenever both arrays are there, and throws
    otherwise. *)
Lemma validateSpec_returns (h : Store) (s : Spec) (es ps : list ref) :
  entities s = Some es → endpoints s = Some ps →
  ∃ circular,
    validateCircularRelations (deref (ents h) es) = Ok circular ∧
    validateSpec h s = Ok (check_entities ∅ (deref (ents h) es) ++
                           check_endpoints ∅ (deref (eps h) ps) ++ circular).
Proof.
  intros He Hp. unfold validateSpec. rewrite He, Hp.
  destruct (validateCircularRelations_returns (deref (ents h) es)) as [cs Hcs].
  exists cs. by rewrite Hcs.
Qed.

Lemma validateSpec_throws (h : Store) (s : Spec) :
  entities s = None ∨ endpoints s = None → validateSpec h s = Throw TypeError.
Proof.
  unfold validateSpec. intros [-> | ->]; [done|]. by destruct (entities s).
Qed.

(** ** Inputs that are not well shaped *)

















(** C4, as stated, fails: the validator does not treat a missing array
    as an empty one, it raises. *)
Lemma validateSpec_raises_on_missing_list :
  validateSpec empty_store spec_without_entities = Throw TypeError ∧
  ¬ (∀ h s,
       entities s = None ∨ entities s = Some [] ∨
       endpoints s = None ∨ endpoints s = Some [] →
       ∃ cs, validateSpec h s = Ok cs).
Proof.
  split; [reflexivity|]. intros Hall.
  destruct (Hall empty_store spec_without_entities) as [cs Hcs]; [by left|].
  discriminate Hcs.
Qed.

(** C4, amended. With an empty [entities] array the validator returns
    the duplicate-endpoint findings and nothing else; with an empty
    [endpoints] array it returns the entity findings and the cycle
    findings and nothing else; with either array missing it raises a
    [TypeError]. *)
Theorem validateSpec_tolerates_empty_lists (h : Store) (s : Spec) :
  (∀ ps, entities s = Some [] → endpoints s = Some ps →
     validateSpec h s = Ok (check_endpoints ∅ (deref (eps h) ps))) ∧
  (∀ es, entities s = Some es → endpoints s = Some [] →
     ∃ circular,
       validateCircularRelations (deref (ents h) es) = Ok circular ∧
       validateSpec h s = Ok (check_entities ∅ (deref (ents h) es) ++ circular)) ∧
  (entities s = None ∨ endpoints s = None → validateSpec h s = Throw TypeError).
Proof.
  split; [|split].
  - intros ps He Hp. unfold validateSpec. rewrite He, Hp. simpl.
    by rewrite app_nil_r.
  - intros es He Hp.
    destruct (validateSpec_returns h s es [] He Hp) as (cs & Hcs & Hv).
    exists cs. by rewrite Hv.
  - apply validateSpec_throws.
Qed.

(** ** Cycles *)

(** While every marked id is still on the stack and every entity has a
    resolvable relation, a call of [visit] can only end on the stack. *)
Lemma visit_trapped (fuel : nat) (entities : list Entity) :
  (∀ e, e ∈ entities → has_edge_out entities e) →
  ∀ e st b st',
    e ∈ entities → visited st ⊆ stack st →
    visit fuel entities e st = Some (b, st') → b = true.
Proof.
  intros Hout. induction fuel as [|fuel IH]; intros e st b st' He Hsub Hv; [done|].
  cbn [visit] in Hv.
  destruct (decide (ent_id e ∈ stack st)); [by simplify_eq|].
  destruct (decide (ent_id e ∈ visited st)); [set_solver|].
  set (st1 := {| visited := visited st ∪ {[ent_id e]};
                 stack := stack st ∪ {[ent_id e]}; found := found st |}) in *.
  assert (Hloop : ∀ rels st2 b2 st3,
            (∃ r, r ∈ rels ∧ is_Some (find_target entities (target r))) →
            visited st2 ⊆ stack st2 →
            visit_relations (visit fuel entities) entities rels st2 = Some (b2, st3) →
            b2 = true).
  { induction rels as [|r rels IHr]; intros st2 b2 st3 (r0 & Hr0 & Hres) Hsub2 Hl;
      cbn [visit_relations] in Hl; [by apply elem_of_nil in Hr0|].
    destruct (find_target entities (target r)) as [t|] eqn:Hf.
    - apply find_target_Some in Hf as [Ht _].
      destruct (visit fuel entities t st2) as [[b4 st4]|] eqn:Hvt; [|done].
      apply IH in Hvt; [|done..]. subst b4. by simplify_eq.
    - eapply IHr; [|done..]. exists r0. split; [|done].
      apply elem_of_cons in Hr0 as [->|]; [|done].
      rewrite Hf in Hres. by destruct Hres. }
  destruct (visit_relations _ _ _ st1) as [[b2 st2]|] eqn:Hl; [|done].
  apply Hloop in Hl; [|by apply Hout|simpl; set_solver]. subst b2. by simplify_eq.
Qed.

(** Every entity has a resolvable relation: the check reports a cycle. *)
Lemma validateCircularRelations_trapped (entities : list Entity) :
  entities ≠ [] → (∀ e, e ∈ entities → has_edge_out entities e) →
  ∃ cs c, validateCircularRelations entities = Ok cs ∧ c ∈ cs ∧
          ctype c = circular_relation.
Proof.
  intros Hne Hout.
  destruct (validateCircularRelations_returns entities) as [cs Hcs].
  exists cs. unfold validateCircularRelations in *.
  destruct (visit_all _ _ _ _) as [stf|] eqn:Hall; [|done]. simplify_eq.
  destruct entities as [|e0 rest]; [done|]. cbn [visit_all] in Hall.
  destruct (decide (ent_id e0 ∈ visited dfs_init)); [set_solver|].
  destruct (visit _ _ e0 dfs_init) as [[b st1]|] eqn:Hv; [|done].
  assert (b = true) as ->.
  { eapply visit_trapped; [done| | |done]; [set_solver|done]. }
  apply visit_found in Hv as [x Hx]. apply visit_all_found in Hall as (more & Hm & _).
  exists (circular_conflict x). rewrite Hm, Hx. set_solver.
Qed.

(** While the ids on the stack all rank above the entity visited and
    ranks fall along resolved relations, a call of [visit] returns
    [false] and leaves the stack as it was. *)
Lemma visit_ranked (fuel : nat) (entities : list Entity) (rank : string → nat) :
  (∀ e r t, e ∈ entities → r ∈ relations e →
     find_target entities (target r) = Some t →
     rank (ent_id t) < rank (ent_id e)) →
  ∀ e st b st',
    e ∈ entities → (∀ i, i ∈ stack st → rank (ent_id e) < rank i) →
    visit fuel entities e st = Some (b, st') →
    b = false ∧ stack st' = stack st.
Proof.
  intros Hrank. induction fuel as [|fuel IH]; intros e st b st' He Habove Hv; [done|].
  cbn [visit] in Hv.
  destruct (decide (ent_id e ∈ stack st)) as [Hin|Hnin];
    [apply Habove in Hin; lia|].
  destruct (decide (ent_id e ∈ visited st)); [by simplify_eq|].
  set (st1 := {| visited := visited st ∪ {[ent_id e]};
                 stack := stack st ∪ {[ent_id e]}; found := found st |}) in *.
  assert (Hloop : ∀ rels st2 b2 st3,
            (∀ r, r ∈ rels → r ∈ relations e) → stack st2 = stack st1 →
            visit_relations (visit fuel entities) entities rels st2 = Some (b2, st3) →
            b2 = false ∧ stack st3 = stack st1).
  { induction rels as [|r rels IHr]; intros st2 b2 st3 Hrels Hstack Hl;
      cbn [visit_relations] in Hl; [by simplify_eq|].
    assert (Hrest : ∀ r', r' ∈ rels → r' ∈ relations e) by set_solver.
    destruct (find_target entities (target r)) as [t|] eqn:Hf; [|by eapply IHr].
    assert (Hlt : rank (ent_id t) < rank (ent_id e)).
    { eapply Hrank; [done| |done]. apply Hrels. set_solver. }
    apply find_target_Some in Hf as [Ht _].
    destruct (visit fuel entities t st2) as [[b4 st4]|] eqn:Hvt; [|done].
    apply IH in Hvt as [-> Hst4]; [|done|].
    - eapply IHr; [done| |done]. congruence.
    - intros i Hi. rewrite Hstack in Hi. simpl in Hi.
      apply elem_of_union in Hi as [Hi|Hi]; [apply Habove in Hi; lia|].
      apply elem_of_singleton in Hi as ->. done. }
  destruct (visit_relations _ _ _ st1) as [[b2 st2]|] eqn:Hl; [|done].
  apply Hloop in Hl as [-> Hst2]; [|done..]. simplify_eq. split; [done|].
  simpl. rewrite Hst2. simpl. set_solver.
Qed.

(** Ranks fall along resolved relations: the check reports nothing. *)
Lemma validateCircularRelations_ranked (entities : list Entity) (rank : string → nat) :
  (∀ e r t, e ∈ entities → r ∈ relations e →
     find_target entities (target r) = Some t →
     rank (ent_id t) < rank (ent_id e)) →
  validateCircularRelations entities = Ok [].
Proof.
  intros Hrank.
  destruct (validateCircularRelations_returns entities) as [cs Hcs].
  rewrite Hcs. f_equal. unfold validateCircularRelations in Hcs.
  destruct (visit_all _ _ _ _) as [stf|] eqn:Hall; [|done]. simplify_eq.
  assert (Hgen : ∀ todo st stf,
            (∀ e, e ∈ todo → e ∈ entities) → stack st = ∅ → found st = [] →
            visit_all (S (length entities)) entities todo st = Some stf →
            found stf = []); [|by eapply (Hgen entities dfs_init)].
  clear stf Hall. induction todo as [|e todo IH]; intros st stf Hsub Hst Hf Hall;
    cbn [visit_all] in Hall; [by simplify_eq|].
  assert (Hrest : ∀ e', e' ∈ todo → e' ∈ entities) by set_solver.
  destruct (decide (ent_id e ∈ visited st)); [by eapply IH|].
  destruct (visit _ _ e st) as [[b st1]|] eqn:Hv; [|done].
  pose proof Hv as Hfound%visit_found.
  eapply visit_ranked in Hv as [-> Hst1]; [|done|set_solver|set_solver].
  simpl in Hfound. eapply IH; [done| | |done]; congruence.
Qed.

(** C5, as stated, fails in its second half: the relation graph below is
    the chain A→B→C with no back edge, and the validator reports a
    circular relation, because it tracks its stack by id and A and C
    share one. *)
Lemma chain_with_shared_id_reports_cycle :
  deref (ents chain_store) [0; 1; 2] = [chain_A; chain_B; chain_C] ∧
  points_to chain_A chain_B ∧ points_to chain_B chain_C ∧
  (∀ X Y, X ∈ [chain_A; chain_B; chain_C] → Y ∈ [chain_A; chain_B; chain_C] →
     points_to X Y → (X = chain_A ∧ Y = chain_B) ∨ (X = chain_B ∧ Y = chain_C)) ∧
  ∃ cs c, validateSpec chain_store chain_spec = Ok cs ∧ c ∈ cs ∧
          ctype c = circular_relation.
Proof.
  split; [reflexivity|]. split; [|split; [|split]].
  - eexists. split; [apply list_elem_of_here|]. by right.
  - eexists. split; [apply list_elem_of_here|]. by right.
  - intros X Y HX HY (r & Hr & Ht).
    elem_cases HX; elem_cases HY; simpl in Hr; elem_cases Hr; simpl in Ht;
      destruct Ht as [Ht|Ht]; try discriminate Ht; auto.
  - eexists _, _. split; [vm_compute; reflexivity|]. split; [apply list_elem_of_here|done].
Qed.

(** C5, amended. For a spec whose entities are A, B and C in any order:
    if their relations form the cycle A→B→C→A, the validator reports at
    least one circular-relation conflict; if the three ids are pairwise
    distinct and the relation graph has no edge besides A→B and B→C, it
    reports none. *)
Theorem cycle_detection (h : Store) (s : Spec) (es ps : list ref) (A B C : Entity) :
  entities s = Some es → endpoints s = Some ps →
  deref (ents h) es ≡ₚ [A; B; C] →
  (points_to A B → points_to B C → points_to C A →
   ∃ cs c, validateSpec h s = Ok cs ∧ c ∈ cs ∧ ctype c = circular_relation) ∧
  (NoDup [ent_id A; ent_id B; ent_id C] →
   (∀ X Y, X ∈ [A; B; C] → Y ∈ [A; B; C] → points_to X Y →
      (X = A ∧ Y = B) ∨ (X = B ∧ Y = C)) →
   ∃ cs, validateSpec h s = Ok cs ∧ ∀ c, c ∈ cs → ctype c ≠ circular_relation).
Proof.
  intros He Hp Hperm.
  destruct (validateSpec_returns h s es ps He Hp) as (circular & Hcirc & ->).
  set (l := deref (ents h) es) in *.
  assert (Hmem : ∀ e, e ∈ l ↔ e ∈ [A; B; C]) by (intros e; by rewrite Hperm).
  split.
  - intros HAB HBC HCA.
    destruct (validateCircularRelations_trapped l) as (cs & c & Hcs & Hc & Hty).
    + intros Hnil. apply Permutation_length in Hperm. by rewrite Hnil in Hperm.
    + assert (Hedge : ∀ X Y, Y ∈ l → points_to X Y → has_edge_out l X).
      { intros X Y HY (r & Hr & Ht). exists r. split; [done|].
        eapply find_target_matches; [done|]. destruct Ht; auto. }
      intros e Hin. apply Hmem in Hin. elem_cases Hin;
        eapply Hedge; try done; apply Hmem; set_solver.
    + rewrite Hcirc in Hcs. simplify_eq. eexists _, c. split; [done|].
      split; [|done]. set_solver.
  - intros Hids Hchain.
    apply NoDup_cons in Hids as [HA Hids]. apply NoDup_cons in Hids as [HB _].
    set (rank := λ i : string,
           if decide (i = ent_id A) then 2 else if decide (i = ent_id B) then 1 else 0).
    rewrite (validateCircularRelations_ranked l rank) in Hcirc.
    + simplify_eq. eexists. split; [done|]. intros c Hc. rewrite app_nil_r in Hc.
      apply elem_of_app in Hc as [Hc|Hc].
      * pose proof (check_entities_types ∅ l) as Hty.
        rewrite Forall_forall in Hty. apply Hty in Hc. destruct Hc; congruence.
      * pose proof (check_endpoints_types ∅ (deref (eps h) ps)) as Hty.
        rewrite Forall_forall in Hty. apply Hty in Hc. congruence.
    + intros e r t Hin Hr Hf. apply find_target_Some in Hf as [Ht Hm].
      destruct (Hchain e t) as [[-> ->]|[-> ->]]; [by apply Hmem..| | |].
      * exists r. split; [done|]. destruct Hm; auto.
      * unfold rank. repeat case_decide; try lia; set_solver.
      * unfold rank. repeat case_decide; try lia; set_solver.
Qed.

(** ** The store and the deep copy *)

Lemma find_elem {A} (p : A → bool) (l : list A) (x : A) :
  List.find p l = Some x → x ∈ l ∧ p x = true.
Proof. intros Hf. apply find_some in Hf as [Hin Hp]. by rewrite list_elem_of_In. Qed.

Lemma filter_elem {A} (p : A → bool) (l : list A) (x : A) :
  x ∈ List.filter p l → x ∈ l.
Proof. rewrite !list_elem_of_In, filter_In. tauto. Qed.

Lemma same_objects_refl (cur : Spec) (h : Store) : same_objects cur h h.
Proof. by repeat split. Qed.

Lemma same_objects_trans (cur : Spec) (h1 h2 h3 : Store) :
  same_objects cur h1 h2 → same_objects cur h2 h3 → same_objects cur h1 h3.
Proof.
  intros (A1 & A2 & A3) (B1 & B2 & B3).
  repeat split; intros r Hr; [rewrite B1, A1|rewrite B2, A2|rewrite B3, A3]; done.
Qed.

(** One operation writes only to objects of the working spec. *)
Lemma applyOperation_apart (cur : Spec) (h h' : Store) (s s' : Spec)
    (op : ChangeOperation) (o : outcome) :
  apart cur s → shares_no_object cur op →
  applyOperation h s op = Ok (h', s', o) →
  apart cur s' ∧ same_objects cur h h'.
Proof.
  intros (Ar & Ae & Ap) Hop Hstep.
  destruct op; step_cases;
    repeat match goal with
    | H : List.find _ _ = Some _ |- _ => apply find_elem in H as [H _]
    end;
    (split; [unfold apart; simpl; repeat split; try done; intros y Hy;
             repeat match goal with
             | H : _ = Some _ |- _ => rewrite H in Hy; simpl in Hy
             end;
             try (apply filter_elem in Hy); try (apply elem_of_app in Hy as [Hy|Hy]);
             try (apply list_elem_of_singleton in Hy as ->); auto
            |unfold same_objects; simpl; repeat split; try done; intros y Hy;
             apply list_lookup_total_insert_ne; intros ->; naive_solver]).
Qed.

Lemma applyOperations_apart (cur : Spec) (ops : list ChangeOperation) :
  ∀ σ σ', apart cur (spec σ) → Forall (shares_no_object cur) ops →
    applyOperations σ ops = Ok σ' → same_objects cur (heap σ) (heap σ').
Proof.
  induction ops as [|op ops IH]; intros σ σ' Hap Hops Hrun;
    cbn [applyOperations] in Hrun.
  - simplify_eq. apply same_objects_refl.
  - apply Forall_cons in Hops as [Hop Hops]. unfold mbind, result_bind in Hrun.
    destruct (applyOperation (heap σ) (spec σ) op) as [[[h' s'] o]| |] eqn:Hstep;
      try done.
    destruct (applyOperation_apart cur _ _ _ _ _ _ Hap Hop Hstep) as [Hap' Hsame].
    eapply same_objects_trans; [done|].
    assert (heap (record σ (h', s', o)) = h' ∧ spec (record σ (h', s', o)) = s')
      as [Hh Hs] by (by destruct o).
    rewrite <- Hh. apply IH; [by rewrite Hs|done|done].
Qed.

Lemma copy_array_apart {A} `{Inhabited A} (h : list A) (o : option (list ref)) :
  wf_opt h o →
  (∀ r, r ∈ refs_of (copy_array h o).2 → r ∉ refs_of o) ∧
  (∀ r, r ∈ refs_of o → (copy_array h o).1 !!! r = h !!! r).
Proof.
  destruct o as [l|]; simpl; [|by split; [intros r Hr; by apply elem_of_nil in Hr|]].
  intros Hwf. unfold wf_refs in Hwf. rewrite Forall_forall in Hwf. split.
  - intros r Hr Hin. apply elem_of_seq in Hr. apply Hwf in Hin. lia.
  - intros r Hr. apply lookup_total_app_l. by apply Hwf.
Qed.

Lemma deep_copy_apart (h : Store) (cur : Spec) :
  wf_spec h cur →
  apart cur (deep_copy h cur).2 ∧ same_objects cur h (deep_copy h cur).1.
Proof.
  intros (Wr & We & Wp). unfold deep_copy.
  pose proof (copy_array_apart _ _ Wr) as [R1 R2].
  pose proof (copy_array_apart _ _ We) as [E1 E2].
  pose proof (copy_array_apart _ _ Wp) as [P1 P2].
  destruct (copy_array (reqs h) _), (copy_array (ents h) _), (copy_array (eps h) _).
  by split.
Qed.

Lemma same_objects_snapshot (cur : Spec) (h h' : Store) :
  same_objects cur h h' → snapshot h' cur = snapshot h cur.
Proof.
  intros (Hr & He & Hp). unfold snapshot.
  assert (Hview : ∀ A (I : Inhabited A) (l l' : list A) o,
            (∀ r, r ∈ refs_of o → l' !!! r = l !!! r) → view l' o = view l o).
  { intros A I l l' [rs|] Hsame; [|done]. unfold view, deref. simpl. f_equal.
    apply map_ext_in. intros x Hx%list_elem_of_In. by apply Hsame. }
  f_equal; by apply Hview.
Qed.

(** C2, as stated, fails: a request may hand back an object of the
    current spec as the payload of an add operation; the applier pushes
    that object itself, and a later update of it writes through to the
    current spec. *)
Lemma apply_mutates_shared_object :
  ∃ res,
    applyChangeRequestToSpec shared_store shared_spec shared_request = Ok res ∧
    conflicts res = [] ∧
    entities_of (snapshot shared_store shared_spec) = Some [entity "e1" "A" []] ∧
    entities_of (snapshot (heap res) shared_spec) = Some [entity "e1" "B" []] ∧
    snapshot (heap res) shared_spec ≠ snapshot shared_store shared_spec.
Proof.
  eexists. split; [vm_compute; reflexivity|]. repeat split. intros Heq.
  apply (f_equal entities_of) in Heq. vm_compute in Heq. discriminate Heq.
Qed.

(** C2, amended. When no add operation of the request carries an object
    of the current spec, the current spec is deep-equal after the call to
    what it was before. *)
Theorem apply_does_not_mutate_input (h : Store) (cur : Spec) (req : ChangeRequest)
    (res : ApplyResult) :
  wf_spec h cur →
  Forall (shares_no_object cur) (default [] (operations req)) →
  applyChangeRequestToSpec h cur req = Ok res →
  snapshot (heap res) cur = snapshot h cur.
Proof.
  intros Hwf Hsep Happly. apply same_objects_snapshot.
  destruct (deep_copy_apart h cur Hwf) as [Hap Hsame].
  unfold applyChangeRequestToSpec, mbind, result_bind, from_option in Happly.
  destruct (deep_copy h cur) as [h1 w]. simpl in *.
  destruct (operations req) as [ops|]; [|done]. simpl in Hsep.
  destruct (applyOperations _ ops) as [σ| |] eqn:Hrun; try done.
  destruct (validateSpec _ _); try done. simplify_eq. simpl.
  eapply same_objects_trans; [done|].
  by apply (applyOperations_apart cur ops) in Hrun.
Qed.

Lemma deref_copy {A} `{Inhabited A} (vs pre : list A) :
  deref (pre ++ vs) (seq (length pre) (length vs)) = vs.
Proof.
  revert pre. induction vs as [|v vs IH]; intros pre; [done|].
  cbn [length seq]. unfold deref in *. cbn [map]. f_equal.
  - rewrite lookup_total_app_r by lia. by rewrite Nat.sub_diag.
  - specialize (IH (pre ++ [v])). rewrite <- app_assoc, length_app in IH.
    simpl in IH. by rewrite Nat.add_1_r in IH.
Qed.

Lemma existsb_deref {A} `{Inhabited A} (f : A → bool) (h : list A) (l : list ref) :
  existsb (λ x, f (h !!! x)) l = existsb f (deref h l).
Proof. induction l as [|x l IH]; simpl; [done|]. by rewrite IH. Qed.

(** The copy is deep-equal to the original. *)
Lemma copy_array_view {A} `{Inhabited A} (h : list A) (o : option (list ref)) :
  view (copy_array h o).1 (copy_array h o).2 = view h o.
Proof.
  destruct o as [l|]; [|done]. unfold view. simpl. f_equal.
  pose proof (deref_copy (deref h l) h) as Hc.
  unfold deref in *. by rewrite length_map in Hc.
Qed.

Lemma deep_copy_snapshot (h : Store) (cur : Spec) :
  snapshot (deep_copy h cur).1 (deep_copy h cur).2 = snapshot h cur.
Proof.
  unfold deep_copy, snapshot.
  pose proof (copy_array_view (reqs h) (requirements cur)) as Hr.
  pose proof (copy_array_view (ents h) (entities cur)) as He.
  pose proof (copy_array_view (eps h) (endpoints cur)) as Hp.
  destruct (copy_array (reqs h) _), (copy_array (ents h) _), (copy_array (eps h) _).
  simpl in *. by rewrite Hr, He, Hp.
Qed.

(** The validator reads the value of the spec only. *)
Lemma validateSpec_snapshot (h h' : Store) (s s' : Spec) :
  snapshot h s = snapshot h' s' → validateSpec h s = validateSpec h' s'.
Proof.
  intros Heq. pose proof (f_equal entities_of Heq) as He.
  pose proof (f_equal endpoints_of Heq) as Hp.
  unfold validateSpec. unfold snapshot, view in He, Hp. simpl in He, Hp.
  destruct (entities s), (entities s'); simplify_eq/=; [|done].
  destruct (endpoints s), (endpoints s'); simplify_eq/=; [|done].
  by rewrite He, Hp.
Qed.

(** ** Adding an entity *)

(** C6. On a spec that holds an entity named "User" and that the
    validator accepts, a request whose one operation adds an entity named
    "User" yields exactly one conflict, of type naming; the proposed spec
    has as many entities as the current one, and indeed the same value. *)
Theorem duplicate_entity_name_rejected (h : Store) (cur : Spec) (req : ChangeRequest)
    (es : list ref) (r : ref) :
  r < length (ents h) →
  entities cur = Some es →
  (∃ x, x ∈ es ∧ ent_name (ents h !!! x) = "User") →
  validateSpec h cur = Ok [] →
  ent_name (ents h !!! r) = "User" →
  operations req = Some [addEntity r] →
  ∃ res c es',
    applyChangeRequestToSpec h cur req = Ok res ∧
    conflicts res = [c] ∧ ctype c = naming ∧
    entities (spec res) = Some es' ∧ length es' = length es ∧
    snapshot (heap res) (spec res) = snapshot h cur.
Proof.
  intros Hr He (x & Hx & Hname) Hvalid Hnew Hops.
  unfold applyChangeRequestToSpec. rewrite Hops.
  pose proof (deep_copy_snapshot h cur) as Hsnap.
  assert (Hcopy : entities (deep_copy h cur).2
                  = Some (seq (length (ents h)) (length es)) ∧
                  ents (deep_copy h cur).1 = ents h ++ deref (ents h) es).
  { unfold deep_copy. rewrite He. simpl.
    by destruct (copy_array (reqs h) _), (copy_array (eps h) _). }
  destruct (deep_copy h cur) as [h1 w]. simpl in *. destruct Hcopy as [Hw Hh1].
  unfold mbind, result_bind, from_option. rewrite Hw.
  assert (Hdup : existsb (λ y, bool_decide (ent_name (ents h1 !!! y)
                                            = ent_name (ents h1 !!! r)))
                   (seq (length (ents h)) (length es)) = true).
  { pose proof (existsb_deref
        (λ e, bool_decide (ent_name e = ent_name (ents h1 !!! r)))
        (ents h1) (seq (length (ents h)) (length es))) as Hex.
    simpl in Hex. rewrite Hex. clear Hex. rewrite Hh1. pose proof (deref_copy (deref (ents h) es) (ents h)) as Hc.
    unfold deref at 3 in Hc. rewrite length_map in Hc. rewrite Hc.
    rewrite lookup_total_app_l by done. rewrite Hnew.
    apply existsb_exists. exists (ents h !!! x). split.
    - apply in_map_iff. exists x. split; [done|]. by apply list_elem_of_In.
    - by apply bool_decide_eq_true. }
  rewrite Hdup. simpl.
  rewrite (validateSpec_snapshot h1 h w cur Hsnap), Hvalid.
  eexists _, _, (seq (length (ents h)) (length es)). simpl.
  repeat split; try done. by rewrite length_seq.
Qed.

(** Every object of the copy is the copy of an object of the original. *)
Lemma copy_lookup {A} `{Inhabited A} (h : list A) (l : list ref) (y : ref) :
  y ∈ seq (length h) (length l) →
  ∃ x, x ∈ l ∧ (h ++ deref h l) !!! y = h !!! x.
Proof.
  intros Hy. pose proof (deref_copy (deref h l) h) as Hc.
  unfold deref at 3 in Hc. rewrite length_map in Hc.
  assert (Hin : In ((h ++ deref h l) !!! y) (deref h l)).
  { rewrite <- Hc at 2. unfold deref at 2. apply in_map_iff.
    exists y. split; [done|]. by apply list_elem_of_In. }
  unfold deref at 2 in Hin. apply in_map_iff in Hin as (x & Hx & Hin).
  exists x. split; [by apply list_elem_of_In|done].
Qed.

Lemma find_app_none {A} (p : A → bool) (l1 l2 : list A) :
  (∀ x, x ∈ l1 → p x = false) → List.find p (l1 ++ l2) = List.find p l2.
Proof.
  induction l1 as [|x l1 IH]; intros Hnone; simpl; [done|].
  rewrite Hnone by apply list_elem_of_here. apply IH. intros y Hy.
  apply Hnone. by apply list_elem_of_further.
Qed.

Lemma existsb_false {A} (p : A → bool) (l : list A) :
  (∀ x, x ∈ l → p x = false) → existsb p l = false.
Proof.
  intros Hnone. destruct (existsb p l) eqn:Hex; [|done].
  apply existsb_exists in Hex as (x & Hx%list_elem_of_In & Hp).
  by rewrite Hnone in Hp.
Qed.

Lemma deep_copy_entities (h : Store) (cur : Spec) (es : list ref) :
  entities cur = Some es →
  entities (deep_copy h cur).2 = Some (seq (length (ents h)) (length es)) ∧
  ents (deep_copy h cur).1 = ents h ++ deref (ents h) es.
Proof.
  intros He. unfold deep_copy. rewrite He. simpl.
  by destruct (copy_array (reqs h) _), (copy_array (eps h) _).
Qed.

Lemma deep_copy_endpoints (h : Store) (cur : Spec) (ps : list ref) :
  endpoints cur = Some ps →
  endpoints (deep_copy h cur).2 = Some (seq (length (eps h)) (length ps)) ∧
  eps (deep_copy h cur).1 = eps h ++ deref (eps h) ps.
Proof.
  intros Hp. unfold deep_copy. rewrite Hp. simpl.
  by destruct (copy_array (reqs h) _), (copy_array (ents h) _).
Qed.

Lemma deref_insert_ne {A} `{Inhabited A} (h : list A) (l : list ref) (r : ref) (v : A) :
  r ∉ l → deref (<[r := v]> h) l = deref h l.
Proof.
  intros Hr. unfold deref. apply map_ext_in. intros y Hy%list_elem_of_In.
  apply list_lookup_total_insert_ne. by intros ->.
Qed.

(** ** Adding and updating in one request *)

(** C7. On a spec with no entity of id [X] and none of the new name, a
    request that adds an entity of id [X] and then updates entity [X]
    with a patch whose name collides with no entity applies both
    operations: two impacts, no conflict but the validator's, and the
    added object carries the patch merged onto it. *)
Theorem add_then_update_in_one_request (h : Store) (cur : Spec) (req : ChangeRequest)
    (es : list ref) (r : ref) (X : string) (patch : EntityPatch) :
  r < length (ents h) →
  entities cur = Some es → is_Some (endpoints cur) →
  ent_id (ents h !!! r) = X →
  (∀ x, x ∈ es → ent_id (ents h !!! x) ≠ X ∧
                 ent_name (ents h !!! x) ≠ ent_name (ents h !!! r)) →
  (truthy_opt (np_name patch) = true →
   ∀ x, x ∈ es → Some (ent_name (ents h !!! x)) ≠ np_name patch) →
  operations req = Some [addEntity r; updateEntity X patch] →
  ∃ res i1 i2,
    applyChangeRequestToSpec h cur req = Ok res ∧
    impacts res = [i1; i2] ∧
    validateSpec (heap res) (spec res) = Ok (conflicts res) ∧
    entities (spec res) = Some (seq (length (ents h)) (length es) ++ [r]) ∧
    ents (heap res) !!! r = assign_entity (ents h !!! r) patch ∧
    deref (ents (heap res)) (seq (length (ents h)) (length es)) = deref (ents h) es.
Proof.
  intros Hr He [ps Hp] HX Hfresh Hpatch Hops.
  unfold applyChangeRequestToSpec. rewrite Hops.
  destruct (deep_copy_entities h cur es He) as [Hw Hh1].
  destruct (deep_copy_endpoints h cur ps Hp) as [Hwp _].
  destruct (deep_copy h cur) as [h1 w]. simpl in Hw, Hh1, Hwp.
  set (copies := seq (length (ents h)) (length es)) in *.
  assert (Hcopy : ∀ y, y ∈ copies → ∃ x, x ∈ es ∧ ents h1 !!! y = ents h !!! x).
  { intros y Hy. rewrite Hh1. by apply copy_lookup. }
  assert (Hr1 : ents h1 !!! r = ents h !!! r).
  { rewrite Hh1. by apply lookup_total_app_l. }
  assert (Hne : r ∉ copies).
  { intros Hy%elem_of_seq. lia. }
  unfold mbind, result_bind, from_option. cbn [applyOperations].
  unfold mbind, result_bind, from_option.
  cbn [applyOperation heap spec]. unfold mbind, result_bind, from_option. rewrite Hw.
  rewrite existsb_false; cycle 1.
  { intros y Hy. destruct (Hcopy y Hy) as (x & Hx & ->). rewrite Hr1.
    apply bool_decide_eq_false. by apply Hfresh. }
  cbn [record heap spec entities with_entities applyOperation].
  unfold mbind, result_bind, from_option.
  rewrite find_app_none; cycle 1.
  { intros y Hy. destruct (Hcopy y Hy) as (x & Hx & ->).
    apply bool_decide_eq_false. by apply Hfresh. }
  cbn [List.find]. rewrite Hr1, bool_decide_eq_true_2 by done.
  assert (Hfree : truthy_opt (np_name patch) &&
            existsb (λ o, negb (bool_decide (ent_id (ents h1 !!! o) = X)) &&
                          bool_decide (Some (ent_name (ents h1 !!! o)) = np_name patch))
              (copies ++ [r]) = false).
  { destruct (truthy_opt (np_name patch)) eqn:Ht; [|done]. simpl.
    apply existsb_false. intros y [Hy|Hy%list_elem_of_singleton]%elem_of_app.
    - destruct (Hcopy y Hy) as (x & Hx & ->).
      apply andb_false_iff. right. apply bool_decide_eq_false. by apply Hpatch.
    - subst y. rewrite Hr1. apply andb_false_iff. left.
      by rewrite bool_decide_eq_true_2. }
  rewrite Hfree. cbn [record heap spec conflicts impacts].
  destruct (validateSpec_returns
              (with_ents h1 (<[r:=assign_entity (ents h !!! r) patch]> (ents h1)))
              (with_entities w (Some (copies ++ [r]))) (copies ++ [r])
              (seq (length (eps h)) (length ps))) as (circular & _ & Hval);
    [done..|].
  rewrite ?Hr1, Hval.
  eexists _, _, _. split; [done|]. cbn [heap spec impacts conflicts].
  repeat split; [done|..].
  - simpl. rewrite list_lookup_total_insert_eq; [done|].
    rewrite Hh1, length_app. lia.
  - simpl. rewrite deref_insert_ne by done. rewrite Hh1.
    pose proof (deref_copy (deref (ents h) es) (ents h)) as Hc.
    unfold deref at 3 in Hc. by rewrite length_map in Hc.
Qed.

(** ** Updating an endpoint *)

(** C8, as stated, fails twice.  A patch that sets the path to the empty
    string is not checked at all, and an endpoint that shares the
    target's id is not compared: in both runs another endpoint already
    has the resulting (method, path) pair, and yet the operation is
    applied (one impact) and the target's path changes. *)
Lemma update_endpoint_collision_missed :
  (∃ res i,
     applyChangeRequestToSpec empty_path_store endpoints_spec empty_path_request = Ok res ∧
     impacts res = [i] ∧
     endpoints_of (snapshot (heap res) (spec res))
     = Some [endpoint_of "a" GET ""; endpoint_of "b" GET ""]) ∧
  (∃ res i,
     applyChangeRequestToSpec shared_id_store endpoints_spec shared_id_request = Ok res ∧
     impacts res = [i] ∧
     endpoints_of (snapshot (heap res) (spec res))
     = Some [endpoint_of "a" GET "/y"; endpoint_of "a" GET "/y"]).
Proof. split; eexists _, _; (split; [vm_compute; reflexivity|]); by split. Qed.

(** C8, amended. For [updateEndpoint] on an endpoint that is found (the
    first with the given id): when the patch carries a method or a
    non-empty path, the resulting (method, path) pair (the patched value
    where the patch has one, the endpoint's own otherwise) is compared
    with every endpoint whose id differs from the given id; if one of
    them has that pair, a naming conflict is reported and neither the
    store nor the working spec changes.  In every other case the patch is
    merged onto the endpoint and one impact is recorded. *)
Theorem update_endpoint_collision (h : Store) (s : Spec) (ps : list ref)
    (endpointId : string) (patch : EndpointPatch) (x : ref) :
  endpoints s = Some ps →
  List.find (λ y, bool_decide (ep_id (eps h !!! y) = endpointId)) ps = Some x →
  let newPath := default (path (eps h !!! x)) (dp_path patch) in
  let newMethod := default (method (eps h !!! x)) (dp_method patch) in
  let checked := truthy_opt (dp_path patch) = true ∨ is_Some (dp_method patch) in
  let taken := ∃ o, o ∈ ps ∧ ep_id (eps h !!! o) ≠ endpointId ∧
                    path (eps h !!! o) = newPath ∧ method (eps h !!! o) = newMethod in
  (checked ∧ taken →
   ∃ c, applyOperation h s (updateEndpoint endpointId patch) = Ok (h, s, Conflict c) ∧
        ctype c = naming) ∧
  (¬ (checked ∧ taken) →
   ∃ i, applyOperation h s (updateEndpoint endpointId patch)
        = Ok (with_eps h (<[x := assign_endpoint (eps h !!! x) patch]> (eps h)), s,
              Impact i)).
Proof.
  intros Hp Hfind newPath newMethod checked taken.
  unfold applyOperation. rewrite Hp. cbn [mbind result_bind from_option].
  rewrite Hfind.
  assert (Hchecked : truthy_opt (dp_path patch) || bool_decide (is_Some (dp_method patch))
                     = true ↔ checked).
  { unfold checked. rewrite orb_true_iff, bool_decide_eq_true. tauto. }
  assert (Htaken : existsb (λ o, negb (bool_decide (ep_id (eps h !!! o) = endpointId)) &&
                               bool_decide (path (eps h !!! o) = newPath) &&
                               bool_decide (method (eps h !!! o) = newMethod)) ps
                   = true ↔ taken).
  { unfold taken. rewrite existsb_exists. split.
    - intros (o & Ho%list_elem_of_In & Hc).
      apply andb_true_iff in Hc as [Hc H3]. apply andb_true_iff in Hc as [H1 H2].
      apply negb_true_iff, bool_decide_eq_false in H1.
      apply bool_decide_eq_true in H2, H3. by exists o.
    - intros (o & Ho & H1 & H2 & H3). exists o. split; [by apply list_elem_of_In|].
      rewrite !andb_true_iff, negb_true_iff, bool_decide_eq_false, !bool_decide_eq_true.
      done. }
  unfold newPath, newMethod in Htaken. split.
  - intros [Hc Ht]. apply Hchecked in Hc. apply Htaken in Ht. rewrite Hc, Ht.
    by eexists.
  - intros Hnot. destruct (_ && _) eqn:Hboth; [|by eexists].
    apply andb_true_iff in Hboth as [Hc Ht]. apply Hchecked in Hc.
    apply Htaken in Ht. tauto.
Qed.

(** ** Renaming an entity to the empty string *)

(** The entity loop of the validator reports nothing exactly when every
    field is well formed and no name occurs twice (or is already seen). *)
Lemma check_entities_nil (es : list Entity) :
  ∀ seen,
    check_entities seen es = [] ↔
    Forall (λ e, field_conflicts e = []) es ∧ NoDup (map ent_name es) ∧
    Forall (λ e, ent_name e ∉ seen) es.
Proof.
  induction es as [|e es IH]; intros seen; cbn [check_entities map].
  - split; [intros _; repeat split; constructor|done].
  - rewrite !Forall_cons, NoDup_cons. destruct (decide (ent_name e ∈ seen)) as [Hin|Hnin].
    + split; [done|]. tauto.
    + rewrite app_nil, IH. rewrite !Forall_forall. split.
      * intros (Hf & Hfs & Hnd & Hseen). repeat split; try done.
        -- intros (x & Hx & Hxin)%list_elem_of_In%in_map_iff.
           apply list_elem_of_In in Hxin. apply Hseen in Hxin. set_solver.
        -- intros x Hx. apply Hseen in Hx. set_solver.
      * intros ((Hf & Hfs) & (Hnew & Hnd) & (_ & Hseen)). repeat split; try done.
        intros x Hx. pose proof (Hseen x Hx).
        assert (ent_name x ≠ ent_name e); [|set_solver].
        intros Heq. apply Hnew. apply list_elem_of_In, in_map_iff.
        exists x. split; [done|]. by apply list_elem_of_In.
Qed.

Lemma field_conflicts_nil (e e' : Entity) :
  fields e' = fields e → field_conflicts e = [] → field_conflicts e' = [].
Proof.
  unfold field_conflicts. intros ->.
  induction (fields e) as [|f fs IH]; cbn [flat_map]; [done|].
  destruct (_ || _); [done|]. simpl. apply IH.
Qed.

Section simulation.

Variables D D' : list Entity.
Hypothesis resolve : ∀ e r, e ∈ D → r ∈ relations e →
  option_Forall2 alike (find_target D (target r)) (find_target D' (target r)).

Lemma visit_alike (fuel : nat) :
  ∀ e e' st st' b st1,
    e ∈ D → alike e e' → same_marks st st' →
    visit fuel D e st = Some (b, st1) →
    ∃ st1', visit fuel D' e' st' = Some (b, st1') ∧ same_marks st1 st1'.
Proof.
  induction fuel as [|fuel IH]; intros e e' st st' b st1 He [Hid Hrel] [Hv Hs] Hvis;
    [done|].
  cbn [visit] in *. rewrite Hid, Hrel, <- Hv, <- Hs.
  destruct (decide (ent_id e ∈ stack st)); [simplify_eq; by eexists|].
  destruct (decide (ent_id e ∈ visited st)); [simplify_eq; by eexists|].
  set (st1a := {| visited := visited st ∪ {[ent_id e]};
                  stack := stack st ∪ {[ent_id e]}; found := found st |}) in *.
  set (st1b := {| visited := visited st ∪ {[ent_id e]};
                  stack := stack st ∪ {[ent_id e]}; found := found st' |}).
  assert (Hloop : ∀ rels st2 st2' b2 st3,
            (∀ r, r ∈ rels → r ∈ relations e) → same_marks st2 st2' →
            visit_relations (visit fuel D) D rels st2 = Some (b2, st3) →
            ∃ st3', visit_relations (visit fuel D') D' rels st2' = Some (b2, st3') ∧
                    same_marks st3 st3').
  { induction rels as [|r rels IHr]; intros st2 st2' b2 st3 Hsub Hm Hl;
      cbn [visit_relations] in *; [simplify_eq; by eexists|].
    assert (Hrest : ∀ r', r' ∈ rels → r' ∈ relations e) by set_solver.
    assert (Hr : r ∈ relations e) by set_solver.
    pose proof (resolve e r He Hr) as Hres.
    destruct (find_target D (target r)) as [t|] eqn:Hf,
             (find_target D' (target r)) as [t'|] eqn:Hf';
      inversion Hres as [? ? Htt|]; subst; [|by eapply IHr].
    apply find_target_Some in Hf as [Ht _].
    destruct (visit fuel D t st2) as [[b4 st4]|] eqn:Hvt; [|done].
    destruct (IH t t' st2 st2' b4 st4 Ht Htt Hm Hvt) as (st4' & -> & Hm4).
    destruct b4; [simplify_eq; by eexists|]. by eapply IHr. }
  destruct (visit_relations (visit fuel D) D (relations e) st1a)
    as [[b2 st2]|] eqn:Hl; [|done].
  destruct (Hloop (relations e) st1a st1b b2 st2) as (st2' & Hl' & [Hv2 Hs2]);
    [done|by split|done|].
  rewrite Hl'. destruct b2; simplify_eq; eexists; (split; [done|]);
    split; simpl; congruence.
Qed.

Lemma visit_all_alike (fuel : nat) (todo todo' : list Entity) :
  Forall2 alike todo todo' → (∀ e, e ∈ todo → e ∈ D) →
  ∀ st st' stf,
    same_marks st st' → length (found st) = length (found st') →
    visit_all fuel D todo st = Some stf →
    ∃ stf', visit_all fuel D' todo' st' = Some stf' ∧
            length (found stf) = length (found stf').
Proof.
  induction 1 as [|e e' todo todo' Hee Htodo IH]; intros Hsub st st' stf Hm Hlen Hall;
    cbn [visit_all] in *; [simplify_eq; by eexists|].
  assert (Hrest : ∀ x, x ∈ todo → x ∈ D) by set_solver.
  assert (He : e ∈ D) by set_solver.
  destruct Hee as [Hid Hrel]. destruct Hm as [Hv Hs]. rewrite Hid, <- Hv.
  destruct (decide (ent_id e ∈ visited st)); [by eapply IH|].
  destruct (visit fuel D e st) as [[b st1]|] eqn:Hvis; [|done].
  destruct (visit_alike fuel e e' st st' b st1 He) as (st1' & Hvis' & Hm1);
    [done|done|done|].
  rewrite Hvis'. eapply IH; [done|done| |done].
  apply visit_found in Hvis, Hvis'. destruct b; simpl in *.
  - destruct Hvis as [x ->], Hvis' as [x' ->]. rewrite !length_app. simpl. lia.
  - congruence.
Qed.

(** The cycle check finds as many conflicts in [D'] as in [D]. *)
Lemma validateCircularRelations_alike (cs : list ChangeConflict) :
  Forall2 alike D D' → validateCircularRelations D = Ok cs →
  ∃ cs', validateCircularRelations D' = Ok cs' ∧ length cs = length cs'.
Proof.
  intros Hall Hcs. unfold validateCircularRelations in *.
  rewrite <- (Forall2_length _ _ _ Hall).
  destruct (visit_all _ D D dfs_init) as [stf|] eqn:Hv; [|done]. simplify_eq.
  destruct (visit_all_alike (S (length D)) D D' Hall (λ e He, He)
              dfs_init dfs_init stf) as (stf' & -> & Hlen); [done..|].
  by eexists.
Qed.

End simulation.

Lemma alike_refl (l : list Entity) : Forall2 alike l l.
Proof. induction l; constructor; [by split|done]. Qed.

Lemma alike_renamed (l1 l2 : list Entity) (E : Entity) (n : string) :
  Forall2 alike (l1 ++ E :: l2) (l1 ++ renamed E n :: l2).
Proof.
  apply Forall2_app; [apply alike_refl|].
  constructor; [by split|apply alike_refl].
Qed.

(** A target that is neither the old nor the new name resolves to the
    same place before and after the renaming. *)
Lemma find_target_renamed (l1 l2 : list Entity) (E : Entity) (n t : string) :
  t ≠ n → t ≠ ent_name E →
  option_Forall2 alike (find_target (l1 ++ E :: l2) t)
                       (find_target (l1 ++ renamed E n :: l2) t).
Proof.
  intros Hn Ho. unfold find_target.
  induction l1 as [|a l1 IH]; cbn [app List.find].
  - assert (bool_decide (ent_name E = t) = false) as ->
      by (by apply bool_decide_eq_false_2).
    assert (bool_decide (ent_name (renamed E n) = t) = false) as ->
      by (by apply bool_decide_eq_false_2).
    change (ent_id (renamed E n)) with (ent_id E). cbn [orb].
    destruct (bool_decide (ent_id E = t)); [by constructor|].
    destruct (List.find _ l2); constructor. by split.
  - destruct (_ || _); [constructor; by split|done].
Qed.

Lemma deref_insert_split {A} `{Inhabited A} (h : list A) (c1 c2 : list ref)
    (y : ref) (v : A) :
  y < length h → y ∉ c1 → y ∉ c2 →
  deref (<[y := v]> h) (c1 ++ y :: c2) = deref h c1 ++ v :: deref h c2.
Proof.
  intros Hy H1 H2. unfold deref. rewrite map_app. cbn [map].
  rewrite list_lookup_total_insert_eq by done.
  f_equal; [|f_equal]; by apply deref_insert_ne.
Qed.

Lemma map_split {A B} (f : A → B) (l : list A) (l1 l2 : list B) (b : B) :
  map f l = l1 ++ b :: l2 →
  ∃ c1 y c2, l = c1 ++ y :: c2 ∧ map f c1 = l1 ∧ f y = b ∧ map f c2 = l2.
Proof.
  intros Hm. apply map_eq_app in Hm as (c1 & c & -> & H1 & Hc).
  apply map_eq_cons in Hc as (y & c2 & -> & Hy & H2). by exists c1, y, c2.
Qed.

(** C10, as stated, fails in four ways.  Each spec below validates
    cleanly.  In the first another entity is already named with the
    empty string and the validator reports the duplicate; in the second
    a relation targets the empty string and the renamed entity becomes
    its own target; in the third a relation targets the former name,
    which is also the id of its own entity, and resolves there once the
    name is gone; in the fourth two entities share the id and the first
    of them, not E, receives the name. *)
Lemma rename_to_empty_can_conflict :
  (validateSpec two_names_store two_entities_spec = Ok [] ∧
   ∃ res c, applyChangeRequestToSpec two_names_store two_entities_spec (unname "2")
              = Ok res ∧
            conflicts res = [c] ∧ ctype c = naming) ∧
  (validateSpec self_target_store shared_spec = Ok [] ∧
   ∃ res c, applyChangeRequestToSpec self_target_store shared_spec (unname "1")
              = Ok res ∧
            conflicts res = [c] ∧ ctype c = circular_relation) ∧
  (validateSpec name_as_id_store two_entities_spec = Ok [] ∧
   ∃ res c, applyChangeRequestToSpec name_as_id_store two_entities_spec (unname "1")
              = Ok res ∧
            conflicts res = [c] ∧ ctype c = circular_relation) ∧
  (validateSpec two_ids_store two_entities_spec = Ok [] ∧
   ∃ res, applyChangeRequestToSpec two_ids_store two_entities_spec (unname "1")
            = Ok res ∧
          entities_of (snapshot (heap res) (spec res))
          = Some [entity "1" "" []; entity "1" "E" []]).
Proof.
  repeat split; try reflexivity.
  - eexists _, _. split; [vm_compute; reflexivity|]. by split.
  - eexists _, _. split; [vm_compute; reflexivity|]. by split.
  - eexists _, _. split; [vm_compute; reflexivity|]. by split.
  - eexists. split; [vm_compute; reflexivity|]. reflexivity.
Qed.

(** C10, amended. On a spec that validates cleanly, let E be the first
    entity whose id is [X].  A request whose one operation updates [X]
    with the patch [{name: ""}] is applied without a conflict of its own
    (the collision check is skipped for the empty string): one impact,
    E carries the empty name in the proposed spec, and the conflicts
    returned are the validator's findings on the proposed spec.  These
    are none when no other entity is named with the empty string and no
    relation targets the empty string or the former name of E. *)
Theorem rename_to_empty_string (h : Store) (cur : Spec) (req : ChangeRequest)
    (es : list ref) (l1 l2 : list Entity) (E : Entity) (X : string) :
  entities cur = Some es →
  validateSpec h cur = Ok [] →
  deref (ents h) es = l1 ++ E :: l2 →
  ent_id E = X → (∀ e, e ∈ l1 → ent_id e ≠ X) →
  operations req = Some [updateEntity X (rename_to "")] →
  ∃ res i,
    applyChangeRequestToSpec h cur req = Ok res ∧
    impacts res = [i] ∧
    validateSpec (heap res) (spec res) = Ok (conflicts res) ∧
    entities_of (snapshot (heap res) (spec res)) = Some (l1 ++ renamed E "" :: l2) ∧
    ((∀ e, e ∈ l1 ++ l2 → ent_name e ≠ "") →
     (∀ e r, e ∈ l1 ++ E :: l2 → r ∈ relations e →
             target r ≠ "" ∧ target r ≠ ent_name E) →
     conflicts res = []).
Proof.
  intros He Hvalid HD HX Hfirst Hops.
  destruct (endpoints cur) as [ps|] eqn:Hp;
    [|by rewrite validateSpec_throws in Hvalid by auto].
  destruct (validateSpec_returns h cur es ps He Hp) as (circ & Hcirc & Hv).
  rewrite Hvalid in Hv. injection Hv as Hv. symmetry in Hv.
  apply app_nil in Hv as [Hce Hv]. apply app_nil in Hv as [Hcp ->].
  unfold applyChangeRequestToSpec. rewrite Hops.
  destruct (deep_copy_entities h cur es He) as [Hw Hh1].
  destruct (deep_copy_endpoints h cur ps Hp) as [Hwp Hh1p].
  destruct (deep_copy h cur) as [h1 w]. simpl in Hw, Hh1, Hwp, Hh1p.
  set (copies := seq (length (ents h)) (length es)) in *.
  assert (Hcopies : deref (ents h1) copies = l1 ++ E :: l2).
  { rewrite Hh1, <- HD. pose proof (deref_copy (deref (ents h) es) (ents h)) as Hc.
    unfold deref at 3 in Hc. by rewrite length_map in Hc. }
  destruct (map_split _ _ _ _ _ Hcopies) as (c1 & y & c2 & Hsplit & Hc1 & Hy & Hc2).
  assert (Hnd : NoDup (c1 ++ y :: c2)) by (rewrite <- Hsplit; apply NoDup_seq).
  apply NoDup_app in Hnd as (_ & Hy1 & [Hy2 _]%NoDup_cons).
  assert (Hylt : y < length (ents h1)).
  { assert (y ∈ copies) as Hin%elem_of_seq by (rewrite Hsplit; set_solver).
    rewrite Hh1, length_app. unfold deref. rewrite length_map. lia. }
  cbn [mbind result_bind from_option applyOperations applyOperation heap spec].
  rewrite Hw. cbn [mbind result_bind from_option].
  rewrite Hsplit, find_app_none; cycle 1.
  { intros z Hz. apply bool_decide_eq_false. apply Hfirst. rewrite <- Hc1.
    apply list_elem_of_In, in_map_iff. exists z. split; [done|].
    by apply list_elem_of_In. }
  cbn [List.find]. rewrite Hy, bool_decide_eq_true_2 by done.
  cbn [truthy_opt np_name rename_to truthy andb negb record heap spec conflicts impacts].
  change (truthy "") with false.
  cbn [andb mbind result_bind record heap spec conflicts impacts app].
  rewrite Hy. fold (renamed E "").
  set (h2 := with_ents h1 (<[y := renamed E ""]> (ents h1))).
  assert (HD2 : deref (ents h2) copies = l1 ++ renamed E "" :: l2).
  { unfold h2. simpl. rewrite Hsplit, deref_insert_split by set_solver.
    unfold deref. by rewrite Hc1, Hc2. }
  destruct (validateSpec_returns h2 w copies (seq (length (eps h)) (length ps)))
    as (circ2 & Hcirc2 & Hv2); [done|done|].
  rewrite Hv2.
  eexists _, _. split; [done|]. cbn [heap spec impacts conflicts app].
  split; [done|]. split; [done|]. split.
  { unfold snapshot, view. simpl. rewrite Hw. simpl. by rewrite <- HD2. }
  intros Hnames Htargets. rewrite HD2 in *.
  assert (Hends : deref (eps h2) (seq (length (eps h)) (length ps)) = deref (eps h) ps).
  { unfold h2. simpl. rewrite Hh1p.
    pose proof (deref_copy (deref (eps h) ps) (eps h)) as Hc.
    unfold deref at 3 in Hc. by rewrite length_map in Hc. }
  rewrite Hends, Hcp. rewrite HD in Hce, Hcirc.
  assert (check_entities ∅ (l1 ++ renamed E "" :: l2) = []) as ->.
  { apply check_entities_nil. apply check_entities_nil in Hce as (Hf & Hnd & _).
    rewrite Forall_app, Forall_cons in Hf. destruct Hf as (Hf1 & HfE & Hf2).
    rewrite map_app in Hnd. cbn [map] in Hnd.
    apply NoDup_app in Hnd as (Hn1 & Hn12 & [_ Hn2]%NoDup_cons).
    repeat split.
    - rewrite Forall_app, Forall_cons. repeat split; try done.
      by apply (field_conflicts_nil E).
    - rewrite map_app. cbn [map]. apply NoDup_app. split; [done|]. split.
      + intros n Hn [->|Hn2']%elem_of_cons.
        * apply list_elem_of_In, in_map_iff in Hn as (e & Hen & Hin).
          apply (Hnames e); [|done]. apply elem_of_app. left.
          by apply list_elem_of_In.
        * apply (Hn12 n Hn). by apply list_elem_of_further.
      + apply NoDup_cons. split; [|done].
        intros (e & Hen & Hin)%list_elem_of_In%in_map_iff.
        apply (Hnames e); [|done]. apply elem_of_app. right.
        by apply list_elem_of_In.
    - apply Forall_forall. set_solver. }
  destruct (validateCircularRelations_alike (l1 ++ E :: l2) (l1 ++ renamed E "" :: l2))
    with (cs := @nil ChangeConflict) as (cs' & Hcs' & Hlen).
  - intros e r Hin Hr. destruct (Htargets e r Hin Hr) as [Hn Ho].
    by apply find_target_renamed.
  - apply alike_renamed.
  - done.
  - rewrite Hcirc2 in Hcs'. simplify_eq. by destruct cs'.
Qed.

(** * Instances on concrete inputs *)

Lemma conflicting_operations_leave_no_trace_witness :
  ∃ res,
    applyChangeRequestToSpec user_store user_spec two_adds = Ok res ∧
    ∃ res' skipped,
      applyChangeRequestToSpec user_store user_spec
        {| summary := "two entities"; operations := Some [addEntity 2] |} = Ok res' ∧
      heap res' = heap res ∧ spec res' = spec res ∧
      impacts res' = impacts res ∧
      validateSpec (heap res) (spec res) = Ok (conflicts res') ∧
      conflicts res = skipped ++ conflicts res' ∧
      length skipped + 1 = 2.
Proof.
  eexists. split; [vm_compute; reflexivity|].
  apply (proj2 conflicting_operations_leave_no_trace user_store user_spec two_adds
           [addEntity 1; addEntity 2]); [reflexivity|vm_compute; reflexivity].
Defined.

Lemma apply_does_not_mutate_input_witness :
  ∃ res,
    applyChangeRequestToSpec user_store user_spec rename_user = Ok res ∧
    snapshot (heap res) user_spec = snapshot user_store user_spec.
Proof.
  eexists. split; [vm_compute; reflexivity|].
  apply (apply_does_not_mutate_input user_store user_spec rename_user).
  - repeat split; repeat constructor; simpl; lia.
  - repeat constructor.
  - vm_compute; reflexivity.
Defined.


Lemma validateSpec_tolerates_empty_lists_witness :
  validateSpec empty_store
    {| requirements := Some []; entities := Some []; endpoints := Some [];
       folder_structure := Folder []; passengers := [] |} = Ok [].
Proof.
  apply (proj1 (validateSpec_tolerates_empty_lists empty_store _) []); reflexivity.
Defined.

Lemma cycle_detection_witness :
  (∃ cs c, validateSpec cycle_store chain_spec = Ok cs ∧ c ∈ cs ∧
           ctype c = circular_relation) ∧
  (∃ cs, validateSpec open_chain_store chain_spec = Ok cs ∧
         ∀ c, c ∈ cs → ctype c ≠ circular_relation).
Proof.
  split.
  - apply (proj1 (cycle_detection cycle_store chain_spec [0; 1; 2] []
             (entity "a" "A" ["B"]) (entity "b" "B" ["C"]) (entity "c" "C" ["a"])
             eq_refl eq_refl (reflexivity _)));
      (eexists; split; [apply list_elem_of_here|]); [by right|by right|by left].
  - apply (proj2 (cycle_detection open_chain_store chain_spec [0; 1; 2] []
             (entity "a" "A" ["B"]) (entity "b" "B" ["C"]) (entity "c" "C" [])
             eq_refl eq_refl (reflexivity _))).
    + repeat (apply NoDup_cons; split; [set_solver|]). apply NoDup_nil. done.
    + intros X Y HX HY (r & Hr & Ht).
      elem_cases HX; elem_cases HY; simpl in Hr; elem_cases Hr; simpl in Ht;
        destruct Ht as [Ht|Ht]; try discriminate Ht; auto.
Defined.

Lemma duplicate_entity_name_rejected_witness :
  ∃ res c es',
    applyChangeRequestToSpec user_store user_spec one_add = Ok res ∧
    conflicts res = [c] ∧ ctype c = naming ∧
    entities (spec res) = Some es' ∧ length es' = 1 ∧
    snapshot (heap res) (spec res) = snapshot user_store user_spec.
Proof.
  apply (duplicate_entity_name_rejected user_store user_spec one_add [0] 1).
  - simpl; lia.
  - reflexivity.
  - exists 0. split; [apply list_elem_of_here|reflexivity].
  - vm_compute; reflexivity.
  - reflexivity.
  - reflexivity.
Defined.

Lemma add_then_update_in_one_request_witness :
  ∃ res i1 i2,
    applyChangeRequestToSpec user_store user_spec add_and_update = Ok res ∧
    impacts res = [i1; i2] ∧
    validateSpec (heap res) (spec res) = Ok (conflicts res) ∧
    entities (spec res) = Some [3; 2] ∧
    ents (heap res) !!! 2 = entity "o1" "Purchase" [] ∧
    deref (ents (heap res)) [3] = [entity "u1" "User" []].
Proof.
  apply (add_then_update_in_one_request user_store user_spec add_and_update
           [0] 2 "o1" (rename_to "Purchase")).
  - simpl; lia.
  - reflexivity.
  - eexists; reflexivity.
  - reflexivity.
  - intros x Hx. elem_cases Hx. split; discriminate.
  - intros _ x Hx. elem_cases Hx. discriminate.
  - reflexivity.
Defined.

Lemma update_endpoint_collision_witness :
  ∃ c, applyOperation user_store user_spec (updateEndpoint "p2" (method_patch GET))
       = Ok (user_store, user_spec, Conflict c) ∧
       ctype c = naming.
Proof.
  apply (proj1 (update_endpoint_collision user_store user_spec [0; 1] "p2"
                  (method_patch GET) 1 eq_refl eq_refl)).
  split.
  - right. eexists; reflexivity.
  - exists 0. split; [apply list_elem_of_here|]. repeat split. discriminate.
Defined.

Lemma impact_summary_classification_witness :
  "Foo" ∈ newEntities (generateImpactSummary foo_preview) ∧
  "Foo" ∈ removedEntities (generateImpactSummary foo_preview) ∧
  modifiedEntities (generateImpactSummary foo_preview) = 1 ∧
  totalChanges (generateImpactSummary foo_preview) = 2.
Proof.
  pose proof (impact_summary_classification foo_preview) as (Hnew & Hold & Hn & _).
  split; [|split; [|split]].
  - apply (Hnew foo_added "Foo"); [apply list_elem_of_here|reflexivity|].
    apply list_elem_of_here.
  - apply (Hold foo_removed "Foo");
      [apply list_elem_of_further, list_elem_of_here|reflexivity|].
    apply list_elem_of_here.
  - rewrite Hn. reflexivity.
  - reflexivity.
Defined.

Lemma rename_to_empty_string_witness :
  ∃ res i,
    applyChangeRequestToSpec user_store user_spec (unname "u1") = Ok res ∧
    impacts res = [i] ∧
    validateSpec (heap res) (spec res) = Ok (conflicts res) ∧
    entities_of (snapshot (heap res) (spec res)) = Some [entity "u1" "" []] ∧
    ((∀ e, e ∈ @nil Entity → ent_name e ≠ "") →
     (∀ e r, e ∈ [entity "u1" "User" []] → r ∈ relations e →
             target r ≠ "" ∧ target r ≠ "User") →
     conflicts res = []).
Proof.
  apply (rename_to_empty_string user_store user_spec (unname "u1") [0] [] []
           (entity "u1" "User" []) "u1").
  - reflexivity.
  - vm_compute; reflexivity.
  - reflexivity.
  - reflexivity.
  - intros e He. by apply elem_of_nil in He.
  - reflexivity.
Defined.

(** Two runs of the engine on [user_store]: a second [POST /users] is
    rejected with one naming conflict that names method and path, and
    removing entity [u1] from the working copy leaves the current spec
    with its entity. *)
Example endpoint_duplicate_rejected :
  ∃ res,
    applyChangeRequestToSpec
      {| reqs := []; ents := [];
         eps := [endpoint_of "p1" POST "/widgets"; endpoint_of "p2" POST "/widgets"] |}
      {| requirements := Some []; entities := Some []; endpoints := Some [0];
         folder_structure := Folder []; passengers := [] |}
      {| summary := "again"; operations := Some [addEndpoint 1] |} = Ok res ∧
    map message (conflicts res) = ["Endpoint POST /widgets already exists"] ∧
    map ctype (conflicts res) = [naming] ∧
    impacts res = [].
Proof. eexists. split; [vm_compute; reflexivity|]. by repeat split. Qed.

Example remove_entity_from_copy :
  ∃ res,
    applyChangeRequestToSpec user_store user_spec
      {| summary := "drop"; operations := Some [removeEntity "u1"] |} = Ok res ∧
    conflicts res = [] ∧
    map description (impacts res) = ["Entity User removed"] ∧
    entities_of (snapshot (heap res) (spec res)) = Some [] ∧
    entities_of (snapshot (heap res) user_spec) = Some [entity "u1" "User" []].
Proof. eexists. split; [vm_compute; reflexivity|]. by repeat split. Qed.

(** * Further properties *)

(** ** [collectImpactedFiles] *)

Lemma set_add_fold (xs : list string) :
  ∀ set, NoDup set →
    NoDup (foldl set_add set xs) ∧
    ∀ f, f ∈ foldl set_add set xs ↔ f ∈ set ∨ f ∈ xs.
Proof.
  induction xs as [|x xs IH]; intros set Hnd; simpl.
  - split; [done|]. intros f. set_solver.
  - assert (Hadd : NoDup (set_add set x) ∧ ∀ f, f ∈ set_add set x ↔ f ∈ set ∨ f = x).
    { unfold set_add. destruct (decide (x ∈ set)).
      - split; [done|]. set_solver.
      - split; [|set_solver]. apply NoDup_app. split; [done|]. split.
        + set_solver.
        + apply NoDup_singleton. }
    destruct Hadd as [Hnd' Hin]. destruct (IH _ Hnd') as [Hnd'' Hin'].
    split; [done|]. intros f. rewrite Hin', Hin. set_solver.
Qed.

Lemma collect_fold (impacts : list ChangeImpact) :
  ∀ files, NoDup files →
    let out := foldl (λ files impact,
                        foldl set_add files (names_of (affectedFiles impact)))
                     files impacts in
    NoDup out ∧
    ∀ f, f ∈ out ↔ f ∈ files ∨ ∃ i, i ∈ impacts ∧ f ∈ names_of (affectedFiles i).
Proof.
  induction impacts as [|i impacts IH]; intros files Hnd; simpl.
  - split; [done|]. intros f. split; [auto|]. intros [?|(i & Hi & _)]; [done|].
    by apply elem_of_nil in Hi.
  - destruct (set_add_fold (names_of (affectedFiles i)) files Hnd) as [Hnd' Hin].
    destruct (IH _ Hnd') as [Hnd'' Hin']. split; [done|].
    intros f. rewrite Hin', Hin. split.
    + intros [[?|?]|(j & Hj & Hf)]; [by left|right; exists i; split; [left|done]|].
      right. exists j. split; [by right|done].
    + intros [?|(j & Hj & Hf)]; [by left; left|].
      apply elem_of_cons in Hj as [->|Hj]; [by left; right|].
      right. by exists j.
Qed.

Lemma collect_exact (preview : ChangePreview) :
  NoDup (collectImpactedFiles preview) ∧
  ∀ f, f ∈ collectImpactedFiles preview ↔
       ∃ i, i ∈ preview_impacts preview ∧ f ∈ names_of (affectedFiles i).
Proof.
  destruct (collect_fold (preview_impacts preview) [] (NoDup_nil_2)) as [Hnd Hin].
  split; [done|]. intros f. rewrite (Hin f). split; [|auto].
  intros [Hf|?]; [by apply elem_of_nil in Hf|done].
Qed.

(** X1. The impacted files are listed without repetition, and a file is
    listed exactly when some impact names it. *)
Theorem collectImpactedFiles_exact (preview : ChangePreview) :
  NoDup (collectImpactedFiles preview) ∧
  ∀ f, f ∈ collectImpactedFiles preview ↔
       ∃ i, i ∈ preview_impacts preview ∧ f ∈ names_of (affectedFiles i).
Proof. apply collect_exact. Qed.

(** X2. The number of impacted files is the [modifiedFiles] count of the
    summary of the same preview. *)
Theorem collectImpactedFiles_count (preview : ChangePreview) :
  length (collectImpactedFiles preview)
  = modifiedFiles (generateImpactSummary preview).
Proof.
  destruct (collect_exact preview) as [Hnd Hin].
  rewrite <- (size_list_to_set (C := gset string)) by done.
  unfold generateImpactSummary; cbn [modifiedFiles].
  rewrite (tally_set_fold t_files affectedFiles); [|done].
  f_equal. apply set_eq. intros f. rewrite elem_of_list_to_set, Hin.
  cbn [t_files tally_init]. rewrite elem_of_union, elem_of_union_list. split.
  - intros (i & Hi & Hf). right. eexists. split; [|by apply elem_of_list_to_set].
    apply list_elem_of_In, in_map_iff. exists i. split; [done|]. by apply list_elem_of_In.
  - intros [Hf|(X & HX & Hf)]; [set_solver|].
    apply list_elem_of_In, in_map_iff in HX as (i & <- & Hi).
    exists i. split; [by apply list_elem_of_In|]. by apply elem_of_list_to_set in Hf.
Qed.

(** ** [sanitizePath] *)

Lemma drop_underscores_split (l : list ascii) :
  (∃ k, l = replicate k underscore ++ drop_underscores l) ∧
  head (drop_underscores l) ≠ Some underscore.
Proof.
  induction l as [|c l [[k IHk] IHh]]; simpl.
  - split; [by exists 0|done].
  - destruct (bool_decide (c = underscore)) eqn:Hc.
    + apply bool_decide_eq_true in Hc as ->. split; [|done].
      exists (S k). simpl. by rewrite <- IHk.
    + apply bool_decide_eq_false in Hc. split; [by exists 0|].
      simpl. congruence.
Qed.

Lemma drop_underscores_id (l : list ascii) :
  head l ≠ Some underscore → drop_underscores l = l.
Proof.
  destruct l as [|c l]; simpl; [done|]. intros Hc.
  rewrite bool_decide_eq_false_2; [done|congruence].
Qed.

Lemma last_rev (l : list ascii) : last (rev l) = head l.
Proof. destruct l as [|c l]; simpl; [done|]. apply last_snoc. Qed.

Lemma head_rev (l : list ascii) : head (rev l) = last l.
Proof. rewrite <- (rev_involutive l) at 2. by rewrite last_rev. Qed.

Lemma sanitizePath_shape (path : string) :
  route_name (list_ascii_of_string (sanitizePath path)).
Proof.
  unfold sanitizePath.
  set (s2 := map (λ c, if is_word_char c then c else underscore) _).
  assert (H2 : Forall (λ c, is_word_char c = true) s2).
  { unfold s2. apply Forall_forall. intros c (c0 & <- & _)%list_elem_of_In%in_map_iff.
    destruct (is_word_char c0) eqn:Hw; [done|reflexivity]. }
  destruct (drop_underscores_split s2) as [[k Hk] Hh3].
  set (s3 := drop_underscores s2) in *.
  destruct (drop_underscores_split (rev s3)) as [[j Hj] Hh4].
  set (t := drop_underscores (rev s3)) in *.
  assert (H3 : s3 = rev t ++ replicate j underscore).
  { rewrite <- (rev_involutive s3), Hj, rev_app_distr. f_equal.
    clear. induction j as [|j IH]; simpl; [done|].
    rewrite IH. clear. induction j as [|j IH]; simpl; [done|]. by rewrite <- IH. }
  destruct (rev t) as [|c s4] eqn:Ht.
  - simpl. repeat split; try done. by repeat constructor.
  - change (truthy (string_of_list_ascii (c :: s4))) with true. cbn iota.
    rewrite list_ascii_of_string_of_list_ascii. repeat split.
    + done.
    + rewrite Hk, Forall_app in H2. destruct H2 as [_ H2].
      rewrite H3, Forall_app in H2. by destruct H2.
    + rewrite H3 in Hh3. done.
    + rewrite <- Ht, last_rev. done.
Qed.

Lemma sanitizePath_fixed (s : string) :
  route_name (list_ascii_of_string s) → sanitizePath s = s.
Proof.
  intros (Hne & Hw & Hh & Hl). unfold sanitizePath.
  set (l := list_ascii_of_string s) in *.
  assert (H1 : map (λ c, if bool_decide (c = "/"%char) then underscore else c) l = l).
  { rewrite <- (map_id l) at 2. apply map_ext_in. intros c Hc%list_elem_of_In.
    rewrite Forall_forall in Hw. apply Hw in Hc.
    destruct (bool_decide (c = "/"%char)) eqn:H; [|done].
    apply bool_decide_eq_true in H as ->. discriminate Hc. }
  assert (H2 : map (λ c, if is_word_char c then c else underscore) l = l).
  { rewrite <- (map_id l) at 2. apply map_ext_in. intros c Hc%list_elem_of_In.
    rewrite Forall_forall in Hw. apply Hw in Hc. by rewrite Hc. }
  rewrite H1, H2, (drop_underscores_id l) by done.
  rewrite (drop_underscores_id (rev l)) by (by rewrite head_rev).
  rewrite rev_involutive. unfold l. rewrite string_of_list_ascii_of_string.
  destruct s; [done|]. reflexivity.
Qed.

(** X3. Whatever the path, the name [sanitizePath] returns is not empty,
    is made of letters, digits and underscores only, and neither begins nor
    ends with an underscore. *)
Theorem sanitizePath_route_name (path : string) :
  route_name (list_ascii_of_string (sanitizePath path)).
Proof. apply sanitizePath_shape. Qed.

(** X4. [sanitizePath] is idempotent: a sanitized name is left as it is. *)
Theorem sanitizePath_idempotent (path : string) :
  sanitizePath (sanitizePath path) = sanitizePath path.
Proof. apply sanitizePath_fixed, sanitizePath_shape. Qed.

(** ** The shape of a run *)

Lemma apply_runs (h : Store) (cur : Spec) (req : ChangeRequest)
    (ops : list ChangeOperation) (σ : ApplyResult) (checks : list ChangeConflict) :
  operations req = Some ops →
  applyOperations (start h cur) ops = Ok σ →
  validateSpec (heap σ) (spec σ) = Ok checks →
  applyChangeRequestToSpec h cur req = Ok (finish σ checks).
Proof.
  intros Hops Hrun Hval. unfold applyChangeRequestToSpec, start in *.
  destruct (deep_copy h cur) as [h1 w]. simpl in *.
  rewrite Hops. cbn [mbind result_bind from_option]. rewrite Hrun.
  cbn [mbind result_bind]. by rewrite Hval.
Qed.

Lemma apply_ran (h : Store) (cur : Spec) (req : ChangeRequest)
    (ops : list ChangeOperation) (res : ApplyResult) :
  operations req = Some ops →
  applyChangeRequestToSpec h cur req = Ok res →
  ∃ σ checks,
    applyOperations (start h cur) ops = Ok σ ∧
    validateSpec (heap σ) (spec σ) = Ok checks ∧ res = finish σ checks.
Proof.
  intros Hops Happly. unfold applyChangeRequestToSpec, start in *.
  destruct (deep_copy h cur) as [h1 w]. simpl in *.
  rewrite Hops in Happly. cbn [mbind result_bind from_option] in Happly.
  destruct (applyOperations _ ops) as [σ| |] eqn:Hrun; try done.
  cbn [mbind result_bind] in Happly.
  destruct (validateSpec _ _) as [checks| |] eqn:Hval; try done.
  cbn [mbind result_bind] in Happly. simplify_eq. by exists σ, checks.
Qed.

Lemma applyOperations_cons (σ : ApplyResult) (op : ChangeOperation)
    (rest : list ChangeOperation) (r : Store * Spec * outcome) :
  applyOperation (heap σ) (spec σ) op = Ok r →
  applyOperations σ (op :: rest) = applyOperations (record σ r) rest.
Proof. intros Hop. cbn [applyOperations]. by rewrite Hop. Qed.

Lemma applyOperations_count (ops : list ChangeOperation) :
  ∀ σ σ', applyOperations σ ops = Ok σ' →
    ∃ raised done,
      conflicts σ' = conflicts σ ++ raised ∧ impacts σ' = impacts σ ++ done ∧
      length raised + length done = length ops ∧
      Forall (λ c, ctype c ≠ circular_relation) raised.
Proof.
  induction ops as [|op ops IH]; intros σ σ' Hrun.
  - simpl in Hrun. simplify_eq. exists [], []. by rewrite !app_nil_r.
  - cbn [applyOperations] in Hrun.
    destruct (applyOperation _ _ op) as [[[h' s'] o]| |] eqn:Hop; try done.
    cbn [mbind result_bind] in Hrun.
    destruct (IH _ _ Hrun) as (raised & done & Hc & Hi & Hlen & Hty).
    destruct o as [c|i]; simpl in Hc, Hi.
    + exists (c :: raised), done. rewrite Hc, Hi, <- app_assoc. simpl.
      repeat split; [lia|]. constructor; [|done].
      destruct op; simpl in Hop; unfold mbind, result_bind, from_option in Hop;
        repeat case_match; simplify_eq; done.
    + exists raised, (i :: done). rewrite Hc, Hi, <- app_assoc. simpl.
      repeat split; [lia|done].
Qed.

(** X5. Every operation of a request leaves one record: the conflicts of
    the result are those the operations raised followed by the
    validator's findings on the proposed spec, the operations that raised
    none have one impact each, and no operation raises a
    circular-relation conflict. *)
Theorem one_record_per_operation (h : Store) (cur : Spec) (req : ChangeRequest)
    (ops : list ChangeOperation) (res : ApplyResult) :
  operations req = Some ops →
  applyChangeRequestToSpec h cur req = Ok res →
  ∃ raised checks,
    conflicts res = raised ++ checks ∧
    validateSpec (heap res) (spec res) = Ok checks ∧
    length raised + length (impacts res) = length ops ∧
    Forall (λ c, ctype c ≠ circular_relation) raised.
Proof.
  intros Hops Happly.
  destruct (apply_ran _ _ _ _ _ Hops Happly) as (σ & checks & Hrun & Hval & ->).
  destruct (applyOperations_count _ _ _ Hrun) as (raised & done & Hc & Hi & Hlen & Hty).
  simpl in Hc, Hi. exists raised, checks. simpl. by rewrite Hc, Hi.
Qed.

(** ** Operations that are refused *)

Lemma find_absent {A} (p : A → bool) (l : list A) :
  (∀ x, x ∈ l → p x = false) → List.find p l = None.
Proof.
  intros Hnone. rewrite <- (app_nil_r l). by rewrite find_app_none.
Qed.

Lemma filter_all {A} (p : A → bool) (l : list A) :
  (∀ x, x ∈ l → p x = true) → List.filter p l = l.
Proof.
  induction l as [|x l IH]; intros Hall; simpl; [done|].
  rewrite Hall by apply list_elem_of_here. f_equal. apply IH.
  intros y Hy. apply Hall. by apply list_elem_of_further.
Qed.

Lemma absent_target_conflict (h : Store) (s : Spec) (op : ChangeOperation) :
  targets_nothing h s op →
  ∃ c, applyOperation h s op = Ok (h, s, Conflict c) ∧ ctype c = missing_field.
Proof.
  destruct op; simpl; try done; intros (l & Hl & Hnone);
    rewrite Hl; cbn [mbind result_bind from_option].
  - rewrite find_absent; [by eexists|].
    intros x Hx. apply bool_decide_eq_false. by apply Hnone.
  - rewrite filter_all; cycle 1.
    { intros x Hx. apply negb_true_iff, bool_decide_eq_false. by apply Hnone. }
    rewrite Nat.eqb_refl, with_requirements_same by done. by eexists.
  - rewrite find_absent; [by eexists|].
    intros x Hx. apply bool_decide_eq_false. by apply Hnone.
  - rewrite find_absent; [by eexists|].
    intros x Hx. apply bool_decide_eq_false. by apply Hnone.
  - rewrite find_absent; [by eexists|].
    intros x Hx. apply bool_decide_eq_false. by apply Hnone.
  - rewrite find_absent; [by eexists|].
    intros x Hx. apply bool_decide_eq_false. by apply Hnone.
Qed.

Lemma existsb_true {A} (p : A → bool) (l : list A) (x : A) :
  x ∈ l → p x = true → existsb p l = true.
Proof.
  intros Hx%list_elem_of_In Hp. apply existsb_exists. by exists x.
Qed.

Lemma key_taken_conflict (h : Store) (s : Spec) (op : ChangeOperation) :
  key_taken h s op →
  ∃ c, applyOperation h s op = Ok (h, s, Conflict c) ∧ ctype c = naming.
Proof.
  destruct op; simpl; try done.
  - intros (l & x & Hl & Hx & Hkey). rewrite Hl. cbn [mbind result_bind from_option].
    rewrite (existsb_true _ _ x Hx); [by eexists|]. by apply bool_decide_eq_true.
  - intros (l & x & Hl & Hx & Hkey). rewrite Hl. cbn [mbind result_bind from_option].
    rewrite (existsb_true _ _ x Hx); [by eexists|]. by apply bool_decide_eq_true.
  - intros (l & x & Hl & Hx & Hpath & Hmethod). rewrite Hl.
    cbn [mbind result_bind from_option].
    rewrite (existsb_true _ _ x Hx); [by eexists|].
    by rewrite !bool_decide_eq_true_2.
Qed.

(** What the deep copy holds. *)
Lemma elem_of_deref {A} `{Inhabited A} (h : list A) (l : list ref) (a : A) :
  a ∈ deref h l ↔ ∃ x, x ∈ l ∧ h !!! x = a.
Proof.
  unfold deref. rewrite list_elem_of_In, in_map_iff.
  split; intros (x & Hx & Ha); exists x; by rewrite ?list_elem_of_In in *.
Qed.

Lemma deep_copy_values (h : Store) (cur : Spec) :
  let h1 := (deep_copy h cur).1 in
  let w := (deep_copy h cur).2 in
  (∀ l, requirements cur = Some l →
     ∃ l', requirements w = Some l' ∧ deref (reqs h1) l' = deref (reqs h) l) ∧
  (∀ l, entities cur = Some l →
     ∃ l', entities w = Some l' ∧ deref (ents h1) l' = deref (ents h) l) ∧
  (∀ l, endpoints cur = Some l →
     ∃ l', endpoints w = Some l' ∧ deref (eps h1) l' = deref (eps h) l).
Proof.
  intros h1 w. pose proof (deep_copy_snapshot h cur) as Hsnap.
  fold h1 w in Hsnap. unfold snapshot, view in Hsnap.
  repeat split; intros l Hl.
  - apply (f_equal requirements_of) in Hsnap. simpl in Hsnap. rewrite Hl in Hsnap.
    destruct (requirements w) as [l'|]; simplify_eq/=. by exists l'.
  - apply (f_equal entities_of) in Hsnap. simpl in Hsnap. rewrite Hl in Hsnap.
    destruct (entities w) as [l'|]; simplify_eq/=. by exists l'.
  - apply (f_equal endpoints_of) in Hsnap. simpl in Hsnap. rewrite Hl in Hsnap.
    destruct (endpoints w) as [l'|]; simplify_eq/=. by exists l'.
Qed.

Lemma copy_array_keeps {A} `{Inhabited A} (h : list A) (o : option (list ref)) (r : ref) :
  r < length h → (copy_array h o).1 !!! r = h !!! r.
Proof.
  intros Hr. destruct o as [l|]; simpl; [|done]. by rewrite lookup_total_app_l.
Qed.

Lemma deep_copy_keeps (h : Store) (cur : Spec) :
  let h1 := (deep_copy h cur).1 in
  (∀ r, r < length (reqs h) → reqs h1 !!! r = reqs h !!! r) ∧
  (∀ r, r < length (ents h) → ents h1 !!! r = ents h !!! r) ∧
  (∀ r, r < length (eps h) → eps h1 !!! r = eps h !!! r).
Proof.
  unfold deep_copy.
  pose proof (copy_array_keeps (reqs h) (requirements cur)) as Hr.
  pose proof (copy_array_keeps (ents h) (entities cur)) as He.
  pose proof (copy_array_keeps (eps h) (endpoints cur)) as Hp.
  destruct (copy_array (reqs h) _), (copy_array (ents h) _), (copy_array (eps h) _).
  simpl in *. done.
Qed.

Lemma deref_transfer {A} `{Inhabited A} (h h' : list A) (l l' : list ref) :
  deref h' l' = deref h l →
  ∀ y, y ∈ l' → ∃ x, x ∈ l ∧ h !!! x = h' !!! y.
Proof.
  intros Hd y Hy. apply elem_of_deref. rewrite <- Hd. apply elem_of_deref. by exists y.
Qed.

Lemma targets_nothing_copy (h : Store) (cur : Spec) (op : ChangeOperation) :
  targets_nothing h cur op →
  targets_nothing (deep_copy h cur).1 (deep_copy h cur).2 op.
Proof.
  destruct (deep_copy_values h cur) as (Hr & He & Hp).
  destruct op; simpl; try done; intros (l & Hl & Hnone).
  1,2: destruct (Hr l Hl) as (l' & Hl' & Hd).
  3,4: destruct (He l Hl) as (l' & Hl' & Hd).
  5,6: destruct (Hp l Hl) as (l' & Hl' & Hd).
  all: exists l'; split; [done|]; intros y Hy.
  all: destruct (deref_transfer _ _ _ _ Hd y Hy) as (x & Hx & <-); by apply Hnone.
Qed.

Lemma key_taken_copy (h : Store) (cur : Spec) (op : ChangeOperation) :
  payload_in h op → key_taken h cur op →
  key_taken (deep_copy h cur).1 (deep_copy h cur).2 op.
Proof.
  destruct (deep_copy_values h cur) as (Hr & He & Hp).
  destruct (deep_copy_keeps h cur) as (Kr & Ke & Kp).
  destruct op; simpl; try done; intros Hin.
  - intros (l & x & Hl & Hx & Hkey). destruct (Hr l Hl) as (l' & Hl' & Hd).
    destruct (deref_transfer _ _ _ _ (eq_sym Hd) x Hx) as (y & Hy & Heq).
    exists l', y. by rewrite Heq, Kr.
  - intros (l & x & Hl & Hx & Hkey). destruct (He l Hl) as (l' & Hl' & Hd).
    destruct (deref_transfer _ _ _ _ (eq_sym Hd) x Hx) as (y & Hy & Heq).
    exists l', y. by rewrite Heq, Ke.
  - intros (l & x & Hl & Hx & Hkey). destruct (Hp l Hl) as (l' & Hl' & Hd).
    destruct (deref_transfer _ _ _ _ (eq_sym Hd) x Hx) as (y & Hy & Heq).
    exists l', y. by rewrite Heq, Kp.
Qed.

(** A request whose one operation raises a conflict. *)
Lemma refused (h : Store) (cur : Spec) (req : ChangeRequest) (op : ChangeOperation)
    (c : ChangeConflict) (checks : list ChangeConflict) :
  operations req = Some [op] →
  applyOperation (deep_copy h cur).1 (deep_copy h cur).2 op
    = Ok ((deep_copy h cur).1, (deep_copy h cur).2, Conflict c) →
  validateSpec h cur = Ok checks →
  ∃ res, applyChangeRequestToSpec h cur req = Ok res ∧
         conflicts res = c :: checks ∧ impacts res = [] ∧
         snapshot (heap res) (spec res) = snapshot h cur.
Proof.
  intros Hops Hop Hval. eexists. split.
  - eapply apply_runs; [done| |].
    + erewrite applyOperations_cons by exact Hop. done.
    + simpl. by rewrite (validateSpec_snapshot _ h _ cur (deep_copy_snapshot h cur)).
  - simpl. repeat split. apply deep_copy_snapshot.
Qed.

(** X6. A request whose one operation updates or removes a requirement,
    an entity or an endpoint by an id that no such object of the current
    spec carries is refused with one missing-field conflict, placed before
    the validator's findings on the current spec; there is no impact and
    the proposed spec has the value of the current one. *)
Theorem absent_target_is_reported (h : Store) (cur : Spec) (req : ChangeRequest)
    (op : ChangeOperation) (checks : list ChangeConflict) :
  targets_nothing h cur op →
  validateSpec h cur = Ok checks →
  operations req = Some [op] →
  ∃ res c,
    applyChangeRequestToSpec h cur req = Ok res ∧
    conflicts res = c :: checks ∧ ctype c = missing_field ∧
    impacts res = [] ∧
    snapshot (heap res) (spec res) = snapshot h cur.
Proof.
  intros Hnone Hval Hops.
  destruct (absent_target_conflict _ _ _ (targets_nothing_copy _ _ _ Hnone))
    as (c & Hop & Hty).
  destruct (refused h cur req op c checks Hops Hop Hval) as (res & Hres & Hc & Hi & Hs).
  by exists res, c.
Qed.

(** X7. A request whose one operation adds a requirement whose id, an
    entity whose name, or an endpoint whose method and path an object of
    the current spec carries already is refused with one naming conflict,
    placed before the validator's findings; there is no impact and the
    proposed spec has the value of the current one. *)
Theorem taken_key_is_reported (h : Store) (cur : Spec) (req : ChangeRequest)
    (op : ChangeOperation) (checks : list ChangeConflict) :
  payload_in h op → key_taken h cur op →
  validateSpec h cur = Ok checks →
  operations req = Some [op] →
  ∃ res c,
    applyChangeRequestToSpec h cur req = Ok res ∧
    conflicts res = c :: checks ∧ ctype c = naming ∧
    impacts res = [] ∧
    snapshot (heap res) (spec res) = snapshot h cur.
Proof.
  intros Hin Htaken Hval Hops.
  destruct (key_taken_conflict _ _ _ (key_taken_copy _ _ _ Hin Htaken))
    as (c & Hop & Hty).
  destruct (refused h cur req op c checks Hops Hop Hval) as (res & Hres & Hc & Hi & Hs).
  by exists res, c.
Qed.

(** ** Adding and removing an entity *)

Lemma deref_filter {A} `{Inhabited A} (p : A → bool) (h : list A) (l : list ref) :
  deref h (List.filter (λ x, p (h !!! x)) l) = List.filter p (deref h l).
Proof.
  induction l as [|x l IH]; simpl; [done|].
  destruct (p (h !!! x)); simpl; by rewrite IH.
Qed.

Lemma find_deref {A} `{Inhabited A} (p : A → bool) (h : list A) (l : list ref) :
  List.find p (deref h l) = (h !!!.) <$> List.find (λ x, p (h !!! x)) l.
Proof.
  induction l as [|x l IH]; simpl; [done|]. by destruct (p (h !!! x)).
Qed.

Lemma remove_entity_step (h : Store) (s : Spec) (es : list ref) (X : string) :
  entities s = Some es → (∃ x, x ∈ es ∧ ent_id (ents h !!! x) = X) →
  ∃ x i,
    List.find (λ o, bool_decide (ent_id (ents h !!! o) = X)) es = Some x ∧
    affectedEntities i = Some [ent_name (ents h !!! x)] ∧
    applyOperation h s (removeEntity X)
    = Ok (h, with_entities s
               (Some (List.filter (λ o, other_id X (ents h !!! o)) es)), Impact i).
Proof.
  intros He (x & Hx & Hid). simpl. rewrite He. cbn [mbind result_bind from_option].
  destruct (List.find _ es) as [y|] eqn:Hfind.
  - eexists y, _. split; [done|]. split; [|reflexivity]. done.
  - apply List.find_none with (x := x) in Hfind; [|by apply list_elem_of_In].
    by rewrite bool_decide_eq_true_2 in Hfind.
Qed.

Lemma add_entity_step (h : Store) (s : Spec) (es : list ref) (r : ref) :
  entities s = Some es →
  (∀ x, x ∈ es → ent_name (ents h !!! x) ≠ ent_name (ents h !!! r)) →
  ∃ i, affectedEntities i = Some [ent_name (ents h !!! r)] ∧
       applyOperation h s (addEntity r)
       = Ok (h, with_entities s (Some (es ++ [r])), Impact i).
Proof.
  intros He Hfresh. simpl. rewrite He. cbn [mbind result_bind from_option].
  rewrite existsb_false; cycle 1.
  { intros x Hx. apply bool_decide_eq_false. by apply Hfresh. }
  eexists. split; [|reflexivity]. done.
Qed.

Lemma apply_remove_entity (h : Store) (cur : Spec) (req : ChangeRequest)
    (es : list ref) (X : string) :
  entities cur = Some es → is_Some (endpoints cur) →
  (∃ x, x ∈ es ∧ ent_id (ents h !!! x) = X) →
  operations req = Some [removeEntity X] →
  ∃ res i e,
    applyChangeRequestToSpec h cur req = Ok res ∧
    impacts res = [i] ∧
    List.find (λ e, bool_decide (ent_id e = X)) (deref (ents h) es) = Some e ∧
    affectedEntities i = Some [ent_name e] ∧
    validateSpec (heap res) (spec res) = Ok (conflicts res) ∧
    snapshot (heap res) (spec res)
    = with_entities_of (snapshot h cur)
        (List.filter (other_id X) (deref (ents h) es)).
Proof.
  intros He [ps Hp] (x & Hx & Hid) Hops.
  destruct (deep_copy_values h cur) as (_ & Hents & Heps).
  destruct (Hents es He) as (es' & He' & Hd).
  destruct (Heps ps Hp) as (ps' & Hp' & _).
  destruct (deref_transfer _ _ _ _ (eq_sym Hd) x Hx) as (y & Hy & Heq).
  destruct (remove_entity_step (deep_copy h cur).1 (deep_copy h cur).2 es' X He')
    as (z & i & Hfind & Hname & Hstep).
  { exists y. by rewrite Heq. }
  destruct (validateSpec_returns (deep_copy h cur).1
              (with_entities (deep_copy h cur).2
                 (Some (List.filter (λ o, other_id X (ents (deep_copy h cur).1 !!! o)) es')))
              _ ps' eq_refl Hp') as (circular & _ & Hval).
  eexists _, i, (ents (deep_copy h cur).1 !!! z). split.
  { eapply apply_runs; [done| |].
    - erewrite applyOperations_cons by exact Hstep. done.
    - exact Hval. }
  simpl. split; [done|]. split; [|split; [done|split; [done|]]].
  - rewrite <- Hd, find_deref. by rewrite Hfind.
  - change (snapshot ?a (with_entities ?s (Some ?l)))
      with (with_entities_of (snapshot a s) (deref (ents a) l)).
    by rewrite deep_copy_snapshot, deref_filter, Hd.
Qed.

(** X8. A request whose one operation removes the entity of id [X], on
    a spec that holds such an entity, removes every entity of that id and
    keeps the others in their order; requirements, endpoints and the rest
    of the spec are as before.  There is one impact, which names the
    first entity of that id, and the only conflicts are the validator's
    on the proposed spec. *)
Theorem remove_entity_removes_every_match (h : Store) (cur : Spec)
    (req : ChangeRequest) (es : list ref) (X : string) :
  entities cur = Some es → is_Some (endpoints cur) →
  (∃ x, x ∈ es ∧ ent_id (ents h !!! x) = X) →
  operations req = Some [removeEntity X] →
  ∃ res i e,
    applyChangeRequestToSpec h cur req = Ok res ∧
    impacts res = [i] ∧
    List.find (λ e, bool_decide (ent_id e = X)) (deref (ents h) es) = Some e ∧
    affectedEntities i = Some [ent_name e] ∧
    validateSpec (heap res) (spec res) = Ok (conflicts res) ∧
    snapshot (heap res) (spec res)
    = with_entities_of (snapshot h cur)
        (List.filter (other_id X) (deref (ents h) es)).
Proof. apply apply_remove_entity. Qed.

Lemma apply_add_entity (h : Store) (cur : Spec) (req : ChangeRequest)
    (es : list ref) (r : ref) :
  r < length (ents h) →
  entities cur = Some es → is_Some (endpoints cur) →
  (∀ x, x ∈ es → ent_name (ents h !!! x) ≠ ent_name (ents h !!! r)) →
  operations req = Some [addEntity r] →
  ∃ res i es',
    applyChangeRequestToSpec h cur req = Ok res ∧
    impacts res = [i] ∧ affectedEntities i = Some [ent_name (ents h !!! r)] ∧
    validateSpec (heap res) (spec res) = Ok (conflicts res) ∧
    entities (spec res) = Some (es' ++ [r]) ∧ is_Some (endpoints (spec res)) ∧
    ents (heap res) !!! r = ents h !!! r ∧
    deref (ents (heap res)) es' = deref (ents h) es ∧
    snapshot (heap res) (spec res)
    = with_entities_of (snapshot h cur) (deref (ents h) es ++ [ents h !!! r]).
Proof.
  intros Hr He [ps Hp] Hfresh Hops.
  destruct (deep_copy_values h cur) as (_ & Hents & Heps).
  destruct (deep_copy_keeps h cur) as (_ & Hkeep & _).
  destruct (Hents es He) as (es' & He' & Hd).
  destruct (Heps ps Hp) as (ps' & Hp' & _).
  destruct (add_entity_step (deep_copy h cur).1 (deep_copy h cur).2 es' r He')
    as (i & Hname & Hstep).
  { intros y Hy. destruct (deref_transfer _ _ _ _ Hd y Hy) as (x & Hx & <-).
    rewrite Hkeep by done. by apply Hfresh. }
  destruct (validateSpec_returns (deep_copy h cur).1
              (with_entities (deep_copy h cur).2 (Some (es' ++ [r])))
              _ ps' eq_refl Hp') as (circular & _ & Hval).
  eexists _, i, es'. split.
  { eapply apply_runs; [done| |].
    - erewrite applyOperations_cons by exact Hstep. done.
    - exact Hval. }
  simpl. rewrite Hkeep in Hname by done. repeat split; try done.
  - by apply Hkeep.
  - change (snapshot ?a (with_entities ?s (Some ?l)))
      with (with_entities_of (snapshot a s) (deref (ents a) l)).
    rewrite deep_copy_snapshot. unfold deref at 1. rewrite map_app. simpl.
    fold (deref (ents (deep_copy h cur).1) es'). by rewrite Hd, Hkeep.
Qed.

Lemma with_entities_of_twice (v : SpecValue) (l l' : list Entity) :
  with_entities_of (with_entities_of v l) l' = with_entities_of v l'.
Proof. done. Qed.

Lemma with_entities_of_same (h : Store) (s : Spec) (es : list ref) :
  entities s = Some es →
  with_entities_of (snapshot h s) (deref (ents h) es) = snapshot h s.
Proof. intros He. unfold with_entities_of, snapshot, view. simpl. by rewrite He. Qed.

(** X9. Adding an entity and then, in a second request on the result,
    removing it by its id gives back a spec of the value of the first
    one, when no entity of the first spec has the id or the name of the
    added one.  Each request has one impact. *)
Theorem add_then_remove_entity_round_trip (h : Store) (cur : Spec)
    (add remove : ChangeRequest) (es : list ref) (r : ref) :
  r < length (ents h) →
  entities cur = Some es → is_Some (endpoints cur) →
  (∀ x, x ∈ es → ent_id (ents h !!! x) ≠ ent_id (ents h !!! r) ∧
                 ent_name (ents h !!! x) ≠ ent_name (ents h !!! r)) →
  operations add = Some [addEntity r] →
  operations remove = Some [removeEntity (ent_id (ents h !!! r))] →
  ∃ res1 res2 i1 i2,
    applyChangeRequestToSpec h cur add = Ok res1 ∧ impacts res1 = [i1] ∧
    applyChangeRequestToSpec (heap res1) (spec res1) remove = Ok res2 ∧
    impacts res2 = [i2] ∧
    snapshot (heap res2) (spec res2) = snapshot h cur.
Proof.
  intros Hr He Hp Hfresh Hadd Hremove.
  destruct (apply_add_entity h cur add es r Hr He Hp) as
    (res1 & i1 & es' & Hres1 & Hi1 & _ & _ & He1 & Hp1 & Hr1 & Hd1 & Hs1);
    [by intros x Hx; apply Hfresh|done|].
  destruct (apply_remove_entity (heap res1) (spec res1) remove (es' ++ [r])
              (ent_id (ents h !!! r)) He1 Hp1) as
    (res2 & i2 & e & Hres2 & Hi2 & _ & _ & _ & Hs2); [|done|].
  { exists r. split; [|by rewrite Hr1]. apply elem_of_app. right. by left. }
  exists res1, res2, i1, i2. repeat split; try done.
  rewrite Hs2, Hs1, with_entities_of_twice.
  unfold deref at 1. rewrite map_app. simpl.
  fold (deref (ents (heap res1)) es'). rewrite Hd1, Hr1, List.filter_app. simpl.
  unfold other_id at 2. rewrite bool_decide_eq_true_2 by done. simpl.
  rewrite app_nil_r, filter_all; [by apply with_entities_of_same|].
  intros e' (x & Hx & <-)%elem_of_deref. unfold other_id.
  apply negb_true_iff, bool_decide_eq_false. by apply Hfresh.
Qed.

(** X10. Once an operation has removed the entity of id [X], a later
    operation of the same request that removes or updates entity [X]
    finds nothing: it raises a missing-field conflict and the request has
    the one impact of the removal. *)
Theorem removed_entity_is_gone (h : Store) (cur : Spec) (req : ChangeRequest)
    (es : list ref) (X : string) (again : ChangeOperation) :
  entities cur = Some es → is_Some (endpoints cur) →
  (∃ x, x ∈ es ∧ ent_id (ents h !!! x) = X) →
  again = removeEntity X ∨ (∃ patch, again = updateEntity X patch) →
  operations req = Some [removeEntity X; again] →
  ∃ res i c checks,
    applyChangeRequestToSpec h cur req = Ok res ∧
    impacts res = [i] ∧ conflicts res = c :: checks ∧ ctype c = missing_field ∧
    validateSpec (heap res) (spec res) = Ok checks.
Proof.
  intros He [ps Hp] (x & Hx & Hid) Hagain Hops.
  destruct (deep_copy_values h cur) as (_ & Hents & Heps).
  destruct (Hents es He) as (es' & He' & Hd).
  destruct (Heps ps Hp) as (ps' & Hp' & _).
  destruct (deref_transfer _ _ _ _ (eq_sym Hd) x Hx) as (y & Hy & Heq).
  destruct (remove_entity_step (deep_copy h cur).1 (deep_copy h cur).2 es' X He')
    as (z & i & _ & _ & Hstep).
  { exists y. by rewrite Heq. }
  set (h1 := (deep_copy h cur).1) in *. set (w := (deep_copy h cur).2) in *.
  set (kept := List.filter (λ o, other_id X (ents h1 !!! o)) es') in *.
  destruct (absent_target_conflict h1 (with_entities w (Some kept)) again)
    as (c & Hstep2 & Hty).
  { assert (Hgone : ∃ l, entities (with_entities w (Some kept)) = Some l ∧
                         ∀ o, o ∈ l → ent_id (ents h1 !!! o) ≠ X).
    { exists kept. split; [done|]. intros o Ho%list_elem_of_In Hi.
      apply filter_In in Ho as [_ Ho]. unfold other_id in Ho.
      by rewrite bool_decide_eq_true_2 in Ho. }
    by destruct Hagain as [->|[patch ->]]. }
  destruct (validateSpec_returns h1 (with_entities w (Some kept)) kept ps' eq_refl Hp')
    as (circular & _ & Hval).
  eexists _, i, c, _. split.
  { eapply apply_runs; [done| |].
    - erewrite applyOperations_cons by exact Hstep.
      erewrite applyOperations_cons by exact Hstep2. done.
    - exact Hval. }
  done.
Qed.

(** ** The preview and its summary *)

Lemma includes_r (a b needle : string) :
  includes b needle = true → includes (a +:+ b) needle = true.
Proof.
  intros Hb. induction a as [|c a IH]; [done|].
  change (includes (String c a +:+ b) needle)
    with (String.prefix needle (String c (a +:+ b)) || includes (a +:+ b) needle).
  rewrite IH. apply orb_true_r.
Qed.

(** X11. An impact of a successful addition or removal of an entity or
    an endpoint is classified as such by the summary of every preview
    that holds it: the name of the added or removed object is in
    [newEntities], [newEndpoints], [removedEntities] or
    [removedEndpoints]. *)
Theorem applied_change_is_classified (h h' : Store) (s s' : Spec)
    (op : ChangeOperation) (i : ChangeImpact) (preview : ChangePreview) :
  applyOperation h s op = Ok (h', s', Impact i) →
  i ∈ preview_impacts preview →
  let summary := generateImpactSummary preview in
  match op with
  | addEntity r => ent_name (ents h !!! r) ∈ newEntities summary
  | addEndpoint r => endpoint_label (eps h !!! r) ∈ newEndpoints summary
  | removeEntity X =>
      ∃ es x, entities s = Some es ∧
        List.find (λ o, bool_decide (ent_id (ents h !!! o) = X)) es = Some x ∧
        ent_name (ents h !!! x) ∈ removedEntities summary
  | removeEndpoint X =>
      ∃ ps x, endpoints s = Some ps ∧
        List.find (λ o, bool_decide (ep_id (eps h !!! o) = X)) ps = Some x ∧
        endpoint_label (eps h !!! x) ∈ removedEndpoints summary
  | _ => True
  end.
Proof.
  intros Hop Hi summary. subst summary. unfold generateImpactSummary.
  destruct op; try done; simpl in Hop; unfold mbind, result_bind, from_option in Hop.
  - destruct (entities s) as [es|]; [|done].
    destruct (existsb _ es); simplify_eq. cbn [newEntities].
    eapply (tally_array_fold affectedEntities t_newEntities "added");
      [done|exact Hi| |by left].
    cbn [description]. by apply includes_r, includes_r.
  - destruct (entities s) as [es|]; [|done].
    destruct (List.find _ es) as [x|] eqn:Hfind; simplify_eq.
    exists es, x. split; [done|]. split; [done|]. cbn [removedEntities].
    eapply (tally_array_fold affectedEntities t_removedEntities "removed");
      [done|exact Hi| |by left].
    cbn [description]. by apply includes_r, includes_r.
  - destruct (endpoints s) as [ps|]; [|done].
    destruct (existsb _ ps); simplify_eq. cbn [newEndpoints].
    eapply (tally_array_fold affectedEndpoints t_newEndpoints "added");
      [done|exact Hi| |by left].
    cbn [description]. by apply includes_r, includes_r.
  - destruct (endpoints s) as [ps|]; [|done].
    destruct (List.find _ ps) as [x|] eqn:Hfind; simplify_eq.
    exists ps, x. split; [done|]. split; [done|]. cbn [removedEndpoints].
    eapply (tally_array_fold affectedEndpoints t_removedEndpoints "removed");
      [done|exact Hi| |by left].
    cbn [description]. by apply includes_r, includes_r.
Qed.

(** The endpoint loop of the validator reports nothing exactly when no
    signature occurs twice (or is already seen). *)
Lemma check_endpoints_nil (ps : list Endpoint) :
  ∀ seen,
    check_endpoints seen ps = [] ↔
    NoDup (map signature ps) ∧ Forall (λ e, signature e ∉ seen) ps.
Proof.
  induction ps as [|e ps IH]; intros seen; cbn [check_endpoints map].
  - split; [intros _; split; constructor|done].
  - rewrite !Forall_cons, NoDup_cons. destruct (decide (signature e ∈ seen)) as [Hin|Hnin].
    + split; [done|]. tauto.
    + rewrite IH. rewrite !Forall_forall. split.
      * intros (Hnd & Hseen). repeat split; try done.
        -- intros (x & Hx & Hxin)%list_elem_of_In%in_map_iff.
           apply list_elem_of_In in Hxin. apply Hseen in Hxin. set_solver.
        -- intros x Hx. apply Hseen in Hx. set_solver.
      * intros ((Hnew & Hnd) & (_ & Hseen)). split; [done|].
        intros x Hx. pose proof (Hseen x Hx).
        assert (signature x ≠ signature e); [|set_solver].
        intros Heq. apply Hnew. apply list_elem_of_In, in_map_iff.
        exists x. split; [done|]. by apply list_elem_of_In.
Qed.

Lemma signature_inj (e e' : Endpoint) :
  signature e = signature e' ↔ method e = method e' ∧ path e = path e'.
Proof.
  unfold signature. split.
  - destruct (method e), (method e'); simpl; intros Heq; by simplify_eq.
  - by intros [-> ->].
Qed.

Lemma NoDup_map_iff {A B C} (f : A → B) (g : A → C) (l : list A) :
  (∀ x y, f x = f y ↔ g x = g y) → NoDup (map f l) ↔ NoDup (map g l).
Proof.
  intros Hfg. induction l as [|a l IH]; simpl; [split; constructor|].
  rewrite !NoDup_cons, IH.
  assert (f a ∈ map f l ↔ g a ∈ map g l); [|tauto].
  rewrite !list_elem_of_In, !in_map_iff.
  split; intros (x & Hx & Hin); exists x; split; try done; by apply Hfg.
Qed.

Lemma field_conflicts_valid (e : Entity) :
  field_conflicts e = [] ↔ Forall valid_field (fields e).
Proof.
  unfold field_conflicts. induction (fields e) as [|f fs IH]; cbn [flat_map].
  - split; [constructor|done].
  - rewrite Forall_cons, <- IH. unfold valid_field, truthy.
    destruct (decide (fld_name f = "")) as [Hn|Hn], (decide (fld_type f = "")) as [Ht|Ht].
    all: rewrite ?(bool_decide_eq_true_2 _ Hn), ?(bool_decide_eq_false_2 _ Hn),
           ?(bool_decide_eq_true_2 _ Ht), ?(bool_decide_eq_false_2 _ Ht); simpl.
    all: split; try done; try tauto.
Qed.

(** A preview without conflicts: every operation was applied and the
    proposed spec is one the validator accepts. *)
Lemma clean_preview (h h' : Store) (cur : Spec) (req : ChangeRequest)
    (ops : list ChangeOperation) (p : ChangePreview) :
  operations req = Some ops →
  computeChangePreview h cur req = Ok (h', p) →
  preview_conflicts p = [] →
  length (preview_impacts p) = length ops ∧
  validateSpec h' (proposedSpec p) = Ok [] ∧
  ∃ es ps,
    entities_of (snapshot h' (proposedSpec p)) = Some es ∧
    endpoints_of (snapshot h' (proposedSpec p)) = Some ps ∧
    NoDup (map ent_name es) ∧
    Forall (λ e, Forall valid_field (fields e)) es ∧
    NoDup (map (λ e, (method e, path e)) ps).
Proof.
  intros Hops Hprev Hcs. unfold computeChangePreview in Hprev.
  destruct (applyChangeRequestToSpec h cur req) as [res| |] eqn:Happly; try done.
  cbn [mbind result_bind] in Hprev. simplify_eq. simpl in *.
  destruct (apply_ran _ _ _ _ _ Hops Happly) as (σ & checks & Hrun & Hval & ->).
  destruct (applyOperations_count _ _ _ Hrun) as (raised & done & Hc & Hi & Hlen & _).
  simpl in *. rewrite Hc in Hcs. apply app_eq_nil in Hcs as [-> ->].
  rewrite Hi. split; [simpl in Hlen; lia|]. split; [done|].
  unfold validateSpec in Hval.
  destruct (entities (spec σ)) as [es|] eqn:He; [|done].
  destruct (endpoints (spec σ)) as [ps|] eqn:Hp; [|done].
  destruct (validateCircularRelations _) as [circular| |]; try done.
  cbn [mbind result_bind] in Hval. injection Hval as Hnil.
  apply app_eq_nil in Hnil as [Hents [Heps _]%app_eq_nil].
  apply check_entities_nil in Hents as (Hfields & Hnames & _).
  apply check_endpoints_nil in Heps as (Hsigs & _).
  exists (deref (ents (heap σ)) es), (deref (eps (heap σ)) ps).
  unfold view. rewrite ?He, ?Hp. repeat split; try done.
  - eapply Forall_impl; [exact Hfields|]. intros e. apply field_conflicts_valid.
  - eapply NoDup_map_iff; [|exact Hsigs]. intros x y. symmetry.
    rewrite signature_inj. split; [intros [Hm Hq]; by rewrite Hm, Hq|by intros [= ? ?]].
Qed.

(** X12. When the summary of a preview shows no conflict, every
    operation of the request was applied, the proposed spec passes the
    validator, its entities have distinct names and only fields with a
    name and a type, and its endpoints differ pairwise in method or
    path. *)
Theorem summary_without_conflicts (h h' : Store) (cur : Spec) (req : ChangeRequest)
    (ops : list ChangeOperation) (p : ChangePreview) :
  operations req = Some ops →
  computeChangePreview h cur req = Ok (h', p) →
  hasConflicts (generateImpactSummary p) = false →
  totalChanges (generateImpactSummary p) = length ops ∧
  validateSpec h' (proposedSpec p) = Ok [] ∧
  ∃ es ps,
    entities_of (snapshot h' (proposedSpec p)) = Some es ∧
    endpoints_of (snapshot h' (proposedSpec p)) = Some ps ∧
    NoDup (map ent_name es) ∧
    Forall (λ e, Forall valid_field (fields e)) es ∧
    NoDup (map (λ e, (method e, path e)) ps).
Proof.
  intros Hops Hprev Hnone. apply (clean_preview h h' cur req ops p Hops Hprev).
  unfold generateImpactSummary in Hnone. simpl in Hnone.
  by destruct (preview_conflicts p).
Qed.

(** ** A census of the validator's findings *)

Lemma count_app (t : ConflictType) (a b : list ChangeConflict) :
  count t (a ++ b) = count t a + count t b.
Proof. unfold count. by rewrite List.filter_app, length_app. Qed.

Lemma count_all (t : ConflictType) (cs : list ChangeConflict) :
  Forall (λ c, ctype c = t) cs → count t cs = length cs.
Proof.
  unfold count. induction 1 as [|c cs Hc _ IH]; simpl; [done|].
  rewrite bool_decide_eq_true_2 by done. simpl. by rewrite IH.
Qed.

Lemma count_none (t : ConflictType) (cs : list ChangeConflict) :
  Forall (λ c, ctype c ≠ t) cs → count t cs = 0.
Proof.
  unfold count. induction 1 as [|c cs Hc _ IH]; simpl; [done|].
  by rewrite bool_decide_eq_false_2.
Qed.

Lemma field_conflicts_count (e : Entity) :
  count naming (field_conflicts e) = 0 ∧
  count missing_field (field_conflicts e) = length (List.filter invalid (fields e)) ∧
  count circular_relation (field_conflicts e) = 0 ∧
  count validation (field_conflicts e) = 0.
Proof.
  unfold field_conflicts.
  induction (fields e) as [|f fs (IH1 & IH2 & IH3 & IH4)]; [done|].
  cbn [flat_map List.filter]. rewrite !count_app, IH1, IH2, IH3, IH4.
  change (negb (truthy (fld_name f)) || negb (truthy (fld_type f))) with (invalid f).
  destruct (invalid f); unfold count; simpl; repeat split; lia.
Qed.

Lemma size_add_new (seen : gset string) (n : string) :
  n ∉ seen → size (seen ∪ {[n]}) = S (size seen).
Proof.
  intros Hn. rewrite size_union by set_solver. rewrite size_singleton. lia.
Qed.

Lemma check_entities_count (es : list Entity) :
  ∀ seen,
    count naming (check_entities seen es)
      + size (seen ∪ list_to_set (map ent_name es)) = length es + size seen ∧
    count missing_field (check_entities seen es) = length (invalid_fields es) ∧
    count circular_relation (check_entities seen es) = 0 ∧
    count validation (check_entities seen es) = 0.
Proof.
  induction es as [|e es IH]; intros seen.
  - simpl. rewrite union_empty_r_L. done.
  - destruct (field_conflicts_count e) as (F1 & F2 & F3 & F4).
    cbn [check_entities map list_to_set length invalid_fields flat_map].
    rewrite length_app. fold (invalid_fields es).
    destruct (decide (ent_name e ∈ seen)) as [Hin|Hnin].
    + destruct (IH seen) as (I1 & I2 & I3 & I4).
      change (?c :: ?a ++ ?b) with ([c] ++ a ++ b). rewrite !count_app.
      rewrite F1, F2, F3, F4, I2, I3, I4.
      replace (seen ∪ ({[ent_name e]} ∪ list_to_set (map ent_name es)))
        with (seen ∪ list_to_set (map ent_name es) : gset string) by set_solver.
      unfold count at 1 3 4 5. simpl. repeat split; lia.
    + destruct (IH (seen ∪ {[ent_name e]})) as (I1 & I2 & I3 & I4).
      rewrite !count_app, F1, F2, F3, F4, I2, I3, I4.
      rewrite size_add_new in I1 by done.
      replace (seen ∪ ({[ent_name e]} ∪ list_to_set (map ent_name es)))
        with (seen ∪ {[ent_name e]} ∪ list_to_set (map ent_name es) : gset string)
        by set_solver.
      repeat split; lia.
Qed.

Lemma check_endpoints_count (ps : list Endpoint) :
  ∀ seen,
    count naming (check_endpoints seen ps)
      + size (seen ∪ list_to_set (map signature ps)) = length ps + size seen.
Proof.
  induction ps as [|e ps IH]; intros seen.
  - simpl. rewrite union_empty_r_L. done.
  - cbn [check_endpoints map list_to_set length].
    destruct (decide (signature e ∈ seen)) as [Hin|Hnin].
    + specialize (IH seen).
      change (?c :: ?a) with ([c] ++ a). rewrite count_app.
      replace (seen ∪ ({[signature e]} ∪ list_to_set (map signature ps)))
        with (seen ∪ list_to_set (map signature ps) : gset string) by set_solver.
      unfold count at 1. simpl. lia.
    + specialize (IH (seen ∪ {[signature e]})).
      rewrite size_add_new in IH by done.
      replace (seen ∪ ({[signature e]} ∪ list_to_set (map signature ps)))
        with (seen ∪ {[signature e]} ∪ list_to_set (map signature ps) : gset string)
        by set_solver.
      lia.
Qed.

Lemma visit_all_bound (fuel : nat) (entities todo : list Entity) :
  ∀ st st', visit_all fuel entities todo st = Some st' →
    length (found st') ≤ length (found st) + length todo.
Proof.
  induction todo as [|e todo IH]; intros st st' Hrun; simpl in Hrun.
  - simplify_eq. lia.
  - destruct (decide (ent_id e ∈ visited st)).
    + apply IH in Hrun. simpl. lia.
    + destruct (visit fuel entities e st) as [[b st1]|] eqn:Hvisit; [|done].
      apply IH in Hrun. apply visit_found in Hvisit.
      assert (length (found st1) ≤ S (length (found st))).
      { destruct b; simpl in Hvisit.
        - destruct Hvisit as [x ->]. rewrite length_app. simpl. lia.
        - rewrite Hvisit. lia. }
      simpl. lia.
Qed.

(** X13. The findings of the validator, by type.  A naming conflict
    stands for each entity beyond the first of its name and each endpoint
    beyond the first of its signature; a missing-field conflict for each
    field without a name or a type; there are at most as many
    circular-relation conflicts as entities, and no validation conflict. *)
Theorem validateSpec_census (h : Store) (s : Spec) (es ps : list ref)
    (cs : list ChangeConflict) :
  entities s = Some es → endpoints s = Some ps →
  validateSpec h s = Ok cs →
  let E := deref (ents h) es in
  let P := deref (eps h) ps in
  count naming cs + size (list_to_set (map ent_name E) : gset string)
    + size (list_to_set (map signature P) : gset string) = length E + length P ∧
  count missing_field cs = length (invalid_fields E) ∧
  count circular_relation cs ≤ length E ∧
  count validation cs = 0.
Proof.
  intros He Hp Hval E P.
  destruct (validateSpec_returns h s es ps He Hp) as (circular & Hcirc & Hval').
  rewrite Hval in Hval'. injection Hval' as ->. fold E P. fold E in Hcirc.
  pose proof (validateCircularRelations_types _ _ Hcirc) as Hty.
  assert (Hlen : length circular ≤ length E).
  { unfold validateCircularRelations in Hcirc.
    destruct (visit_all _ E E dfs_init) as [st|] eqn:Hrun; [|done].
    apply visit_all_bound in Hrun. simpl in Hrun. by simplify_eq. }
  destruct (check_entities_count E ∅) as (E1 & E2 & E3 & E4).
  pose proof (check_endpoints_count P ∅) as P1.
  pose proof (check_endpoints_types ∅ P) as Pty.
  rewrite union_empty_l_L, size_empty in E1, P1.
  rewrite !count_app, E2, E3, E4.
  rewrite (count_all circular_relation circular) by done.
  rewrite (count_none naming circular), (count_none missing_field circular),
    (count_none validation circular)
    by (eapply Forall_impl; [exact Hty|]; by intros c ->).
  rewrite (count_none missing_field (check_endpoints ∅ P)),
    (count_none circular_relation (check_endpoints ∅ P)),
    (count_none validation (check_endpoints ∅ P))
    by (eapply Forall_impl; [exact Pty|]; by intros c ->).
  repeat split; lia.
Qed.

(** X14. The endpoint check of the validator reports nothing exactly when
    no two endpoints of the spec agree in both method and path: joining
    method and path with a colon loses nothing. *)
Theorem check_endpoints_exact (ps : list Endpoint) :
  check_endpoints ∅ ps = [] ↔ NoDup (map (λ e, (method e, path e)) ps).
Proof.
  rewrite check_endpoints_nil.
  rewrite (NoDup_map_iff signature (λ e, (method e, path e))).
  - split; [by intros [? _]|]. intros Hnd. split; [done|].
    apply Forall_forall. set_solver.
  - intros x y. rewrite signature_inj.
    split; [intros [Hm Hq]; by rewrite Hm, Hq|by intros [= ? ?]].
Qed.

(** ** The cycle check is exact *)

Lemma same_id (entities : list Entity) (x y : Entity) :
  NoDup (map ent_id entities) → x ∈ entities → y ∈ entities →
  ent_id x = ent_id y → x = y.
Proof.
  induction entities as [|a l IH]; simpl; intros Hnd Hx Hy Heq.
  - by apply elem_of_nil in Hx.
  - apply NoDup_cons in Hnd as [Ha Hnd].
    apply elem_of_cons in Hx as [->|Hx]; apply elem_of_cons in Hy as [->|Hy].
    + done.
    + exfalso. apply Ha. rewrite Heq. apply list_elem_of_In, in_map.
      by apply list_elem_of_In.
    + exfalso. apply Ha. rewrite <- Heq. apply list_elem_of_In, in_map.
      by apply list_elem_of_In.
    + by apply IH.
Qed.

Lemma settled_mark (entities : list Entity) (st : dfs) (i : string) (cs : list ChangeConflict) :
  i ∉ visited st → settled entities st →
  settled entities {| visited := visited st ∪ {[i]}; stack := stack st ∪ {[i]};
                      found := cs |}.
Proof.
  intros Hi (rank & bound & Hset). exists rank, bound. intros x Hx [Hv Hs].
  simpl in Hv, Hs. assert (Hb : black st (ent_id x)) by (split; set_solver).
  destruct (Hset x Hx Hb) as [Hlt Hrel]. split; [done|].
  intros r t Hr Ht. destruct (Hrel r t Hr Ht) as [[Htv Hts] Hrank].
  split; [|done]. split; simpl; set_solver.
Qed.

Lemma visit_false_black (entities : list Entity) (fuel : nat) :
  NoDup (map ent_id entities) →
  ∀ e st st',
    e ∈ entities → settled entities st →
    visit fuel entities e st = Some (false, st') →
    settled entities st' ∧ stack st' = stack st ∧ visited st ⊆ visited st' ∧
    black st' (ent_id e).
Proof.
  intros Hids. induction fuel as [|fuel IH]; intros e st st' He Hset Hrun; [done|].
  cbn [visit] in Hrun.
  destruct (decide (ent_id e ∈ stack st)) as [|Hns]; [done|].
  destruct (decide (ent_id e ∈ visited st)) as [Hv|Hnv].
  { simplify_eq. split; [done|]. split; [done|]. split; [done|]. by split. }
  assert (Hloop : ∀ rels sta stb,
    settled entities sta →
    visit_relations (visit fuel entities) entities rels sta = Some (false, stb) →
    settled entities stb ∧ stack stb = stack sta ∧ visited sta ⊆ visited stb ∧
    ∀ r t, r ∈ rels → find_target entities (target r) = Some t →
           black stb (ent_id t)).
  { induction rels as [|r rels IHr]; intros sta stb Hsa Hl; cbn [visit_relations] in Hl.
    - simplify_eq. split; [done|]. split; [done|]. split; [done|]. set_solver.
    - destruct (find_target entities (target r)) as [t|] eqn:Ht.
      + destruct (visit fuel entities t sta) as [[[] stc]|] eqn:Hv; try done.
        apply find_target_Some in Ht as Hin. destruct Hin as [Hin _].
        destruct (IH t sta stc Hin Hsa Hv) as (Hsc & Hstack & Hvis & [Hbv Hbs]).
        destruct (IHr stc stb Hsc Hl) as (Hsb & Hstack' & Hvis' & Hrest).
        split; [done|]. split; [congruence|]. split; [set_solver|].
        intros r' t' [->|Hr']%elem_of_cons Ht'.
        * rewrite Ht in Ht'. simplify_eq. split; [set_solver|congruence].
        * by apply (Hrest r' t').
      + destruct (IHr sta stb Hsa Hl) as (Hsb & Hstack' & Hvis' & Hrest).
        split; [done|]. split; [done|]. split; [done|].
        intros r' t' [->|Hr']%elem_of_cons Ht'; [congruence|].
        by apply (Hrest r' t'). }
  destruct (visit_relations _ _ _ _) as [[[] st2]|] eqn:Hl; try done.
  injection Hrun as <-.
  apply Hloop in Hl as (Hs2 & Hstack & Hvis & Htargets);
    [|by apply settled_mark].
  simpl in Hstack, Hvis. simpl.
  assert (Hin2 : ent_id e ∈ stack st2) by (rewrite Hstack; set_solver).
  split; [|split; [simpl; set_solver|split; [simpl; set_solver|split; simpl; set_solver]]].
  destruct Hs2 as (rank & bound & Hset2).
  exists (λ i, if decide (i = ent_id e) then bound else rank i), (S bound).
  intros x Hx [Hxv Hxs]. simpl in Hxv, Hxs.
  destruct (decide (ent_id x = ent_id e)) as [Heq|Hne].
  - assert (x = e) as -> by by apply (same_id entities).
    split; [lia|]. intros r t Hr Ht.
    destruct (Htargets r t Hr Ht) as [Htv Hts].
    assert (Hte : ent_id t ≠ ent_id e) by (intros Hte; by rewrite Hte in Hts).
    rewrite decide_False by done.
    apply find_target_Some in Ht as Hin. destruct Hin as [Hin _].
    destruct (Hset2 t Hin (conj Htv Hts)) as [Hlt _].
    split; [|done]. split; simpl; set_solver.
  - assert (Hb : black st2 (ent_id x)) by (split; set_solver).
    destruct (Hset2 x Hx Hb) as [Hlt Hrel]. split; [lia|].
    intros r t Hr Ht. destruct (Hrel r t Hr Ht) as [[Htv Hts] Hrank].
    assert (Hte : ent_id t ≠ ent_id e) by (intros Hte; by rewrite Hte in Hts).
    rewrite decide_False by done. split; [|done]. split; simpl; set_solver.
Qed.

Lemma visit_all_clean (entities : list Entity) (fuel : nat) (todo : list Entity) :
  NoDup (map ent_id entities) →
  ∀ st st',
    (∀ x, x ∈ todo → x ∈ entities) → settled entities st → stack st = ∅ →
    visit_all fuel entities todo st = Some st' → found st' = found st →
    settled entities st' ∧ stack st' = ∅ ∧ visited st ⊆ visited st' ∧
    ∀ x, x ∈ todo → black st' (ent_id x).
Proof.
  intros Hids. induction todo as [|e todo IH]; intros st st' Hsub Hset Hstack Hrun Hfound;
    cbn [visit_all] in Hrun.
  - simplify_eq. split; [done|]. split; [done|]. split; [done|]. set_solver.
  - assert (Hsub' : ∀ x, x ∈ todo → x ∈ entities).
    { intros x Hx. apply Hsub. by apply list_elem_of_further. }
    destruct (decide (ent_id e ∈ visited st)) as [Hv|Hnv].
    + destruct (IH st st' Hsub' Hset Hstack Hrun Hfound) as (Hs' & Hst' & Hvis & Hrest).
      split; [done|]. split; [done|]. split; [done|].
      intros x [->|Hx]%elem_of_cons; [|by apply Hrest].
      split; [set_solver|]. rewrite Hst'. set_solver.
    + destruct (visit fuel entities e st) as [[b st1]|] eqn:Hvisit; [|done].
      pose proof (visit_found _ _ _ _ _ _ Hvisit) as Hgrow.
      destruct (visit_all_found _ _ _ _ _ Hrun) as (more & Hmore & _).
      destruct b; simpl in Hgrow.
      { destruct Hgrow as [c Hc]. rewrite Hmore, Hc, <- app_assoc in Hfound.
        apply (f_equal length) in Hfound. rewrite length_app in Hfound.
        simpl in Hfound. lia. }
      destruct (visit_false_black entities fuel Hids e st st1) as
        (Hs1 & Hst1 & Hvis1 & [Hbv Hbs]); [by apply Hsub; left|done|done|].
      destruct (IH st1 st' Hsub' Hs1) as (Hs' & Hst' & Hvis & Hrest);
        [congruence|done|congruence|].
      split; [done|]. split; [done|]. split; [set_solver|].
      intros x [->|Hx]%elem_of_cons; [|by apply Hrest].
      split; [set_solver|]. rewrite Hst'. set_solver.
Qed.

(** A run that reports nothing has ranked every entity. *)
Lemma clean_run_is_ranked (entities : list Entity) :
  NoDup (map ent_id entities) →
  validateCircularRelations entities = Ok [] →
  ∃ rank, ranked entities rank.
Proof.
  intros Hids Hrun. unfold validateCircularRelations in Hrun.
  destruct (visit_all _ entities entities dfs_init) as [st|] eqn:Hall; [|done].
  injection Hrun as Hfound.
  destruct (visit_all_clean entities (S (length entities)) entities Hids dfs_init st)
    as ((rank & bound & Hset) & Hstack & _ & Hblack); try done.
  { exists (λ _, 0), 0. intros x _ [Hv _]. simpl in Hv. set_solver. }
  exists rank. intros e r t He Hr Ht.
  destruct (Hset e He (Hblack e He)) as [_ Hrel]. by apply (Hrel r t).
Qed.

Lemma ranked_reaches (entities : list Entity) (rank : string → nat) (e t : Entity) :
  ranked entities rank → reaches entities e t → rank (ent_id t) < rank (ent_id e).
Proof.
  intros Hrank. induction 1 as [e r t He Hr Ht|e t u _ IH1 _ IH2].
  - by apply (Hrank e r t).
  - lia.
Qed.

(** X15. When the ids of the entities are distinct, the cycle check
    reports nothing exactly when the relations that resolve to an entity
    have no cycle, that is, when the ids can be ranked so that every such
    relation leads to a lower rank.  A relation whose target names no
    entity plays no part. *)
Theorem cycle_check_is_exact (entities : list Entity) :
  NoDup (map ent_id entities) →
  validateCircularRelations entities = Ok [] ↔ ∃ rank, ranked entities rank.
Proof.
  intros Hids. split.
  - by apply clean_run_is_ranked.
  - intros [rank Hrank]. by apply (validateCircularRelations_ranked entities rank).
Qed.

(** X16. When the ids of the entities are distinct, every cycle is
    found: if an entity reaches itself along relations that resolve, the
    cycle check reports a circular-relation conflict. *)
Theorem cycle_is_reported (entities : list Entity) (e : Entity) :
  NoDup (map ent_id entities) → reaches entities e e →
  ∃ cs c, validateCircularRelations entities = Ok cs ∧ c ∈ cs ∧
          ctype c = circular_relation.
Proof.
  intros Hids Hcycle.
  destruct (validateCircularRelations_returns entities) as [cs Hrun].
  destruct cs as [|c cs].
  - destruct (clean_run_is_ranked entities Hids Hrun) as [rank Hrank].
    pose proof (ranked_reaches entities rank e e Hrank Hcycle). lia.
  - exists (c :: cs), c. split; [done|]. split; [by left|].
    apply validateCircularRelations_types in Hrun. by inversion Hrun.
Qed.

(** ** The CRUD requests of the validation engine *)

Lemma append_assoc (a b c : string) : (a +:+ b) +:+ c = a +:+ b +:+ c.
Proof.
  induction a as [|x a IH]; [done|].
  change (String x ((a +:+ b) +:+ c) = String x (a +:+ b +:+ c)). by rewrite IH.
Qed.

Lemma append_nil_r (a : string) : a +:+ "" = a.
Proof.
  induction a as [|x a IH]; [done|].
  change (String x (a +:+ "") = String x a). by rewrite IH.
Qed.

Lemma includes_refl (s : string) : includes s s = true.
Proof. apply includes_spec. exists "", "". by rewrite append_nil_r. Qed.

Lemma includes_shorter (hay a b : string) :
  includes hay (a +:+ b) = true → includes hay a = true.
Proof.
  intros (pre & post & ->)%includes_spec. apply includes_spec.
  exists pre, (b +:+ post). by rewrite append_assoc.
Qed.

Lemma some_endpoint_false (h : Store) (ps : list ref) (test : Endpoint → bool) :
  some_endpoint h ps test = false → ∀ x, x ∈ ps → test (eps h !!! x) = false.
Proof.
  unfold some_endpoint. intros Hnone x Hx.
  destruct (test (eps h !!! x)) eqn:Ht; [|done].
  by rewrite (existsb_true _ _ x Hx Ht) in Hnone.
Qed.

Lemma some_endpoint_stronger (h : Store) (ps : list ref) (test test' : Endpoint → bool) :
  (∀ e, test e = true → test' e = true) →
  some_endpoint h ps test = true → some_endpoint h ps test' = true.
Proof.
  unfold some_endpoint. intros Himp (x & Hx & Ht)%existsb_exists.
  apply existsb_exists. exists x. split; [done|]. by apply Himp.
Qed.

(** No endpoint of the spec has the method and path of a generated one,
    and the generated ones differ in their methods. *)
Lemma crud_endpoints_fresh (h : Store) (entity : Entity) (ps : list ref) :
  NoDup (map key (crud_endpoints h entity ps)) ∧
  ∀ e x, e ∈ crud_endpoints h entity ps → x ∈ ps → key (eps h !!! x) ≠ key e.
Proof.
  unfold crud_endpoints. split.
  - repeat match goal with |- context [some_endpoint ?a ?b ?c] =>
      generalize (some_endpoint a b c); intros []
    end; simpl; repeat (apply NoDup_cons; split; [set_solver|]); apply NoDup_nil_2.
  - intros e x He Hx Hkey. unfold key in Hkey. injection Hkey as Hm Hp.
    repeat (apply elem_of_app in He as [He|He]).
    all: match type of He with
         | _ ∈ (if ?b then _ else _) => destruct b eqn:Hhas; [by apply elem_of_nil in He|]
         end.
    all: apply list_elem_of_singleton in He; subst e; simpl in Hm, Hp.
    all: pose proof (some_endpoint_false _ _ _ Hhas x Hx) as Hf; simpl in Hf.
    all: rewrite Hm, Hp, includes_refl in Hf; done.
Qed.

Lemma add_endpoints_run (refs : list ref) :
  ∀ σ l,
    endpoints (spec σ) = Some l →
    NoDup (map key (deref (eps (heap σ)) refs)) →
    (∀ r x, r ∈ refs → x ∈ l →
       key (eps (heap σ) !!! x) ≠ key (eps (heap σ) !!! r)) →
    ∃ added,
      applyOperations σ (map addEndpoint refs)
      = Ok {| heap := heap σ; spec := with_endpoints (spec σ) (Some (l ++ refs));
              conflicts := conflicts σ; impacts := impacts σ ++ added |} ∧
      length added = length refs.
Proof.
  induction refs as [|r refs IH]; intros σ l Hl Hnd Hfresh.
  - exists []. rewrite !app_nil_r. split; [|done]. simpl. f_equal.
    destruct σ as [h0 s cs imps]. simpl in *. f_equal. destruct s; simpl in *. by subst.
  - assert (Hnd' : NoDup (key (eps (heap σ) !!! r)
                          :: map key (deref (eps (heap σ)) refs))) by exact Hnd.
    clear Hnd. apply NoDup_cons in Hnd' as [Hr Hnd].
    assert (Hstep : ∃ i, applyOperation (heap σ) (spec σ) (addEndpoint r)
              = Ok (heap σ, with_endpoints (spec σ) (Some (l ++ [r])), Impact i)).
    { simpl. rewrite Hl. cbn [mbind result_bind from_option].
      rewrite existsb_false; [by eexists|]. intros x Hx.
      destruct (decide (path (eps (heap σ) !!! x) = path (eps (heap σ) !!! r))) as [Hp|Hp];
        [|by rewrite (bool_decide_eq_false_2 _ Hp)].
      destruct (decide (method (eps (heap σ) !!! x) = method (eps (heap σ) !!! r)))
        as [Hm|Hm]; [|by rewrite (bool_decide_eq_false_2 _ Hm), andb_false_r].
      exfalso. apply (Hfresh r x); [by left|done|]. unfold key. by rewrite Hp, Hm. }
    destruct Hstep as [i Hstep].
    cbn [map]. erewrite applyOperations_cons by exact Hstep.
    destruct (IH (record σ (heap σ, with_endpoints (spec σ) (Some (l ++ [r])), Impact i))
                 (l ++ [r])) as (added & Hrun & Hlen); [done|done| |].
    { simpl. intros r' x Hr' [Hx|Hx%list_elem_of_singleton]%elem_of_app.
      - apply Hfresh; [by right|done].
      - subst x. intros Heq. apply Hr. rewrite Heq.
        apply list_elem_of_In, in_map, list_elem_of_In, elem_of_deref.
        by exists r'. }
    exists (i :: added). rewrite Hrun. simpl. split; [|by rewrite Hlen].
    rewrite <- !app_assoc. done.
Qed.

Lemma check_endpoints_app (ps qs : list Endpoint) :
  ∀ seen,
    check_endpoints seen (ps ++ qs)
    = check_endpoints seen ps
      ++ check_endpoints (seen ∪ list_to_set (map signature ps)) qs.
Proof.
  induction ps as [|e ps IH]; intros seen; cbn [app check_endpoints map list_to_set].
  - by rewrite union_empty_r_L.
  - destruct (decide (signature e ∈ seen)) as [Hin|Hnin]; rewrite IH.
    + replace (seen ∪ ({[signature e]} ∪ list_to_set (map signature ps)))
        with (seen ∪ list_to_set (map signature ps) : gset string) by set_solver.
      done.
    + replace (seen ∪ ({[signature e]} ∪ list_to_set (map signature ps)))
        with (seen ∪ {[signature e]} ∪ list_to_set (map signature ps) : gset string)
        by set_solver.
      done.
Qed.

(** X17. The request that [generateCRUDOperations] builds for an entity
    applies cleanly: on the store it leaves, every operation of the
    request adds its endpoint, the conflicts of the result are exactly
    those the validator has for the current spec, and the proposed spec is
    the current one with the generated endpoints at the end. *)
Theorem crud_request_applies_cleanly (h h1 : Store) (cur : Spec) (entity : Entity)
    (ps : list ref) (ops : list ChangeOperation) (req : ChangeRequest)
    (checks : list ChangeConflict) :
  endpoints cur = Some ps → wf_refs (eps h) ps →
  generateCRUDOperations h entity cur = Ok (h1, ops) →
  operations req = Some ops →
  validateSpec h cur = Ok checks →
  ∃ res,
    applyChangeRequestToSpec h1 cur req = Ok res ∧
    conflicts res = checks ∧ length (impacts res) = length ops ∧
    snapshot (heap res) (spec res)
    = with_endpoints_of (snapshot h cur)
        (deref (eps h) ps ++ crud_endpoints h entity ps).
Proof.
  intros Hp Hwf Hgen Hops Hval.
  unfold generateCRUDOperations in Hgen. rewrite Hp in Hgen.
  cbn [mbind result_bind from_option] in Hgen. injection Hgen as <- <-.
  set (new := crud_endpoints h entity ps) in *.
  set (refs := seq (length (eps h)) (length new)) in *.
  set (h1 := with_eps h (eps h ++ new)) in *.
  destruct (crud_endpoints_fresh h entity ps) as [Hnd Hfresh]. fold new in Hnd, Hfresh.
  assert (Hold : deref (eps h1) ps = deref (eps h) ps).
  { unfold deref. apply map_ext_in. intros x Hx%list_elem_of_In.
    apply lookup_total_app_l. by apply (proj1 (Forall_forall _ _) Hwf). }
  assert (Hsame : snapshot h1 cur = snapshot h cur).
  { unfold snapshot, view. rewrite Hp. cbn [fmap option_fmap option_map].
    rewrite Hold. done. }
  destruct (deep_copy_values h1 cur) as (_ & _ & Heps).
  destruct (deep_copy_keeps h1 cur) as (_ & _ & Hkeep).
  destruct (Heps ps Hp) as (ps' & Hp' & Hd).
  assert (Hnew : deref (eps (deep_copy h1 cur).1) refs = new).
  { transitivity (deref (eps h1) refs); [|apply deref_copy].
    unfold deref. apply map_ext_in. intros r Hr%list_elem_of_In%elem_of_seq.
    apply Hkeep. simpl. rewrite length_app. lia. }
  destruct (add_endpoints_run refs (start h1 cur) ps') as (added & Hrun & Hlen).
  { done. }
  { simpl. by rewrite Hnew. }
  { simpl. intros r x Hr Hx.
    assert (Hr' : eps (deep_copy h1 cur).1 !!! r ∈ new).
    { rewrite <- Hnew. apply elem_of_deref. by exists r. }
    destruct (deref_transfer _ _ _ _ (eq_trans Hd Hold) x Hx) as (x0 & Hx0 & <-).
    by apply Hfresh. }
  simpl in Hrun.
  set (w := (deep_copy h1 cur).2) in *. set (h2 := (deep_copy h1 cur).1) in *.
  assert (Hall : deref (eps h2) (ps' ++ refs) = deref (eps h) ps ++ new).
  { unfold deref at 1. rewrite map_app. fold (deref (eps h2) ps') (deref (eps h2) refs).
    by rewrite Hd, Hold, Hnew. }
  assert (Hfinal : snapshot h2 (with_endpoints w (Some (ps' ++ refs)))
                   = with_endpoints_of (snapshot h cur) (deref (eps h) ps ++ new)).
  { rewrite <- Hsame, <- (deep_copy_snapshot h1 cur). fold h2 w.
    unfold snapshot, with_endpoints_of, view. simpl. by rewrite Hall. }
  assert (Hval' : validateSpec h2 (with_endpoints w (Some (ps' ++ refs))) = Ok checks).
  { rewrite <- Hval.
    pose proof (f_equal entities_of Hfinal) as He. unfold snapshot, view in He.
    simpl in He. unfold validateSpec. simpl.
    destruct (entities w) as [es'|], (entities cur) as [es|]; simpl in He;
      try discriminate He; [|done].
    injection He as He.
    rewrite Hp, He, Hall, check_endpoints_app.
    replace (check_endpoints _ new) with (@nil ChangeConflict); [by rewrite app_nil_r|].
    symmetry. apply check_endpoints_nil. split.
    - eapply (NoDup_map_iff signature key); [|exact Hnd].
      intros a b. rewrite signature_inj. unfold key.
      split; [intros [Hm Hq]; by rewrite Hm, Hq|by intros [= ? ?]].
    - apply Forall_forall. intros e He'. rewrite union_empty_l_L.
      intros (e0 & Hsig & (x & Hx & <-)%list_elem_of_In%elem_of_deref)%elem_of_list_to_set%list_elem_of_In%in_map_iff.
      apply signature_inj in Hsig as [Hm Hq].
      apply (Hfresh e x He' Hx). unfold key. by rewrite Hm, Hq. }
  eexists. split.
  { eapply apply_runs; [done|exact Hrun|exact Hval']. }
  simpl. split; [done|]. split; [by rewrite Hlen, length_map|]. exact Hfinal.
Qed.

(** X18. Whenever [checkMissingCRUDEndpoints] warns about an entity,
    [generateCRUDOperations] has something to add for it: the warning
    carries the id of an entity of the spec with a name, its message
    contains the words the suggestion generator looks for, and the
    request generated for that entity is not empty. *)
Theorem crud_warning_has_a_fix (h : Store) (spec : Spec) (w : ValidationWarning) :
  w ∈ checkMissingCRUDEndpoints h spec →
  ∃ es x h1 ops,
    entities spec = Some es ∧ x ∈ es ∧
    w_entityId w = Some (ent_id (ents h !!! x)) ∧ ent_name (ents h !!! x) ≠ "" ∧
    includes (w_message w) "missing CRUD endpoints" = true ∧
    generateCRUDOperations h (ents h !!! x) spec = Ok (h1, ops) ∧ ops ≠ [].
Proof.
  unfold checkMissingCRUDEndpoints, generateCRUDOperations.
  destruct (entities spec) as [es|]; [|by intros ?%elem_of_nil].
  destruct (endpoints spec) as [ps|]; [|by intros ?%elem_of_nil].
  destruct (length es =? 0); [by intros ?%elem_of_nil|].
  intros (x & Hx & Hw)%list_elem_of_In%in_flat_map. apply list_elem_of_In in Hx.
  exists es, x. cbn [mbind result_bind from_option]. eexists _, _.
  split; [done|]. split; [done|].
  set (entity := ents h !!! x) in *.
  destruct (truthy (ent_name entity)) eqn:Hname; [|done]. cbn [negb] in Hw.
  set (plural := "/" +:+ toLowerCase (ent_name entity) +:+ "s") in *.
  set (singular := "/" +:+ toLowerCase (ent_name entity)) in *.
  assert (Hvia : ∀ e (m : bool) p,
            includes (path e) (plural +:+ p) = true → m = true →
            truthy (path e) && m &&
              (includes (path e) plural || includes (path e) singular) = true).
  { intros e m p Hinc ->. apply includes_shorter in Hinc. rewrite Hinc.
    unfold truthy. by destruct (path e). }
  match type of Hw with
  | In _ (if 0 <? length ?m then _ else _) => set (missing := m) in *
  end.
  destruct (0 <? length missing) eqn:Hlen; [|done].
  destruct Hw as [<-|[]]. cbn [w_entityId w_message].
  split; [done|]. split.
  { intros Hn. by rewrite Hn in Hname. }
  split.
  { apply includes_r, includes_r.
    apply includes_spec. by exists " is ", (": " +:+ join ", " missing). }
  split; [done|]. unfold crud_endpoints. fold plural.
  repeat match goal with
  | |- context [if some_endpoint ?a ?b ?t then _ else _] =>
      destruct (some_endpoint a b t) eqn:?
  end; try (simpl; discriminate).
  exfalso. subst missing.
  repeat match type of Hlen with
  | context [some_endpoint ?a ?b ?t] =>
      let H := fresh in
      assert (H : some_endpoint a b t = true);
      [ match goal with
        | Hs : some_endpoint _ _ _ = true |- _ =>
            eapply some_endpoint_stronger; cycle 1; [exact Hs|];
            intros e; cbn beta; intros [Hm Hi]%andb_true_iff;
            first [ apply (Hvia e _ ""); [by rewrite append_nil_r|exact Hm]
                  | apply (Hvia e _ "/:id"); [exact Hi|exact Hm] ]
        end
      | rewrite H in Hlen; clear H ]
  end.
  done.
Qed.

(** ** What the server persists *)

Lemma feature_gate_conflict {DB Row} (D : Database DB Row) (db : DB) (project : Project)
    (options : Options) (r : Response Row) :
  feature_gate D db project options = Some r → status r = status_conflict.
Proof.
  unfold feature_gate. intros Hgate.
  destruct (truthy_opt _); [|done].
  destruct (feature_findUnique _ _ _) as [feature|]; [|by injection Hgate as <-].
  destruct (negb _); [by injection Hgate as <-|].
  destruct (negb _); [by injection Hgate as <-|done].
Qed.

(** X19. [applyChangeRequest] writes to the database only when it
    answers [ok] and was asked to persist: when its status is [conflict],
    or when [persist] is not set, the database is as before. *)
Theorem refused_request_writes_nothing {DB Row} (D : Database DB Row) (db db' : DB)
    (h h' : Store) (project : Project) (changeRequest : ChangeRequest)
    (userId : string) (options : Options) (r : Response Row) :
  applyChangeRequest D db h project changeRequest userId options = Ok (db', h', r) →
  status r = status_conflict ∨ persist options = false →
  db' = db.
Proof.
  unfold applyChangeRequest. intros Hrun Hwhy.
  destruct (feature_gate D db project options) as [refusal|]; [by simplify_eq|].
  destruct (computeChangePreview _ _ _) as [[h1 preview]| |]; try done.
  cbn [mbind result_bind] in Hrun.
  destruct (0 <? length (preview_conflicts preview)); [by simplify_eq|].
  destruct (persist options) eqn:Hpersist; [|by simplify_eq].
  destruct (persist_changes _ _ _ _ _ _) as [db1 refreshed].
  simplify_eq. by destruct Hwhy.
Qed.

(** X20. What [applyChangeRequest] persists is a spec the validator
    accepts.  When it answers [ok] with [persist] set, the preview has no
    conflict, every operation of the request was applied, the proposed
    spec passes [validateSpec], and the database is the one left by the
    writes of the value of that proposed spec. *)
Theorem persisted_spec_is_valid {DB Row} (D : Database DB Row) (db db' : DB)
    (h h' : Store) (project : Project) (changeRequest : ChangeRequest)
    (ops : list ChangeOperation) (userId : string) (options : Options)
    (r : Response Row) :
  operations changeRequest = Some ops →
  applyChangeRequest D db h project changeRequest userId options = Ok (db', h', r) →
  status r = status_ok → persist options = true →
  ∃ preview refreshed,
    payload r = PProject refreshed preview ∧
    computeChangePreview h (project_spec project) changeRequest = Ok (h', preview) ∧
    preview_conflicts preview = [] ∧
    length (preview_impacts preview) = length ops ∧
    validateSpec h' (proposedSpec preview) = Ok [] ∧
    persist_changes D db project (snapshot h' (proposedSpec preview)) userId options
    = (db', refreshed).
Proof.
  unfold applyChangeRequest. intros Hops Hrun Hok Hpersist.
  destruct (feature_gate D db project options) as [refusal|] eqn:Hgate.
  { simplify_eq. apply feature_gate_conflict in Hgate. congruence. }
  destruct (computeChangePreview _ _ _) as [[h1 preview]| |] eqn:Hprev; try done.
  cbn [mbind result_bind] in Hrun.
  destruct (preview_conflicts preview) as [|c cs] eqn:Hcs;
    [|simpl in Hrun; by simplify_eq/=].
  cbn [length Nat.ltb Nat.leb] in Hrun. rewrite Hpersist in Hrun.
  destruct (persist_changes _ _ _ _ _ _) as [db1 refreshed] eqn:Hwrites.
  simplify_eq. exists preview, refreshed.
  destruct (clean_preview h h' (project_spec project) changeRequest ops
              preview Hops Hprev Hcs) as (Htotal & Hvalid & _).
  done.
Qed.

(** ** What an operation leaves alone *)

Lemma applyOperation_frame (h h' : Store) (s s' : Spec) (op : ChangeOperation)
    (o : outcome) :
  applyOperation h s op = Ok (h', s', o) →
  passengers s' = passengers s ∧
  folder_structure s' = last_folder (folder_structure s) [op] ∧
  (on_requirements op = false → reqs h' = reqs h ∧ requirements s' = requirements s) ∧
  (on_entities op = false → ents h' = ents h ∧ entities s' = entities s) ∧
  (on_endpoints op = false → eps h' = eps h ∧ endpoints s' = endpoints s).
Proof.
  intros Hop. destruct op; step_cases; done.
Qed.

Lemma applyOperations_frame (ops : list ChangeOperation) :
  ∀ σ σ', applyOperations σ ops = Ok σ' →
    passengers (spec σ') = passengers (spec σ) ∧
    folder_structure (spec σ') = last_folder (folder_structure (spec σ)) ops ∧
    (Forall (λ op, on_requirements op = false) ops →
       reqs (heap σ') = reqs (heap σ) ∧
       requirements (spec σ') = requirements (spec σ)) ∧
    (Forall (λ op, on_entities op = false) ops →
       ents (heap σ') = ents (heap σ) ∧ entities (spec σ') = entities (spec σ)) ∧
    (Forall (λ op, on_endpoints op = false) ops →
       eps (heap σ') = eps (heap σ) ∧ endpoints (spec σ') = endpoints (spec σ)).
Proof.
  induction ops as [|op ops IH]; intros σ σ' Hrun.
  - simpl in Hrun. by simplify_eq.
  - cbn [applyOperations] in Hrun.
    destruct (applyOperation _ _ op) as [[[h1 s1] o]| |] eqn:Hop; try done.
    cbn [mbind result_bind] in Hrun.
    destruct (applyOperation_frame _ _ _ _ _ _ Hop) as (P1 & F1 & R1 & E1 & D1).
    destruct (IH _ _ Hrun) as (P2 & F2 & R2 & E2 & D2).
    assert (Hheap : heap (record σ (h1, s1, o)) = h1) by by destruct o.
    assert (Hspec : spec (record σ (h1, s1, o)) = s1) by by destruct o.
    rewrite Hheap, Hspec in *.
    split; [congruence|]. split.
    { rewrite F2, F1. done. }
    split; [|split]; intros [Hhere Hrest]%Forall_cons.
    + destruct (R1 Hhere), (R2 Hrest). split; congruence.
    + destruct (E1 Hhere), (E2 Hrest). split; congruence.
    + destruct (D1 Hhere), (D2 Hrest). split; congruence.
Qed.

(** X21. What a request leaves alone.  The sections of the spec that the
    engine copies through are the same in the proposed spec as in the
    current one; the folder structure is the one of the last
    [updateFolderStructure] of the request, or the current one; and the
    requirements, the entities and the endpoints have the value they had
    when no operation of the request works on them. *)
Theorem untouched_sections_keep_their_value (h : Store) (cur : Spec)
    (req : ChangeRequest) (ops : list ChangeOperation) (res : ApplyResult) :
  operations req = Some ops →
  applyChangeRequestToSpec h cur req = Ok res →
  let before := snapshot h cur in
  let after := snapshot (heap res) (spec res) in
  passengers_of after = passengers_of before ∧
  folder_of after = last_folder (folder_of before) ops ∧
  (Forall (λ op, on_requirements op = false) ops →
     requirements_of after = requirements_of before) ∧
  (Forall (λ op, on_entities op = false) ops →
     entities_of after = entities_of before) ∧
  (Forall (λ op, on_endpoints op = false) ops →
     endpoints_of after = endpoints_of before).
Proof.
  intros Hops Happly before after. subst before after.
  destruct (apply_ran _ _ _ _ _ Hops Happly) as (σ & checks & Hrun & _ & ->).
  destruct (applyOperations_frame _ _ _ Hrun) as (P & F & R & E & D).
  rewrite <- (deep_copy_snapshot h cur). unfold snapshot, finish. simpl in *.
  split; [done|]. split; [done|].
  split; [|split]; intros Hnone.
  - destruct (R Hnone) as [-> ->]. done.
  - destruct (E Hnone) as [-> ->]. done.
  - destruct (D Hnone) as [-> ->]. done.
Qed.

(** ** Updating an entity *)

Lemma entity_copies (h : Store) (cur : Spec) (es : list ref) :
  entities cur = Some es →
  let copies := seq (length (ents h)) (length es) in
  entities (deep_copy h cur).2 = Some copies ∧
  deref (ents (deep_copy h cur).1) copies = deref (ents h) es ∧
  NoDup copies ∧ Forall (λ y, y < length (ents (deep_copy h cur).1)) copies.
Proof.
  intros He copies. destruct (deep_copy_entities h cur es He) as [Hw Hh1].
  split; [done|]. split; [|split; [apply NoDup_seq|]].
  - rewrite Hh1. pose proof (deref_copy (deref (ents h) es) (ents h)) as Hc.
    unfold deref at 3 in Hc. by rewrite length_map in Hc.
  - apply Forall_forall. intros y Hy%elem_of_seq. rewrite Hh1, length_app.
    unfold deref. rewrite length_map. lia.
Qed.

Lemma update_entity_step (h : Store) (s : Spec) (c1 c2 : list ref) (y : ref)
    (X : string) (patch : EntityPatch) :
  entities s = Some (c1 ++ y :: c2) →
  ent_id (ents h !!! y) = X → (∀ o, o ∈ c1 → ent_id (ents h !!! o) ≠ X) →
  (truthy_opt (np_name patch) = true →
   ∀ o, o ∈ c1 ++ y :: c2 → ¬ name_taken X patch (ents h !!! o)) →
  ∃ i, affectedEntities i = Some [ent_name (assign_entity (ents h !!! y) patch)] ∧
       applyOperation h s (updateEntity X patch)
       = Ok (with_ents h (<[y := assign_entity (ents h !!! y) patch]> (ents h)), s,
             Impact i).
Proof.
  intros He Hy Hfirst Hfree. simpl. rewrite He. cbn [mbind result_bind from_option].
  rewrite find_app_none; cycle 1.
  { intros o Ho. apply bool_decide_eq_false. by apply Hfirst. }
  cbn [List.find]. rewrite (bool_decide_eq_true_2 _ Hy).
  assert (Hcheck : truthy_opt (np_name patch) &&
            existsb (λ o, negb (bool_decide (ent_id (ents h !!! o) = X)) &&
                          bool_decide (Some (ent_name (ents h !!! o)) = np_name patch))
              (c1 ++ y :: c2) = false).
  { destruct (truthy_opt (np_name patch)) eqn:Ht; [|done]. simpl.
    apply existsb_false. intros o Ho.
    destruct (decide (ent_id (ents h !!! o) = X)) as [Hid|Hid].
    - by rewrite (bool_decide_eq_true_2 _ Hid).
    - rewrite (bool_decide_eq_false_2 _ Hid). simpl. apply bool_decide_eq_false.
      intros Hname. by apply (Hfree eq_refl o Ho). }
  rewrite Hcheck. eexists. split; [|reflexivity]. done.
Qed.

(** X22. A request whose one operation updates the entity of id [X]
    with a patch whose name, if it has one that is not empty, no entity of
    another id carries, merges the patch into the first entity of id [X]
    and into nothing else: the proposed spec is the current one with that
    entity replaced.  There is one impact, which names the entity by its
    name after the update, and the only conflicts are the validator's on
    the proposed spec. *)
Theorem update_entity_merges_patch (h : Store) (cur : Spec) (req : ChangeRequest)
    (es : list ref) (l1 l2 : list Entity) (E : Entity) (X : string)
    (patch : EntityPatch) :
  entities cur = Some es → is_Some (endpoints cur) →
  deref (ents h) es = l1 ++ E :: l2 →
  ent_id E = X → (∀ e, e ∈ l1 → ent_id e ≠ X) →
  (truthy_opt (np_name patch) = true →
   ∀ e, e ∈ l1 ++ l2 → ¬ name_taken X patch e) →
  operations req = Some [updateEntity X patch] →
  ∃ res i,
    applyChangeRequestToSpec h cur req = Ok res ∧
    impacts res = [i] ∧
    affectedEntities i = Some [ent_name (assign_entity E patch)] ∧
    validateSpec (heap res) (spec res) = Ok (conflicts res) ∧
    snapshot (heap res) (spec res)
    = with_entities_of (snapshot h cur) (l1 ++ assign_entity E patch :: l2).
Proof.
  intros He [ps Hp] HD HX Hfirst Hfree Hops.
  destruct (entity_copies h cur es He) as (Hw & Hcopies & Hnd & Hlt).
  destruct (deep_copy_values h cur) as (_ & _ & Heps).
  destruct (Heps ps Hp) as (ps' & Hp' & _).
  set (h1 := (deep_copy h cur).1) in *. set (w := (deep_copy h cur).2) in *.
  rewrite HD in Hcopies.
  destruct (map_split _ _ _ _ _ Hcopies) as (c1 & y & c2 & Hsplit & Hc1 & Hy & Hc2).
  change (deref (ents h1) c1 = l1) in Hc1. change (ents h1 !!! y = E) in Hy.
  change (deref (ents h1) c2 = l2) in Hc2.
  rewrite Hsplit in Hw, Hnd, Hlt.
  apply NoDup_app in Hnd as (_ & Hy1 & [Hy2 _]%NoDup_cons).
  apply Forall_app in Hlt as [_ [Hylt _]%Forall_cons].
  destruct (update_entity_step h1 w c1 c2 y X patch Hw) as (i & Hname & Hstep).
  { by rewrite Hy. }
  { intros o Ho. apply Hfirst. rewrite <- Hc1. apply elem_of_deref. by exists o. }
  { intros Ht o Ho [Hid Htaken]. apply (Hfree Ht (ents h1 !!! o)); [|done].
    apply elem_of_app in Ho as [Ho|[->|Ho]%elem_of_cons].
    - apply elem_of_app. left. rewrite <- Hc1. apply elem_of_deref. by exists o.
    - by rewrite Hy in Hid.
    - apply elem_of_app. right. rewrite <- Hc2. apply elem_of_deref. by exists o. }
  rewrite Hy in Hname, Hstep.
  set (h2 := with_ents h1 (<[y := assign_entity E patch]> (ents h1))) in *.
  destruct (validateSpec_returns h2 w (c1 ++ y :: c2) ps' Hw Hp')
    as (circular & _ & Hval).
  eexists _, i. split.
  { eapply apply_runs; [done| |].
    - erewrite applyOperations_cons by exact Hstep. done.
    - exact Hval. }
  simpl. split; [done|]. split; [done|]. split; [done|].
  rewrite <- (deep_copy_snapshot h cur). fold h1 w.
  unfold snapshot, with_entities_of, view. simpl. rewrite Hw. simpl.
  rewrite deref_insert_split by (done || set_solver).
  by rewrite Hc1, Hc2.
Qed.

(** X23. A request whose one operation updates the entity of id [X]
    with a patch whose non-empty name an entity of another id carries is
    refused with one naming conflict, placed before the validator's
    findings; there is no impact and the proposed spec has the value of
    the current one. *)
Theorem update_entity_name_collision (h : Store) (cur : Spec) (req : ChangeRequest)
    (es : list ref) (X : string) (patch : EntityPatch) (checks : list ChangeConflict) :
  entities cur = Some es →
  (∃ x, x ∈ es ∧ ent_id (ents h !!! x) = X) →
  truthy_opt (np_name patch) = true →
  (∃ x, x ∈ es ∧ name_taken X patch (ents h !!! x)) →
  validateSpec h cur = Ok checks →
  operations req = Some [updateEntity X patch] →
  ∃ res c,
    applyChangeRequestToSpec h cur req = Ok res ∧
    conflicts res = c :: checks ∧ ctype c = naming ∧
    impacts res = [] ∧
    snapshot (heap res) (spec res) = snapshot h cur.
Proof.
  intros He (x & Hx & Hid) Ht (o & Ho & Hoid & Hname) Hval Hops.
  destruct (deep_copy_values h cur) as (_ & Hents & _).
  destruct (Hents es He) as (es' & He' & Hd).
  destruct (deref_transfer _ _ _ _ (eq_sym Hd) x Hx) as (x' & Hx' & Hxeq).
  destruct (deref_transfer _ _ _ _ (eq_sym Hd) o Ho) as (o' & Ho' & Hoeq).
  set (h1 := (deep_copy h cur).1) in *. set (w := (deep_copy h cur).2) in *.
  assert (Hstep : ∃ c, applyOperation h1 w (updateEntity X patch)
                       = Ok (h1, w, Conflict c) ∧ ctype c = naming).
  { simpl. rewrite He'. cbn [mbind result_bind from_option].
    destruct (List.find _ es') as [y|] eqn:Hfind.
    - rewrite Ht. rewrite (existsb_true _ _ o' Ho'); [by eexists|].
      rewrite Hoeq, (bool_decide_eq_false_2 _ Hoid). simpl.
      by apply bool_decide_eq_true.
    - apply List.find_none with (x := x') in Hfind; [|by apply list_elem_of_In].
      by rewrite Hxeq, bool_decide_eq_true_2 in Hfind. }
  destruct Hstep as (c & Hstep & Hty).
  destruct (refused h cur req _ c checks Hops Hstep Hval) as (res & Hres & Hc & Hi & Hs).
  by exists res, c.
Qed.

(** ** The words of a description *)

Lemma includes_l (a b needle : string) :
  includes a needle = true → includes (a +:+ b) needle = true.
Proof.
  intros (pre & post & ->)%includes_spec. apply includes_spec.
  exists pre, (post +:+ b). by rewrite !append_assoc.
Qed.

Lemma prefix_before (w : string) (sep : ascii) :
  ¬ occurs sep w →
  ∀ a b post, w +:+ post = a +:+ String sep b → ∃ post', a = w +:+ post'.
Proof.
  induction w as [|c w IH]; intros Hsep a b post Heq.
  - by exists a.
  - destruct a as [|x a].
    + injection Heq as -> _. exfalso. apply Hsep. by left.
    + injection Heq as -> Heq.
      destruct (IH (λ H, Hsep (or_intror H)) a b post Heq) as [post' ->].
      by exists post'.
Qed.

Lemma split_at_separator (w : string) (sep : ascii) (a b : string) :
  w ≠ "" → ¬ occurs sep w →
  ∀ pre post, pre +:+ w +:+ post = a +:+ String sep b →
    (∃ post', a = pre +:+ w +:+ post') ∨ (∃ pre', b = pre' +:+ w +:+ post).
Proof.
  intros Hw Hsep. induction a as [|x a IH]; intros pre post Heq.
  - destruct pre as [|c pre].
    + destruct w as [|c w]; [done|]. injection Heq as -> _.
      exfalso. apply Hsep. by left.
    + injection Heq as -> Heq. right. by exists pre.
  - destruct pre as [|c pre].
    + left. destruct (prefix_before w sep Hsep (String x a) b post Heq) as [post' ->].
      by exists post'.
    + injection Heq as -> Heq. destruct (IH pre post Heq) as [[post' ->]|Hright].
      * left. by exists post'.
      * by right.
Qed.

(** A word without the separator is found on one side of it. *)
Lemma includes_separated (w : string) (sep : ascii) (a b : string) :
  w ≠ "" → ¬ occurs sep w →
  includes (a +:+ String sep b) w = includes a w || includes b w.
Proof.
  intros Hw Hsep. apply eq_true_iff_eq. rewrite orb_true_iff. split.
  - intros (pre & post & Heq)%includes_spec. symmetry in Heq.
    destruct (split_at_separator w sep a b Hw Hsep pre post Heq)
      as [[post' ->]|[pre' ->]]; [left|right]; apply includes_spec; by eexists _, _.
  - intros [Ha|Hb]; [by apply includes_l|].
    apply includes_r. change (String sep b) with (String sep "" +:+ b).
    by apply includes_r.
Qed.

Lemma sentence_words (subject name verb w : string) :
  w ≠ "" → ¬ occurs " " w →
  includes (subject +:+ " " +:+ name +:+ " " +:+ verb) w
  = includes subject w || includes name w || includes verb w.
Proof.
  intros Hw Hsep.
  change (subject +:+ " " +:+ name +:+ " " +:+ verb)
    with (subject +:+ String " " (name +:+ String " " verb)).
  rewrite !includes_separated by done. by rewrite orb_assoc.
Qed.

Lemma label_words (e : Endpoint) (w : string) :
  w ≠ "" → ¬ occurs " " w →
  includes (method_string (method e)) w = false →
  includes (endpoint_label e) w = includes (path e) w.
Proof.
  intros Hw Hsep Hm. unfold endpoint_label.
  change (method_string (method e) +:+ " " +:+ path e)
    with (method_string (method e) +:+ String " " (path e)).
  by rewrite includes_separated, Hm.
Qed.

(** The words of the description that an operation on an entity or an
    endpoint pushes. *)
Lemma impact_words (h h' : Store) (s s' : Spec) (op : ChangeOperation)
    (i : ChangeImpact) :
  applyOperation h s op = Ok (h', s', Impact i) →
  on_entities op = true ∨ on_endpoints op = true →
  ∃ name subject,
    names_of (affectedEntities i) ++ names_of (affectedEndpoints i) = [name] ∧
    (on_entities op = true → subject = name) ∧
    (on_endpoints op = true → ∃ m, name = method_string m +:+ " " +:+ subject) ∧
    includes (description i) "added" = is_addition op || includes subject "added" ∧
    includes (description i) "removed" = is_removal op || includes subject "removed".
Proof.
  intros Hop Hkind.
  assert (Ha : "added" ≠ "" ∧ ¬ occurs " " "added").
  { split; [done|]. unfold occurs. simpl. intuition discriminate. }
  assert (Hr : "removed" ≠ "" ∧ ¬ occurs " " "removed").
  { split; [done|]. unfold occurs. simpl. intuition discriminate. }
  destruct Ha as [Ha1 Ha2], Hr as [Hr1 Hr2].
  assert (Hmethod : ∀ m, includes (method_string m) "added" = false ∧
                         includes (method_string m) "removed" = false).
  { by intros []. }
  destruct op; simpl in Hkind; try (by destruct Hkind);
    simpl in Hop; unfold mbind, result_bind, from_option in Hop;
    repeat case_match; simplify_eq;
    cbn [description affectedEntities affectedEndpoints is_addition is_removal
         on_entities on_endpoints].
  all: eexists _, _; split; [reflexivity|].
  all: split; [first [intros H; discriminate H | intros _; reflexivity]|].
  all: split; [first [intros H; discriminate H | intros _; eexists; reflexivity]|].
  all: try change ("Entity " +:+ ?n +:+ " added")
         with ("Entity" +:+ " " +:+ n +:+ " " +:+ "added").
  all: try change ("Entity " +:+ ?n +:+ " updated")
         with ("Entity" +:+ " " +:+ n +:+ " " +:+ "updated").
  all: try change ("Entity " +:+ ?n +:+ " removed")
         with ("Entity" +:+ " " +:+ n +:+ " " +:+ "removed").
  all: try change ("Endpoint " +:+ ?n +:+ " added")
         with ("Endpoint" +:+ " " +:+ n +:+ " " +:+ "added").
  all: try change ("Endpoint " +:+ ?n +:+ " updated")
         with ("Endpoint" +:+ " " +:+ n +:+ " " +:+ "updated").
  all: try change ("Endpoint " +:+ ?n +:+ " removed")
         with ("Endpoint" +:+ " " +:+ n +:+ " " +:+ "removed").
  all: rewrite !sentence_words by done.
  all: rewrite ?(label_words _ "added"), ?(label_words _ "removed")
         by (done || apply Hmethod).
  all: change (includes "Entity" "added") with false;
       change (includes "Entity" "removed") with false;
       change (includes "Endpoint" "added") with false;
       change (includes "Endpoint" "removed") with false;
       change (includes "added" "added") with true;
       change (includes "added" "removed") with false;
       change (includes "updated" "added") with false;
       change (includes "updated" "removed") with false;
       change (includes "removed" "added") with false;
       change (includes "removed" "removed") with true.
  all: split; [destruct (includes _ "added")|destruct (includes _ "removed")];
         reflexivity.
Qed.

(** X24. How the summary reads an impact depends on the name it
    carries.  The description of the impact of an operation on an entity
    or an endpoint contains "added" exactly when the operation is an
    addition or the name of the entity (the path of the endpoint) contains
    "added", and "removed" exactly when it is a removal or the name (the
    path) contains "removed".  The summary of a preview that holds the
    impact lists the name among the new entities or endpoints in the first
    case and among the removed ones in the second: an update of an entity
    whose name contains "added" counts as a new entity. *)
Theorem description_words (h h' : Store) (s s' : Spec) (op : ChangeOperation)
    (i : ChangeImpact) :
  applyOperation h s op = Ok (h', s', Impact i) →
  on_entities op = true ∨ on_endpoints op = true →
  ∃ name subject,
    names_of (affectedEntities i) ++ names_of (affectedEndpoints i) = [name] ∧
    (on_entities op = true → subject = name) ∧
    (on_endpoints op = true → ∃ m, name = method_string m +:+ " " +:+ subject) ∧
    includes (description i) "added" = is_addition op || includes subject "added" ∧
    includes (description i) "removed" = is_removal op || includes subject "removed" ∧
    ∀ preview, i ∈ preview_impacts preview →
      let summary := generateImpactSummary preview in
      (is_addition op || includes subject "added" = true →
       name ∈ newEntities summary ++ newEndpoints summary) ∧
      (is_removal op || includes subject "removed" = true →
       name ∈ removedEntities summary ++ removedEndpoints summary).
Proof.
  intros Hop Hkind.
  destruct (impact_words h h' s s' op i Hop Hkind)
    as (name & subject & Hnames & Hent & Hend & Hadded & Hremoved).
  exists name, subject. do 4 (split; [done|]). split; [done|].
  intros preview Hi summary. subst summary. unfold generateImpactSummary.
  cbn [newEntities newEndpoints removedEntities removedEndpoints].
  assert (Hin : name ∈ names_of (affectedEntities i) ∨
                name ∈ names_of (affectedEndpoints i)).
  { apply elem_of_app. rewrite Hnames. by left. }
  rewrite <- Hadded, <- Hremoved. split; intros Hw; apply elem_of_app.
  - destruct Hin as [Hin|Hin]; [left|right].
    + by apply (tally_array_fold affectedEntities t_newEntities "added") with (i := i).
    + by apply (tally_array_fold affectedEndpoints t_newEndpoints "added") with (i := i).
  - destruct Hin as [Hin|Hin]; [left|right].
    + by apply (tally_array_fold affectedEntities t_removedEntities "removed")
        with (i := i).
    + by apply (tally_array_fold affectedEndpoints t_removedEndpoints "removed")
        with (i := i).
Qed.

(** ** The two validators on duplicate endpoints *)

Lemma endpoint_label_inj (e e' : Endpoint) :
  endpoint_label e = endpoint_label e' ↔ method e = method e' ∧ path e = path e'.
Proof.
  unfold endpoint_label. split.
  - destruct (method e), (method e'); simpl; intros Heq; by simplify_eq.
  - by intros [-> ->].
Qed.

Lemma duplicate_errors_app (a b : list ValidationError) :
  duplicate_errors (a ++ b) = duplicate_errors a ++ duplicate_errors b.
Proof. unfold duplicate_errors. apply List.filter_app. Qed.

Lemma validators_agree (ps : list Endpoint) :
  Forall (λ e, path e ≠ "") ps →
  ∀ seen keys,
    (∀ e, signature e ∈ seen ↔ endpoint_label e ∈ keys) →
    ∃ again,
      check_endpoints seen ps = map duplicate_endpoint_conflict again ∧
      duplicate_errors (endpoint_errors keys ps) = map duplicate_endpoint_error again.
Proof.
  induction 1 as [|e ps Hpath _ IH]; intros seen keys Hrel.
  - by exists [].
  - cbn [check_endpoints endpoint_errors].
    assert (Ht : truthy (path e) = true).
    { unfold truthy. by rewrite bool_decide_eq_false_2. }
    rewrite Ht. cbn [negb orb].
    assert (Hfront : ∀ tail,
      duplicate_errors
        ((if bool_decide (trim (path e) = "") then [no_path_error e] else []) ++
         (if negb (bool_decide (method_string (method e)
                                ∈ ["GET"; "POST"; "PUT"; "PATCH"; "DELETE"]))
          then [invalid_method_error e] else []) ++ tail)
      = duplicate_errors tail).
    { intros tail. rewrite !duplicate_errors_app.
      by destruct (bool_decide (trim _ = "")), (negb _). }
    destruct (decide (signature e ∈ seen)) as [Hin|Hnin].
    + rewrite decide_True by by apply Hrel.
      destruct (IH seen keys Hrel) as (again & Hc & He).
      exists (e :: again). rewrite Hfront. cbn [map]. rewrite Hc. split; [done|].
      change (duplicate_endpoint_error e :: ?l) with ([duplicate_endpoint_error e] ++ l).
      rewrite duplicate_errors_app, He. done.
    + rewrite decide_False by (by rewrite <- Hrel).
      destruct (IH (seen ∪ {[signature e]}) (keys ∪ {[endpoint_label e]}))
        as (again & Hc & He).
      { intros e'. rewrite !elem_of_union, !elem_of_singleton, Hrel.
        rewrite signature_inj, endpoint_label_inj. done. }
      exists again. by rewrite Hfront.
Qed.

(** X25. The two validators agree on duplicate endpoints.  On a spec
    whose endpoints all have a path, [validateEndpoints] of the validation
    engine reports a duplicate for exactly the endpoints for which
    [validateSpec] of the update engine does, in the same order: joining
    method and path with a space or with a colon tells the same endpoints
    apart. *)
Theorem validators_agree_on_duplicate_endpoints (h : Store) (spec : Spec)
    (ps : list ref) :
  endpoints spec = Some ps →
  Forall (λ e, path e ≠ "") (deref (eps h) ps) →
  ∃ again,
    check_endpoints ∅ (deref (eps h) ps) = map duplicate_endpoint_conflict again ∧
    duplicate_errors (validateEndpoints h spec) = map duplicate_endpoint_error again.
Proof.
  intros Hp Hpaths. unfold validateEndpoints. rewrite Hp.
  destruct ps as [|x ps]; [by exists []|]. cbn [length Nat.eqb].
  apply validators_agree; [done|]. intros e. set_solver.
Qed.

(** ** The two validators on duplicate names *)

Lemma field_errors_no_duplicate_name (entity : Entity) (fs : list Field) :
  ∀ seen, duplicate_name_errors (field_errors entity seen fs) = [].
Proof.
  unfold duplicate_name_errors.
  induction fs as [|f fs IH]; intros seen; [done|].
  cbn [field_errors]. rewrite !List.filter_app, IH.
  by destruct (decide _), (_ || _).
Qed.

Lemma entity_errors_no_duplicate_name (entity : Entity) :
  duplicate_name_errors (entity_errors entity) = [].
Proof.
  pose proof (field_errors_no_duplicate_name entity (fields entity) ∅) as Hf.
  unfold duplicate_name_errors, entity_errors in *. rewrite !List.filter_app, Hf.
  by destruct (_ || _), (_ =? _), (existsb _ _).
Qed.

Lemma field_conflicts_no_naming (entity : Entity) :
  naming_conflicts (field_conflicts entity) = [].
Proof.
  unfold naming_conflicts, field_conflicts.
  induction (fields entity) as [|f fs IH]; [done|].
  cbn [flat_map]. rewrite List.filter_app, IH. by destruct (_ || _).
Qed.

Lemma duplicate_name_prefix (n : string) :
  String.prefix "Duplicate entity name: " ("Duplicate entity name: " +:+ n) = true.
Proof. apply prefix_append. by exists n. Qed.

Lemma validators_agree_on_names (es : list Entity) :
  Forall (λ e, ent_name e ≠ "") es →
  ∀ seen,
    ∃ again,
      naming_conflicts (check_entities seen es) = map duplicate_entity_conflict again ∧
      duplicate_name_errors (entities_errors seen es) = map duplicate_entity_error again.
Proof.
  induction 1 as [|e es Hname _ IH]; intros seen.
  - by exists [].
  - cbn [check_entities entities_errors].
    assert (Ht : truthy (ent_name e) = true).
    { unfold truthy. by rewrite bool_decide_eq_false_2. }
    rewrite Ht. cbn [negb].
    unfold duplicate_name_errors, naming_conflicts in *.
    pose proof (entity_errors_no_duplicate_name e) as He.
    pose proof (field_conflicts_no_naming e) as Hf.
    unfold duplicate_name_errors, naming_conflicts in He, Hf.
    destruct (decide (ent_name e ∈ seen)) as [Hin|Hnin].
    + destruct (IH seen) as (again & Hc & Hv). exists (e :: again).
      cbn [List.filter app map ctype duplicate_entity_conflict].
      rewrite bool_decide_eq_true_2 by done.
      rewrite !List.filter_app, Hf, He, Hc. cbn [app]. split; [done|].
      cbn [List.filter err_message duplicate_entity_error].
      rewrite duplicate_name_prefix. cbn [app]. f_equal.
      assert (Hsame : seen ∪ {[ent_name e]} = seen) by set_solver.
      by rewrite Hsame.
    + destruct (IH (seen ∪ {[ent_name e]})) as (again & Hc & Hv). exists again.
      rewrite !List.filter_app, Hf, He, Hc, Hv. done.
Qed.

(** X26. The two validators agree on duplicate entity names.  On a spec
    whose entities all have a name, [validateEntities] of the validation
    engine reports a duplicate name for exactly the entities for which
    [validateSpec] of the update engine does, in the same order. *)
Theorem validators_agree_on_duplicate_names (h : Store) (spec : Spec)
    (es : list ref) :
  entities spec = Some es →
  Forall (λ e, ent_name e ≠ "") (deref (ents h) es) →
  ∃ again,
    naming_conflicts (check_entities ∅ (deref (ents h) es))
      = map duplicate_entity_conflict again ∧
    duplicate_name_errors (validateEntities h spec) = map duplicate_entity_error again.
Proof.
  intros He Hnames. unfold validateEntities. rewrite He.
  destruct es as [|x es]; [by exists []|]. cbn [length Nat.eqb].
  by apply validators_agree_on_names.
Qed.

(** * Instances of the further properties *)

Lemma one_record_per_operation_witness :
  ∃ res,
    applyChangeRequestToSpec user_store user_spec two_adds = Ok res ∧
    ∃ raised checks,
      conflicts res = raised ++ checks ∧
      validateSpec (heap res) (spec res) = Ok checks ∧
      length raised + length (impacts res) = 2 ∧
      Forall (λ c, ctype c ≠ circular_relation) raised.
Proof.
  eexists. split; [vm_compute; reflexivity|].
  apply (one_record_per_operation user_store user_spec two_adds
           [addEntity 1; addEntity 2]); [reflexivity|vm_compute; reflexivity].
Defined.

Lemma absent_target_is_reported_witness :
  ∃ res c,
    applyChangeRequestToSpec user_store user_spec remove_nobody = Ok res ∧
    conflicts res = [c] ∧ ctype c = missing_field ∧
    impacts res = [] ∧
    snapshot (heap res) (spec res) = snapshot user_store user_spec.
Proof.
  apply (absent_target_is_reported user_store user_spec remove_nobody
           (removeEntity "nobody") []).
  - exists [0]. split; [reflexivity|]. intros x Hx. elem_cases Hx. discriminate.
  - vm_compute; reflexivity.
  - reflexivity.
Defined.

Lemma taken_key_is_reported_witness :
  ∃ res c,
    applyChangeRequestToSpec user_store user_spec add_first_endpoint = Ok res ∧
    conflicts res = [c] ∧ ctype c = naming ∧
    impacts res = [] ∧
    snapshot (heap res) (spec res) = snapshot user_store user_spec.
Proof.
  apply (taken_key_is_reported user_store user_spec add_first_endpoint
           (addEndpoint 0) []).
  - simpl; lia.
  - exists [0; 1], 0. split; [reflexivity|]. split; [apply list_elem_of_here|]. done.
  - vm_compute; reflexivity.
  - reflexivity.
Defined.

Lemma remove_entity_removes_every_match_witness :
  ∃ res i e,
    applyChangeRequestToSpec user_store user_spec remove_user = Ok res ∧
    impacts res = [i] ∧
    List.find (λ e, bool_decide (ent_id e = "u1")) (deref (ents user_store) [0])
      = Some e ∧
    affectedEntities i = Some [ent_name e] ∧
    validateSpec (heap res) (spec res) = Ok (conflicts res) ∧
    snapshot (heap res) (spec res)
    = with_entities_of (snapshot user_store user_spec)
        (List.filter (other_id "u1") (deref (ents user_store) [0])).
Proof.
  apply (remove_entity_removes_every_match user_store user_spec remove_user [0] "u1").
  - reflexivity.
  - eexists; reflexivity.
  - exists 0. split; [apply list_elem_of_here|reflexivity].
  - reflexivity.
Defined.

Lemma add_then_remove_entity_round_trip_witness :
  ∃ res1 res2 i1 i2,
    applyChangeRequestToSpec user_store user_spec add_order = Ok res1 ∧
    impacts res1 = [i1] ∧
    applyChangeRequestToSpec (heap res1) (spec res1) remove_order = Ok res2 ∧
    impacts res2 = [i2] ∧
    snapshot (heap res2) (spec res2) = snapshot user_store user_spec.
Proof.
  apply (add_then_remove_entity_round_trip user_store user_spec add_order
           remove_order [0] 2).
  - simpl; lia.
  - reflexivity.
  - eexists; reflexivity.
  - intros x Hx. elem_cases Hx. split; discriminate.
  - reflexivity.
  - reflexivity.
Defined.

Lemma removed_entity_is_gone_witness :
  ∃ res i c checks,
    applyChangeRequestToSpec user_store user_spec remove_user_twice = Ok res ∧
    impacts res = [i] ∧ conflicts res = c :: checks ∧ ctype c = missing_field ∧
    validateSpec (heap res) (spec res) = Ok checks.
Proof.
  apply (removed_entity_is_gone user_store user_spec remove_user_twice [0] "u1"
           (removeEntity "u1")).
  - reflexivity.
  - eexists; reflexivity.
  - exists 0. split; [apply list_elem_of_here|reflexivity].
  - by left.
  - reflexivity.
Defined.

Lemma applied_change_is_classified_witness :
  "Order" ∈ newEntities (generateImpactSummary order_preview).
Proof.
  apply (applied_change_is_classified user_store user_store user_spec
           (with_entities user_spec (Some [0; 2])) (addEntity 2) order_added
           order_preview).
  - reflexivity.
  - apply list_elem_of_here.
Defined.

Lemma summary_without_conflicts_witness :
  ∃ h' p,
    computeChangePreview user_store user_spec add_order = Ok (h', p) ∧
    totalChanges (generateImpactSummary p) = 1 ∧
    validateSpec h' (proposedSpec p) = Ok [] ∧
    ∃ es ps,
      entities_of (snapshot h' (proposedSpec p)) = Some es ∧
      endpoints_of (snapshot h' (proposedSpec p)) = Some ps ∧
      NoDup (map ent_name es) ∧
      Forall (λ e, Forall valid_field (fields e)) es ∧
      NoDup (map (λ e, (method e, path e)) ps).
Proof.
  eexists _, _. split; [vm_compute; reflexivity|].
  apply (summary_without_conflicts user_store _ user_spec add_order [addEntity 2]).
  - reflexivity.
  - vm_compute; reflexivity.
  - vm_compute; reflexivity.
Defined.

Lemma validateSpec_census_witness :
  let E := deref (ents user_store) [0; 1; 2] in
  let P := deref (eps user_store) [0; 1] in
  ∃ cs,
    validateSpec user_store (with_entities user_spec (Some [0; 1; 2])) = Ok cs ∧
    count naming cs + size (list_to_set (map ent_name E) : gset string)
      + size (list_to_set (map signature P) : gset string) = length E + length P ∧
    count missing_field cs = length (invalid_fields E) ∧
    count circular_relation cs ≤ length E ∧
    count validation cs = 0.
Proof.
  intros E P. eexists. split; [vm_compute; reflexivity|].
  apply (validateSpec_census user_store (with_entities user_spec (Some [0; 1; 2]))
           [0; 1; 2] [0; 1]); [reflexivity|reflexivity|vm_compute; reflexivity].
Defined.

Lemma cycle_check_is_exact_witness :
  validateCircularRelations (ents open_chain_store) = Ok [] ↔
  ∃ rank, ranked (ents open_chain_store) rank.
Proof.
  apply (cycle_check_is_exact (ents open_chain_store)).
  repeat (apply NoDup_cons; split; [set_solver|]). apply NoDup_nil. done.
Defined.

Lemma cycle_is_reported_witness :
  ∃ cs c, validateCircularRelations (ents cycle_store) = Ok cs ∧ c ∈ cs ∧
          ctype c = circular_relation.
Proof.
  apply (cycle_is_reported (ents cycle_store) (entity "a" "A" ["B"])).
  - repeat (apply NoDup_cons; split; [set_solver|]). apply NoDup_nil. done.
  - eapply reaches_trans; [|eapply reaches_trans].
    + eapply (reaches_step _ _ {| target := "B"; rel_type := many_to_one |});
        [apply list_elem_of_here|apply list_elem_of_here|reflexivity].
    + eapply (reaches_step _ _ {| target := "C"; rel_type := many_to_one |});
        [apply list_elem_of_further, list_elem_of_here|apply list_elem_of_here
        |reflexivity].
    + eapply (reaches_step _ _ {| target := "a"; rel_type := many_to_one |});
        [do 2 apply list_elem_of_further; apply list_elem_of_here
        |apply list_elem_of_here|reflexivity].
Defined.

Lemma crud_request_applies_cleanly_witness :
  ∃ res,
    applyChangeRequestToSpec crud_store user_spec crud_request = Ok res ∧
    conflicts res = [] ∧ length (impacts res) = 2 ∧
    snapshot (heap res) (spec res)
    = with_endpoints_of (snapshot user_store user_spec)
        (deref (eps user_store) [0; 1] ++ crud_endpoints user_store user_entity [0; 1]).
Proof.
  apply (crud_request_applies_cleanly user_store crud_store user_spec user_entity
           [0; 1] [addEndpoint 2; addEndpoint 3] crud_request []).
  - reflexivity.
  - repeat constructor; simpl; lia.
  - vm_compute; reflexivity.
  - reflexivity.
  - vm_compute; reflexivity.
Defined.

Lemma crud_warning_has_a_fix_witness :
  ∃ w,
    checkMissingCRUDEndpoints user_store user_spec = [w] ∧
    ∃ es x h1 ops,
      entities user_spec = Some es ∧ x ∈ es ∧
      w_entityId w = Some (ent_id (ents user_store !!! x)) ∧
      ent_name (ents user_store !!! x) ≠ "" ∧
      includes (w_message w) "missing CRUD endpoints" = true ∧
      generateCRUDOperations user_store (ents user_store !!! x) user_spec
        = Ok (h1, ops) ∧
      ops ≠ [].
Proof.
  eexists. split; [vm_compute; reflexivity|].
  apply (crud_warning_has_a_fix user_store user_spec).
  vm_compute. apply list_elem_of_here.
Defined.

Lemma refused_request_writes_nothing_witness :
  ∃ db' h' r,
    applyChangeRequest write_log [] user_store user_project add_order "me" for_feature
      = Ok (db', h', r) ∧
    db' = [].
Proof.
  eexists _, _, _. split; [vm_compute; reflexivity|].
  eapply (refused_request_writes_nothing write_log [] _ user_store _ user_project
            add_order "me" for_feature); [vm_compute; reflexivity|by left].
Defined.

Lemma persisted_spec_is_valid_witness :
  ∃ db' h' r,
    applyChangeRequest write_log [] user_store user_project add_order "me" for_good
      = Ok (db', h', r) ∧
    ∃ preview refreshed,
      payload r = PProject refreshed preview ∧
      computeChangePreview user_store user_spec add_order = Ok (h', preview) ∧
      preview_conflicts preview = [] ∧
      length (preview_impacts preview) = 1 ∧
      validateSpec h' (proposedSpec preview) = Ok [] ∧
      persist_changes write_log [] user_project (snapshot h' (proposedSpec preview))
        "me" for_good
      = (db', refreshed).
Proof.
  eexists _, _, _. split; [vm_compute; reflexivity|].
  eapply (persisted_spec_is_valid write_log [] _ user_store _ user_project add_order
            [addEntity 2] "me" for_good);
    [reflexivity|vm_compute; reflexivity|reflexivity|reflexivity].
Defined.

Lemma untouched_sections_keep_their_value_witness :
  ∃ res,
    applyChangeRequestToSpec user_store user_spec two_adds = Ok res ∧
    let before := snapshot user_store user_spec in
    let after := snapshot (heap res) (spec res) in
    passengers_of after = passengers_of before ∧
    folder_of after = last_folder (folder_of before) [addEntity 1; addEntity 2] ∧
    (Forall (λ op, on_requirements op = false) [addEntity 1; addEntity 2] →
       requirements_of after = requirements_of before) ∧
    (Forall (λ op, on_entities op = false) [addEntity 1; addEntity 2] →
       entities_of after = entities_of before) ∧
    (Forall (λ op, on_endpoints op = false) [addEntity 1; addEntity 2] →
       endpoints_of after = endpoints_of before).
Proof.
  eexists. split; [vm_compute; reflexivity|].
  apply (untouched_sections_keep_their_value user_store user_spec two_adds
           [addEntity 1; addEntity 2]); [reflexivity|vm_compute; reflexivity].
Defined.

Lemma update_entity_merges_patch_witness :
  ∃ res i,
    applyChangeRequestToSpec user_store user_spec rename_user = Ok res ∧
    impacts res = [i] ∧
    affectedEntities i = Some ["Member"] ∧
    validateSpec (heap res) (spec res) = Ok (conflicts res) ∧
    snapshot (heap res) (spec res)
    = with_entities_of (snapshot user_store user_spec) [entity "u1" "Member" []].
Proof.
  apply (update_entity_merges_patch user_store user_spec rename_user [0] [] []
           user_entity "u1" (rename_to "Member")).
  - reflexivity.
  - eexists; reflexivity.
  - reflexivity.
  - reflexivity.
  - intros e He. by apply elem_of_nil in He.
  - intros _ e He. by apply elem_of_nil in He.
  - reflexivity.
Defined.

Lemma update_entity_name_collision_witness :
  ∃ res c,
    applyChangeRequestToSpec user_store user_and_order user_to_order = Ok res ∧
    conflicts res = [c] ∧ ctype c = naming ∧
    impacts res = [] ∧
    snapshot (heap res) (spec res) = snapshot user_store user_and_order.
Proof.
  apply (update_entity_name_collision user_store user_and_order user_to_order
           [0; 2] "u1" (rename_to "Order") []).
  - reflexivity.
  - exists 0. split; [apply list_elem_of_here|reflexivity].
  - reflexivity.
  - exists 2. split; [apply list_elem_of_further, list_elem_of_here|].
    split; [discriminate|reflexivity].
  - vm_compute; reflexivity.
  - reflexivity.
Defined.

Lemma description_words_witness :
  ∃ h' s' i,
    applyOperation user_store user_spec pad_user = Ok (h', s', Impact i) ∧
    ∃ name subject,
      names_of (affectedEntities i) ++ names_of (affectedEndpoints i) = [name] ∧
      (on_entities pad_user = true → subject = name) ∧
      (on_endpoints pad_user = true →
       ∃ m, name = method_string m +:+ " " +:+ subject) ∧
      includes (description i) "added" = is_addition pad_user || includes subject "added" ∧
      includes (description i) "removed"
      = is_removal pad_user || includes subject "removed" ∧
      ∀ preview, i ∈ preview_impacts preview →
        let summary := generateImpactSummary preview in
        (is_addition pad_user || includes subject "added" = true →
         name ∈ newEntities summary ++ newEndpoints summary) ∧
        (is_removal pad_user || includes subject "removed" = true →
         name ∈ removedEntities summary ++ removedEndpoints summary).
Proof.
  eexists _, _, _. split; [vm_compute; reflexivity|].
  eapply (description_words user_store _ user_spec _ pad_user);
    [vm_compute; reflexivity|by left].
Defined.

Lemma validators_agree_on_duplicate_endpoints_witness :
  ∃ again,
    check_endpoints ∅ (deref (eps user_store) [0; 1; 0])
      = map duplicate_endpoint_conflict again ∧
    duplicate_errors (validateEndpoints user_store doubled_endpoint)
      = map duplicate_endpoint_error again.
Proof.
  apply (validators_agree_on_duplicate_endpoints user_store doubled_endpoint [0; 1; 0]).
  - reflexivity.
  - repeat constructor; discriminate.
Defined.

Lemma validators_agree_on_duplicate_names_witness :
  ∃ again,
    naming_conflicts (check_entities ∅ (deref (ents user_store) [0; 1; 2]))
      = map duplicate_entity_conflict again ∧
    duplicate_name_errors (validateEntities user_store two_users)
      = map duplicate_entity_error again.
Proof.
  apply (validators_agree_on_duplicate_names user_store two_users [0; 1; 2]).
  - reflexivity.
  - repeat constructor; discriminate.
Defined.
